(** * kane::vector: a memory-level model of the container and its checked properties

    The development follows the layering of the sources:

    - [ArrayContainerBase.h]: allocation, construction, destruction and the
      range helpers ([move_construct_from_range], [construct_n], ...);
    - [VectorDetails.h/.inl]: [vector_base], the three cursors [m_data],
      [m_size], [m_capacity], the growth policy, [move_forward_n],
      [make_gap_n] and [insert_horrible];
    - [Vector.h/.inl]: the public [vector] operations.

    Memory is a list of blocks; a block is a list of slots, a slot being
    either uninitialised ([None]) or holding a constructed element.  A
    pointer is a block number and an offset, so that aliasing, dangling
    references and the initialised/uninitialised distinction the code is
    built around are all visible.  Member functions run in a state and
    error monad over the pair (the vector's three cursors, the memory). *)

From stdpp Require Import base list numbers option.

Open Scope Z_scope.

Module kane.

(** ** size_type *)

(** [size_type] is [std::size_t]; arithmetic on it wraps. *)
Definition size_bits : Z := 64.
Definition size_modulus : Z := 2 ^ size_bits.
Definition wrap (z : Z) : Z := z mod size_modulus.

(** The largest object the platform can address ([PTRDIFF_MAX]); cursor
    differences such as [m_capacity - m_data] are of type [ptrdiff_t]. *)
Definition ptrdiff_max : Z := 2 ^ (size_bits - 1) - 1.

(** ** Pointers *)

Inductive pointer : Type :=
  | Null
  | Ptr (b : nat) (o : Z).

Definition ptr_add (p : pointer) (n : Z) : pointer :=
  match p with
  | Null => Null
  | Ptr b o => Ptr b (o + n)
  end.

Definition ptr_offset (p : pointer) : Z :=
  match p with
  | Null => 0
  | Ptr _ o => o
  end.

(** [p - q] for two cursors of one array (or two null pointers). *)
Definition ptr_diff (p q : pointer) : Z := ptr_offset p - ptr_offset q.

Definition ptr_eqb (p q : pointer) : bool :=
  match p, q with
  | Null, Null => true
  | Ptr b o, Ptr b' o' => Nat.eqb b b' && Z.eqb o o'
  | _, _ => false
  end.

Definition ptr_ltb (p q : pointer) : bool :=
  match p, q with
  | Ptr b o, Ptr b' o' => Nat.eqb b b' && Z.ltb o o'
  | _, _ => false
  end.

Definition ptr_leb (p q : pointer) : bool := ptr_eqb p q || ptr_ltb p q.

Definition is_null (p : pointer) : bool :=
  match p with
  | Null => true
  | Ptr _ _ => false
  end.

(** ** vector_base_members *)

Record vector : Type := mk_vector {
  m_data : pointer;
  m_size : pointer;
  m_capacity : pointer
}.

(** ** Memory *)

(** A slot is uninitialised ([None]) or holds a constructed element; a
    block is the array one [allocate] returned.  A deallocated block stays
    in the memory as [None]: its number is never reused, so a pointer into
    it dangles. *)
Abbreviation slot T := (option T).
Abbreviation block T := (list (option T)).
Abbreviation heap T := (list (option (list (option T)))).

Section Memory.

Variable T : Type.

Record state : Type := mk_state {
  self : vector;
  mem : heap T
}.

Inductive result (A : Type) : Type :=
  | Ok (a : A) (s : state)
  | Throw
  | Undefined.
Arguments Ok {A} a s.
Arguments Throw {A}.
Arguments Undefined {A}.

Definition M (A : Type) : Type := state → result A.

Definition ret {A} (a : A) : M A := λ s, Ok a s.

Definition bind {A B} (m : M A) (k : A → M B) : M B :=
  λ s, match m s with
       | Ok a s' => k a s'
       | Throw => Throw
       | Undefined => Undefined
       end.

Definition undefined {A} : M A := λ _, Undefined.
Definition throw {A} : M A := λ _, Throw.

Definition get_self : M vector := λ s, Ok (self s) s.
Definition set_self (v : vector) : M unit := λ s, Ok tt (mk_state v (mem s)).
Definition get_mem : M (heap T) := λ s, Ok (mem s) s.
Definition set_mem (h : heap T) : M unit := λ s, Ok tt (mk_state (self s) h).

End Memory.

Arguments Ok {T A} a s.
Arguments Throw {T A}.
Arguments Undefined {T A}.
Arguments ret {T A} a.
Arguments bind {T A B} m k.
Arguments undefined {T A}.
Arguments throw {T A}.
Arguments get_self {T}.
Arguments set_self {T} v.
Arguments get_mem {T}.
Arguments set_mem {T} h.
Arguments mk_state {T} self mem.
Arguments self {T} s.
Arguments mem {T} s.

Notation "x <- c1 ;; c2" := (bind c1 (λ x, c2))
  (at level 100, c1 at next level, right associativity).
Notation "c1 ;; c2" := (bind c1 (λ _, c2))
  (at level 100, right associativity).

(** ** array_container_base *)

Section ArrayContainerBase.

Context {T : Type}.

(** The state a moved-from element is left in (the identity for [int], the
    empty string for [std::string]). *)
Variable moved_from : T → T.

(** [std::is_trivially_destructible_v<value_type>]. *)
Variable value_has_trivial_destroy : bool.

(** [sizeof(T)]; it only enters through [max_size]. *)
Variable sizeof_T : positive.

Local Abbreviation state := (state T).
Local Abbreviation M := (M T).

(** [allocator_traits::max_size]: no array of more than [PTRDIFF_MAX] bytes
    exists. *)
Definition max_size : Z := ptrdiff_max / Z.pos sizeof_T.

(** *** Single slots *)

Definition read_slot (h : heap T) (p : pointer) : option (slot T) :=
  match p with
  | Null => None
  | Ptr b o =>
      if o <? 0 then None
      else match h !! b with
           | Some (Some blk) => blk !! Z.to_nat o
           | _ => None
           end
  end.

Definition write_slot (h : heap T) (p : pointer) (x : slot T) : option (heap T) :=
  match p with
  | Null => None
  | Ptr b o =>
      if o <? 0 then None
      else match h !! b with
           | Some (Some blk) =>
               if o <? Z.of_nat (length blk)
               then Some (<[b := Some (<[Z.to_nat o := x]> blk)]> h)
               else None
           | _ => None
           end
  end.

(** Reading [*p]: [p] has to point at a constructed element of a live
    block. *)
Definition load (p : pointer) : M T :=
  λ s, match read_slot (mem s) p with
       | Some (Some v) => Ok v s
       | _ => Undefined
       end.

Definition store (p : pointer) (x : slot T) : M unit :=
  λ s, match write_slot (mem s) p x with
       | Some h => Ok tt (mk_state (self s) h)
       | None => Undefined
       end.

(** [std::move] of [*p] consumed by a constructor or an assignment: the value
    is taken and the source stays constructed, in its moved-from state. *)
Definition take_from (p : pointer) : M T :=
  v <- load p ;;
  store p (Some (moved_from v)) ;;
  ret v.

(** [allocate(sz)].  The new block is entirely uninitialised. *)
Definition allocate (sz : Z) : M pointer :=
  λ s, if (0 <=? sz) && (sz <=? max_size)
       then Ok (Ptr (length (mem s)) 0)
               (mk_state (self s) (mem s ++ [Some (replicate (Z.to_nat sz) None)]))
       else Throw.

(** [deallocate(p, sz)]: [p] has to be what [allocate(sz)] returned.  For
    a null pointer [std::allocator] ends in [operator delete(nullptr)],
    which does nothing. *)
Definition deallocate (p : pointer) (sz : Z) : M unit :=
  match p with
  | Null => ret tt
  | Ptr b o =>
      λ s, match mem s !! b with
           | Some (Some blk) =>
               if (o =? 0) && (Z.of_nat (length blk) =? sz)
               then Ok tt (mk_state (self s) (<[b := None]> (mem s)))
               else Undefined
           | _ => Undefined
           end
  end.

(** [deallocate(p, c)], the capacity given by the end pointer. *)
Definition deallocate_to (p c : pointer) : M unit :=
  deallocate p (wrap (ptr_diff c p)).

(** [construct(p, v)]: placement construction; what the slot held before is
    overwritten without being destroyed. *)
Definition construct (p : pointer) (v : T) : M unit := store p (Some v).

(** [*p = v]: assignment needs a constructed element on the left. *)
Definition assign (p : pointer) (v : T) : M unit :=
  load p ;; store p (Some v).

(** [destroy(p)]: ends the life of the element; nothing happens for a
    trivially destructible type. *)
Definition destroy (p : pointer) : M unit :=
  if value_has_trivial_destroy then ret tt
  else load p ;; store p None.

(** *** References and iterators *)

(** A [const_reference] argument: an element of some array in memory, or an
    object of the caller outside it. *)
Inductive reference : Type :=
  | ref_elem (p : pointer)
  | ref_value (x : T).

Definition read_ref (r : reference) : M T :=
  match r with
  | ref_elem p => load p
  | ref_value x => ret x
  end.

(** The iterator types the range templates are instantiated with: a
    position in a sequence outside the modelled memory (given by the
    elements from there to the end of that sequence), a plain pointer, and
    [std::move_iterator<pointer>]. *)
Inductive iterator : Type :=
  | iter_ext (xs : list T)
  | iter_ptr (p : pointer)
  | iter_move (p : pointer).

Definition iter_next (i : iterator) : iterator :=
  match i with
  | iter_ext xs => iter_ext (tail xs)
  | iter_ptr p => iter_ptr (ptr_add p 1)
  | iter_move p => iter_move (ptr_add p 1)
  end.

Definition iter_eqb (i j : iterator) : bool :=
  match i, j with
  | iter_ext xs, iter_ext ys => Nat.eqb (length xs) (length ys)
  | iter_ptr p, iter_ptr q => ptr_eqb p q
  | iter_move p, iter_move q => ptr_eqb p q
  | _, _ => false
  end.

(** [construct(p, *i)]: a copy, except through a move iterator. *)
Definition deref_copy (i : iterator) : M T :=
  match i with
  | iter_ext [] => undefined
  | iter_ext (x :: _) => ret x
  | iter_ptr p => load p
  | iter_move p => take_from p
  end.

(** [construct(p, std::move( *i))]. *)
Definition deref_move (i : iterator) : M T :=
  match i with
  | iter_ext [] => undefined
  | iter_ext (x :: _) => ret x
  | iter_ptr p => take_from p
  | iter_move p => take_from p
  end.

(** The number of increments that take [first] to [last]; a loop
    [while(first != last)] over a range that never reaches [last] runs off
    its array. *)
Definition range_length (first last : pointer) : M nat :=
  if ptr_eqb first last then ret 0%nat
  else match first, last with
       | Ptr b o, Ptr b' o' =>
           if Nat.eqb b b' && (o <? o') then ret (Z.to_nat (o' - o))
           else undefined
       | _, _ => undefined
       end.

Definition iter_distance (first last : iterator) : M nat :=
  match first, last with
  | iter_ext xs, iter_ext ys =>
      if (length ys <=? length xs)%nat then ret (length xs - length ys)%nat
      else undefined
  | iter_ptr p, iter_ptr q => range_length p q
  | iter_move p, iter_move q => range_length p q
  | _, _ => undefined
  end.

(** *** Range helpers *)

(** A loop [while(n != 0) { ...; ++first; --n; }] writing at [first] makes
    [n] rounds; it is cut after its first round past the end of the array
    [first] points into, which is undefined already.  ([n] can be as large
    as [size_modulus - 1].) *)
Definition room (h : heap T) (p : pointer) : Z :=
  match p with
  | Null => 0
  | Ptr b o =>
      match h !! b with
      | Some (Some blk) => Z.of_nat (length blk) - o
      | _ => 0
      end
  end.

Definition rounds (n : Z) (first : pointer) : M nat :=
  λ s, Ok (Z.to_nat (Z.min n (Z.max 0 (room (mem s) first) + 1))) s.

(** [destroy(first, last)] *)
Fixpoint destroy_loop (n : nat) (first : pointer) : M unit :=
  match n with
  | O => ret tt
  | S n => destroy first ;; destroy_loop n (ptr_add first 1)
  end.

Definition destroy_range (first last : pointer) : M pointer :=
  if negb value_has_trivial_destroy then
    n <- range_length first last ;;
    destroy_loop n first ;;
    ret last
  else ret last.

(** The loop of the exemplar fills:
    [construct(first, val); ++first;], or [*first = val; ++first;]. *)
Fixpoint fill_loop (write : pointer → T → M unit) (n : nat)
    (first : pointer) (val : reference) : M pointer :=
  match n with
  | O => ret first
  | S n =>
      v <- read_ref val ;;
      write first v ;;
      fill_loop write n (ptr_add first 1) val
  end.

(** [construct_range(first, last, val)] and [construct_n(first, n, val)] *)
Definition construct_range (first last : pointer) (val : reference)
  : M pointer :=
  n <- range_length first last ;;
  fill_loop construct n first val ;;
  ret last.

Definition construct_n (first : pointer) (n : Z) (val : reference)
  : M pointer :=
  k <- rounds n first ;;
  fill_loop construct k first val.

(** The loop shared by the unchecked range operations:
    [construct(first1, *first2); ++first1; ++first2;], or the same with
    [std::move], or with an assignment [*first1 = *first2]. *)
Fixpoint transfer_loop (write : pointer → T → M unit)
    (deref : iterator → M T) (n : nat)
    (first1 : pointer) (first2 : iterator) : M (pointer * iterator) :=
  match n with
  | O => ret (first1, first2)
  | S n =>
      v <- deref first2 ;;
      write first1 v ;;
      transfer_loop write deref n (ptr_add first1 1) (iter_next first2)
  end.

Definition copy_construct_from_range (first1 : pointer)
    (first2 last2 : iterator) : M pointer :=
  n <- iter_distance first2 last2 ;;
  r <- transfer_loop construct deref_copy n first1 first2 ;;
  ret r.1.

Definition move_construct_from_range (first1 : pointer)
    (first2 last2 : iterator) : M pointer :=
  n <- iter_distance first2 last2 ;;
  r <- transfer_loop construct deref_move n first1 first2 ;;
  ret r.1.

Definition copy_construct_range (first1 last1 : pointer) (first2 : iterator)
  : M iterator :=
  n <- range_length first1 last1 ;;
  r <- transfer_loop construct deref_copy n first1 first2 ;;
  ret r.2.

Definition move_construct_range (first1 last1 : pointer) (first2 : iterator)
  : M iterator :=
  n <- range_length first1 last1 ;;
  r <- transfer_loop construct deref_move n first1 first2 ;;
  ret r.2.

Definition copy_construct_range_n (dest : pointer) (src : iterator)
    (count : Z) : M (pointer * iterator) :=
  k <- rounds count dest ;;
  transfer_loop construct deref_copy k dest src.

Definition move_construct_range_n (dest : pointer) (src : iterator)
    (count : Z) : M (pointer * iterator) :=
  k <- rounds count dest ;;
  transfer_loop construct deref_move k dest src.

(** The loop of the checked range operations:
    [while(first1 != last1 && first2 != last2)].  The source can make at
    most [iter_distance first2 last2] steps, which bounds the loop.  (For
    a random access iterator the source moves [last1] instead of testing
    [first2]; the rounds are the same.) *)
Fixpoint checked_transfer_loop (write : pointer → T → M unit)
    (deref : iterator → M T) (fuel : nat)
    (first1 last1 : pointer) (first2 last2 : iterator)
  : M (pointer * iterator) :=
  match fuel with
  | O => ret (first1, first2)
  | S fuel =>
      if negb (ptr_eqb first1 last1) && negb (iter_eqb first2 last2) then
        v <- deref first2 ;;
        write first1 v ;;
        checked_transfer_loop write deref fuel (ptr_add first1 1) last1
          (iter_next first2) last2
      else ret (first1, first2)
  end.

Definition checked_copy_construct_range (first1 last1 : pointer)
    (first2 last2 : iterator) : M (pointer * iterator) :=
  n <- iter_distance first2 last2 ;;
  checked_transfer_loop construct deref_copy n first1 last1 first2 last2.

(** [assign_range(first, last, val)] and [assign_n(first, count, val)] *)
Definition assign_range (first last : pointer) (val : reference)
  : M pointer :=
  if value_has_trivial_destroy then
    construct_range first last val ;;
    ret last
  else
    n <- range_length first last ;;
    fill_loop assign n first val ;;
    ret last.

Definition assign_n (first : pointer) (count : Z) (val : reference)
  : M pointer :=
  if value_has_trivial_destroy then construct_n first count val
  else
    k <- rounds count first ;;
    fill_loop assign k first val.

Definition copy_assign_from_range (first1 : pointer)
    (first2 last2 : iterator) : M pointer :=
  if value_has_trivial_destroy then
    copy_construct_from_range first1 first2 last2
  else
    n <- iter_distance first2 last2 ;;
    r <- transfer_loop assign deref_copy n first1 first2 ;;
    ret r.1.

Definition move_assign_from_range (first1 : pointer)
    (first2 last2 : iterator) : M pointer :=
  if value_has_trivial_destroy then
    move_construct_from_range first1 first2 last2
  else
    n <- iter_distance first2 last2 ;;
    r <- transfer_loop assign deref_move n first1 first2 ;;
    ret r.1.

Definition copy_assign_range (first1 last1 : pointer) (first2 : iterator)
  : M iterator :=
  if value_has_trivial_destroy then
    copy_construct_range first1 last1 first2
  else
    n <- range_length first1 last1 ;;
    r <- transfer_loop assign deref_copy n first1 first2 ;;
    ret r.2.

(** [checked_copy_assign_range] *)
Definition checked_copy_assign_range (first1 last1 : pointer)
    (first2 last2 : iterator) : M (pointer * iterator) :=
  if value_has_trivial_destroy then
    checked_copy_construct_range first1 last1 first2 last2
  else
    n <- iter_distance first2 last2 ;;
    checked_transfer_loop assign deref_copy n first1 last1 first2 last2.

End ArrayContainerBase.

Arguments reference T : clear implicits.
Arguments iterator T : clear implicits.

(** ** vector_base *)

Section VectorBase.

Context {T : Type}.
Variable moved_from : T → T.
Variable value_has_trivial_destroy : bool.
Variable sizeof_T : positive.

Local Abbreviation state := (state T).
Local Abbreviation M := (M T).
Local Abbreviation allocate := (@allocate T sizeof_T).
Local Abbreviation deallocate := (@deallocate T).
Local Abbreviation destroy_range := (@destroy_range T value_has_trivial_destroy).
Local Abbreviation move_construct_from_range :=
  (@move_construct_from_range T moved_from).
Local Abbreviation take_from := (@take_from T moved_from).
Local Abbreviation deref_copy := (@deref_copy T moved_from).

(** *** Members helpers *)

Definition size : M Z :=
  v <- get_self ;; ret (wrap (ptr_diff (m_size v) (m_data v))).
Definition capacity : M Z :=
  v <- get_self ;; ret (wrap (ptr_diff (m_capacity v) (m_data v))).
Definition available : M Z :=
  v <- get_self ;; ret (wrap (ptr_diff (m_capacity v) (m_size v))).
Definition empty : M bool :=
  v <- get_self ;; ret (ptr_eqb (m_data v) (m_size v)).
Definition full : M bool :=
  v <- get_self ;; ret (ptr_eqb (m_size v) (m_capacity v)).

Definition ibegin : M pointer := v <- get_self ;; ret (m_data v).
Definition iend : M pointer := v <- get_self ;; ret (m_size v).
Definition ubegin : M pointer := iend.
Definition uend : M pointer := v <- get_self ;; ret (m_capacity v).

(** [size(newSize)] and [iend(newEnd)] *)
Definition set_size (newSize : Z) : M unit :=
  v <- get_self ;;
  set_self (mk_vector (m_data v) (ptr_add (m_data v) newSize) (m_capacity v)).
Definition set_iend (newSize : pointer) : M unit :=
  v <- get_self ;;
  set_self (mk_vector (m_data v) newSize (m_capacity v)).

(** The overloads of [reset] that are used below: [reset()],
    [reset(ds, cap)], [reset(d, s, c)] with an end pointer and
    [reset(d, s, c)] with a capacity. *)
Definition reset : M unit := set_self (mk_vector Null Null Null).
Definition reset_cap (ds : pointer) (cap : Z) : M unit :=
  set_self (mk_vector ds ds (ptr_add ds cap)).
Definition reset_ptr (d s c : pointer) : M unit :=
  set_self (mk_vector d s c).
Definition reset_size (d s : pointer) (c : Z) : M unit :=
  set_self (mk_vector d s (ptr_add d c)).

Definition many (sz : Z) : M bool :=
  n <- size ;; c <- capacity ;; ret (wrap (n + sz) >? c).
Definition few (sz : Z) : M bool :=
  n <- size ;; c <- capacity ;; ret (wrap (n + sz) <=? c).

(** *** Growth policy *)

(** [next_capacity(sz)]: [sz ? (sz * 2) : 2] *)
Definition next_capacity (sz : Z) : Z :=
  if sz =? 0 then 2 else wrap (sz * 2).

(** [next_capacity()] *)
Definition next_capacity_self : M Z :=
  c <- capacity ;; ret (next_capacity c).

(** [best_capacity(needed)]: [std::max(needed, next_capacity())] *)
Definition best_capacity (needed : Z) : M Z :=
  nc <- next_capacity_self ;; ret (Z.max needed nc).

(** *** Reallocation *)

Definition really_reallocate (oldCapacity newCapacity : Z) : M unit :=
  newData <- allocate newCapacity ;;
  d <- ibegin ;;
  newSize <-
    (if negb (is_null d) then
       b <- ibegin ;;
       e <- iend ;;
       newSize <- move_construct_from_range newData (iter_ptr b) (iter_ptr e) ;;
       destroy_range b e ;;
       deallocate d oldCapacity ;;
       ret newSize
     else ret newData) ;;
  reset_size newData newSize newCapacity.

(** [reallocate()] *)
Definition reallocate_next : M unit :=
  c <- capacity ;;
  nc <- next_capacity_self ;;
  really_reallocate c nc.

(** [reallocate(newCapacity)] *)
Definition reallocate (newCapacity : Z) : M unit :=
  oldCapacity <- capacity ;;
  if newCapacity >? oldCapacity then really_reallocate oldCapacity newCapacity
  else ret tt.

(** *** Unchecked moves *)

(** [src = dest - 1; construct(dest, std::move( *src)); dest = src;], or the
    same with a move assignment, as often as [dest] is away from
    [position]. *)
Fixpoint shift_1_loop (write : pointer → T → M unit) (n : nat)
    (dest : pointer) : M pointer :=
  match n with
  | O => ret dest
  | S n =>
      let src := ptr_add dest (-1) in
      v <- take_from src ;;
      write dest v ;;
      shift_1_loop write n src
  end.

(** [_ASSERTE] is compiled out of release builds; the assertions of the
    two functions below ([position != iend()], [sz > 0]) are not checked
    by the model either. *)
Definition move_forward_1 (position : pointer) : M unit :=
  dest <- iend ;;
  (if value_has_trivial_destroy then
     n <- range_length position dest ;;
     shift_1_loop construct n dest ;;
     ret tt
   else
     dest <- shift_1_loop construct 1 dest ;;
     n <- range_length position dest ;;
     shift_1_loop assign n dest ;;
     ret tt) ;;
  e <- iend ;;
  set_iend (ptr_add e 1).

(** [--src; --dest; construct(dest, std::move( *src));], or the same with a
    move assignment. *)
Fixpoint shift_n_loop (write : pointer → T → M unit) (n : nat)
    (src dest : pointer) : M (pointer * pointer) :=
  match n with
  | O => ret (src, dest)
  | S n =>
      let src := ptr_add src (-1) in
      let dest := ptr_add dest (-1) in
      v <- take_from src ;;
      write dest v ;;
      shift_n_loop write n src dest
  end.

Definition move_forward_n (position : pointer) (sz : Z) : M pointer :=
  last <- iend ;;
  let src := last in
  let dest := ptr_add src sz in
  set_iend dest ;;
  if value_has_trivial_destroy then
    n <- range_length position src ;;
    r <- shift_n_loop construct n src dest ;;
    ret r.2
  else if ptr_ltb (ptr_add position sz) last then
    (* do { ... } while(dest != last): [dest] comes down to [last] after
       [sz] rounds, and never if it starts there *)
    k <- range_length last dest ;;
    if Nat.eqb k 0 then undefined
    else
      r <- shift_n_loop construct k src dest ;;
      n <- range_length position r.1 ;;
      r <- shift_n_loop assign n r.1 r.2 ;;
      ret r.2
  else
    n <- range_length position src ;;
    shift_n_loop construct n src dest ;;
    ret last.

(** *** Checked moves *)

Definition make_gap_1 (position : pointer) : M pointer :=
  f <- full ;;
  if f then
    oldCapacity <- capacity ;;
    newCapacity <- next_capacity_self ;;
    newData <- allocate newCapacity ;;
    b <- ibegin ;;
    newPosition <-
      move_construct_from_range newData (iter_ptr b) (iter_ptr position) ;;
    e <- iend ;;
    newSize <-
      move_construct_from_range (ptr_add newPosition 1)
        (iter_ptr position) (iter_ptr e) ;;
    destroy_range b e ;;
    deallocate b oldCapacity ;;
    reset_size newData newSize newCapacity ;;
    ret newPosition
  else
    move_forward_1 position ;;
    ret position.

Definition make_gap_n (position : pointer) (sz : Z)
  : M (pointer * pointer) :=
  oldCapacity <- capacity ;;
  n <- size ;;
  if wrap (n + sz) >? oldCapacity then
    let newCapacity := next_capacity (wrap (n + sz)) in
    newData <- allocate newCapacity ;;
    b <- ibegin ;;
    newPosition <-
      move_construct_from_range newData (iter_ptr b) (iter_ptr position) ;;
    e <- iend ;;
    newSize <-
      move_construct_from_range (ptr_add newPosition sz)
        (iter_ptr position) (iter_ptr e) ;;
    destroy_range b e ;;
    deallocate b oldCapacity ;;
    reset_size newData newSize newCapacity ;;
    ret (newPosition, newPosition)
  else
    r <- move_forward_n position sz ;;
    ret (position, r).

(** *** InputIterator helper *)

(** [struct temp_array]: a temporary buffer of [insert_horrible]. *)
Record temp_array : Type := mk_temp_array {
  ta_begin : pointer;
  ta_end : pointer
}.

Record horrible_insert_helper : Type := mk_horrible {
  newData : pointer;
  newSize : pointer;
  newCapacity : pointer
}.

(** The local variables of [insert_horrible] that live across its loops. *)
Record horrible_state : Type := mk_hstate {
  currentSize : Z;
  currentCapacity : Z;
  currentIndex : Z;
  lastInserted : pointer;
  first : iterator T;
  finishedInserting : bool
}.

(** [do { nextCapacity = next_capacity(nextCapacity); }
     while(nextCapacity < currentSize);]
    Doubling modulo [size_modulus] runs into a cycle within
    [2 * size_bits] rounds; [None] is the loop that never ends. *)
Fixpoint grow_do_while (fuel : nat) (nextCapacity currentSize : Z)
  : option Z :=
  match fuel with
  | O => None
  | S fuel =>
      let nextCapacity := next_capacity nextCapacity in
      if nextCapacity <? currentSize
      then grow_do_while fuel nextCapacity currentSize
      else Some nextCapacity
  end.

(** [while(currentSize > currentCapacity)
      { currentCapacity = next_capacity(currentCapacity); }] *)
Fixpoint grow_while (fuel : nat) (currentCapacity currentSize : Z)
  : option Z :=
  match fuel with
  | O => None
  | S fuel =>
      if currentSize >? currentCapacity
      then grow_while fuel (next_capacity currentCapacity) currentSize
      else Some currentCapacity
  end.

Definition grow_fuel : nat := Z.to_nat (2 * size_bits + 1).

(** [while(pos != posLast && first != last)
      { construct(pos, *first); ++pos; ++first; }] *)
Definition fill_pass (posFirst posLast : pointer) (first last : iterator T)
  : M (pointer * iterator T) :=
  n <- iter_distance first last ;;
  checked_transfer_loop construct deref_copy n posFirst posLast first last.

(** One round of the inner [do ... while]: a new array of the next
    capacity, filled from [arrayMid] to its end and then, when the input
    goes on, from its beginning up to [arrayMid]. *)
Definition fill_array (hs : horrible_state) (last : iterator T)
  : M (temp_array * horrible_state) :=
  match grow_do_while grow_fuel (currentCapacity hs) (currentSize hs) with
  | None => undefined
  | Some cap =>
      arrayBegin <- allocate cap ;;
      let arrayEnd := ptr_add arrayBegin cap in
      let arrayMid := ptr_add arrayBegin (currentIndex hs) in
      r <- fill_pass arrayMid arrayEnd (first hs) last ;;
      let finished := iter_eqb r.2 last in
      let insertedCount := wrap (ptr_diff r.1 arrayMid) in
      let hs1 :=
        mk_hstate (wrap (currentSize hs + insertedCount)) cap
          (wrap (currentIndex hs + insertedCount)) r.1 r.2 finished in
      if negb finished then
        r <- fill_pass arrayBegin arrayMid (first hs1) last ;;
        let finished := iter_eqb r.2 last in
        let insertedCount := wrap (ptr_diff r.1 arrayBegin) in
        ret (mk_temp_array arrayBegin arrayEnd,
             mk_hstate (wrap (currentSize hs1 + insertedCount)) cap
               (wrap (currentIndex hs1 + insertedCount)) r.1 r.2 finished)
      else ret (mk_temp_array arrayBegin arrayEnd, hs1)
  end.

(** The two outer loops.  [blocks] are the [temp_array_block]s that are
    full (seven arrays each), [cur] holds the arrays of [currentBlock]
    up to its [lastArray].  Every round but the last consumes input, so
    the number of input elements bounds the number of rounds. *)
Fixpoint fill_arrays (fuel : nat) (blocks : list (list temp_array))
    (cur : list temp_array) (hs : horrible_state) (last : iterator T)
  : M (list (list temp_array) * list temp_array * horrible_state) :=
  match fuel with
  | O => undefined
  | S fuel =>
      r <- fill_array hs last ;;
      let cur := cur ++ [r.1] in
      if finishedInserting r.2 then ret (blocks, cur, r.2)
      else if Nat.eqb (length cur) 7
      then fill_arrays fuel (blocks ++ [cur]) [] r.2 last
      else fill_arrays fuel blocks cur r.2 last
  end.

(** The body of the loops that combine the arrays: the array is moved to
    [combinePosition] in index order, destroyed and freed. *)
Definition combine_array (a : temp_array) (c : Z * pointer)
  : M (Z * pointer) :=
  let combineIndex := c.1 in
  let arrayBegin := ta_begin a in
  let arrayEnd := ta_end a in
  let arrayMid := ptr_add arrayBegin combineIndex in
  let arrayCapacity := wrap (ptr_diff arrayEnd arrayBegin) in
  combinePosition <-
    move_construct_from_range c.2 (iter_ptr arrayMid) (iter_ptr arrayEnd) ;;
  combinePosition <-
    move_construct_from_range combinePosition
      (iter_ptr arrayBegin) (iter_ptr arrayMid) ;;
  destroy_range arrayBegin arrayEnd ;;
  deallocate arrayBegin arrayCapacity ;;
  ret (wrap (combineIndex + arrayCapacity), combinePosition).

Fixpoint combine_arrays (arrays : list temp_array) (c : Z * pointer)
  : M (Z * pointer) :=
  match arrays with
  | [] => ret c
  | a :: arrays => c <- combine_array a c ;; combine_arrays arrays c
  end.

Fixpoint combine_blocks (blocks : list (list temp_array)) (c : Z * pointer)
  : M (Z * pointer) :=
  match blocks with
  | [] => ret c
  | b :: blocks => c <- combine_arrays b c ;; combine_blocks blocks c
  end.

(** [currentBlock->lastArray] after [(currentBlock->lastArray)--] *)
Definition last_array (cur : list temp_array) : option temp_array :=
  list.last cur.

Definition insert_horrible (index oldSize oldCapacity : Z)
    (first last : iterator T) : M horrible_insert_helper :=
  n <- iter_distance first last ;;
  r <- fill_arrays (S n) [] []
         (mk_hstate oldSize oldCapacity index Null first false) last ;;
  let blocks := r.1.1 in
  let cur := r.1.2 in
  let hs := r.2 in
  let lastArrayBad := currentSize hs >? currentCapacity hs in
  match grow_while grow_fuel (currentCapacity hs) (currentSize hs),
        last_array cur with
  | Some cap, Some lastArray =>
      finalArray <-
        (if lastArrayBad then allocate cap else ret (ta_begin lastArray)) ;;
      let finalArrayEnd := ptr_add finalArray cap in
      c <- combine_blocks (blocks ++ [removelast cur])
             (index, ptr_add finalArray index) ;;
      let combineIndex := c.1 in
      combinePosition <-
        (if lastArrayBad then
           let arrayBegin := ta_begin lastArray in
           let arrayEnd := ta_end lastArray in
           let arrayMid := ptr_add arrayBegin combineIndex in
           let arrayCapacity := wrap (ptr_diff arrayEnd arrayBegin) in
           cp <-
             (if ptr_leb (lastInserted hs) arrayMid then
                cp <- move_construct_from_range c.2
                        (iter_ptr arrayMid) (iter_ptr arrayEnd) ;;
                cp <- move_construct_from_range cp
                        (iter_ptr arrayBegin) (iter_ptr (lastInserted hs)) ;;
                destroy_range arrayMid arrayEnd ;;
                destroy_range arrayBegin (lastInserted hs) ;;
                ret cp
              else
                cp <- move_construct_from_range c.2
                        (iter_ptr arrayMid) (iter_ptr (lastInserted hs)) ;;
                destroy_range arrayMid (lastInserted hs) ;;
                ret cp) ;;
           deallocate arrayBegin arrayCapacity ;;
           ret cp
         else ret (lastInserted hs)) ;;
      ret (mk_horrible finalArray combinePosition finalArrayEnd)
  | _, _ => undefined
  end.

End VectorBase.

(** ** vector *)

Section Vector.

Context {T : Type}.
Variable moved_from : T → T.
Variable value_has_trivial_destroy : bool.
(** [kane::use_simple_insert<T>::value] ([std::true_type] unless
    specialised) *)
Variable use_simple_insert : bool.
Variable sizeof_T : positive.

Local Abbreviation state := (state T).
Local Abbreviation M := (M T).
Local Abbreviation allocate := (@allocate T sizeof_T).
Local Abbreviation destroy := (@destroy T value_has_trivial_destroy).
Local Abbreviation destroy_range := (@destroy_range T value_has_trivial_destroy).
Local Abbreviation move_construct_from_range :=
  (@move_construct_from_range T moved_from).
Local Abbreviation copy_construct_from_range :=
  (@copy_construct_from_range T moved_from).
Local Abbreviation move_construct_range_n :=
  (@move_construct_range_n T moved_from).
Local Abbreviation copy_construct_range_n :=
  (@copy_construct_range_n T moved_from).
Local Abbreviation copy_construct_range := (@copy_construct_range T moved_from).
Local Abbreviation checked_copy_construct_range :=
  (@checked_copy_construct_range T moved_from).
Local Abbreviation copy_assign_range :=
  (@copy_assign_range T moved_from value_has_trivial_destroy).
Local Abbreviation copy_assign_from_range :=
  (@copy_assign_from_range T moved_from value_has_trivial_destroy).
Local Abbreviation move_assign_from_range :=
  (@move_assign_from_range T moved_from value_has_trivial_destroy).
Local Abbreviation assign_range := (@assign_range T value_has_trivial_destroy).
Local Abbreviation reallocate := (@reallocate T moved_from value_has_trivial_destroy sizeof_T).
Local Abbreviation reallocate_next :=
  (@reallocate_next T moved_from value_has_trivial_destroy sizeof_T).
Local Abbreviation move_forward_n :=
  (@move_forward_n T moved_from value_has_trivial_destroy).
Local Abbreviation make_gap_1 :=
  (@make_gap_1 T moved_from value_has_trivial_destroy sizeof_T).
Local Abbreviation make_gap_n :=
  (@make_gap_n T moved_from value_has_trivial_destroy sizeof_T).
Local Abbreviation insert_horrible :=
  (@insert_horrible T moved_from value_has_trivial_destroy sizeof_T).

(** The iterator category a range argument is dispatched on
    ([kane::iterator_category<InputIterator>]); pointers and move iterators
    take the forward overloads. *)
Inductive iterator_tag : Type :=
  | input_iterator_tag
  | forward_iterator_tag.

(** *** Capacity and size management *)

Definition reserve (neededSize : Z) : M unit := reallocate neededSize.

Definition shrink_to_fit : M unit :=
  v <- get_self ;;
  if ptr_eqb (m_size v) (m_data v) then
    if negb (is_null (m_data v)) then
      deallocate_to (m_data v) (m_capacity v) ;;
      reset
    else ret tt
  else if negb (ptr_eqb (m_size v) (m_capacity v)) then
    n <- size ;;
    newData <- allocate n ;;
    b <- ibegin ;;
    e <- iend ;;
    newSize <- move_construct_from_range newData (iter_ptr b) (iter_ptr e) ;;
    destroy_range b e ;;
    deallocate_to (m_data v) (m_capacity v) ;;
    reset_ptr newData newSize newSize
  else ret tt.

(** *** Erase helpers *)

Definition truncate_internal (last : pointer) : M pointer :=
  e <- iend ;;
  destroy_range last e ;;
  set_iend last ;;
  ret last.

Definition erase_internal (first last : pointer) : M pointer :=
  e <- iend ;;
  r <- move_assign_from_range first (iter_ptr last) (iter_ptr e) ;;
  truncate_internal r ;;
  ret first.

(** *** Insert operations *)

(** [++m_size] *)
Definition inc_size : M unit :=
  e <- iend ;; set_iend (ptr_add e 1).

Definition emplace_internal (position : pointer) (args : reference T)
  : M pointer :=
  f <- full ;;
  if use_simple_insert || negb f then
    temp <- read_ref args ;;
    newPosition <- make_gap_1 position ;;
    (if value_has_trivial_destroy || negb (ptr_eqb newPosition position)
     then construct newPosition temp
     else assign newPosition temp) ;;
    ret newPosition
  else
    newCapacity <- next_capacity_self ;;
    newData <- allocate newCapacity ;;
    b <- ibegin ;;
    let newPosition := ptr_add newData (ptr_diff position b) in
    v <- read_ref args ;;
    construct newPosition v ;;
    move_construct_from_range newData (iter_ptr b) (iter_ptr position) ;;
    e <- iend ;;
    newSize <-
      move_construct_from_range (ptr_add newPosition 1)
        (iter_ptr position) (iter_ptr e) ;;
    destroy_range b e ;;
    c <- uend ;;
    deallocate_to b c ;;
    reset_size newData newSize newCapacity ;;
    ret newPosition.

Definition emplace_back_internal (args : reference T) : M pointer :=
  f <- full ;;
  if negb f then
    position <- iend ;;
    v <- read_ref args ;;
    construct position v ;;
    inc_size ;;
    ret position
  else if use_simple_insert then
    temp <- read_ref args ;;
    reallocate_next ;;
    position <- iend ;;
    construct position temp ;;
    inc_size ;;
    ret position
  else
    newCapacity <- next_capacity_self ;;
    newData <- allocate newCapacity ;;
    n <- size ;;
    let newPosition := ptr_add newData n in
    v <- read_ref args ;;
    construct newPosition v ;;
    b <- ibegin ;;
    e <- iend ;;
    move_construct_from_range newData (iter_ptr b) (iter_ptr e) ;;
    destroy_range b e ;;
    c <- uend ;;
    deallocate_to b c ;;
    reset_size newData (ptr_add newPosition 1) newCapacity ;;
    ret newPosition.

(** The source calls [make_gap_n(position)], one argument short of the
    only declaration of [make_gap_n]; the count is the argument it lacks.
    The range returned as the initialised one is constructed into and the
    one returned as uninitialised is assigned to, as written. *)
Definition emplace_n_internal (position : pointer) (count : Z)
    (args : reference T) : M pointer :=
  fw <- few count ;;
  if use_simple_insert || fw then
    temp <- read_ref args ;;
    ranges <- make_gap_n position count ;;
    let newPosition := ptr_add ranges.1 count in
    (if value_has_trivial_destroy then
       construct_range ranges.1 newPosition (ref_value temp) ;;
       ret tt
     else
       construct_range ranges.1 ranges.2 (ref_value temp) ;;
       assign_range ranges.2 newPosition (ref_value temp) ;;
       ret tt) ;;
    ret ranges.1
  else
    n <- size ;;
    newCapacity <- best_capacity (wrap (n + count)) ;;
    newData <- allocate newCapacity ;;
    b <- ibegin ;;
    let newPosition := ptr_add newData (ptr_diff position b) in
    v <- read_ref args ;;
    construct newPosition v ;;
    last <-
      construct_n (ptr_add newPosition 1) (wrap (count - 1))
        (ref_elem newPosition) ;;
    move_construct_from_range newData (iter_ptr b) (iter_ptr position) ;;
    e <- iend ;;
    newSize <-
      move_construct_from_range last (iter_ptr position) (iter_ptr e) ;;
    destroy_range b e ;;
    c <- uend ;;
    deallocate_to b c ;;
    reset_size newData newSize newCapacity ;;
    ret newPosition.

Definition emplace_back_n_internal (count : Z) (args : reference T)
  : M pointer :=
  f <- full ;;
  if negb f then
    emplace_back_internal args ;;
    (* many(--count) *)
    let count := wrap (count - 1) in
    m <- many count ;;
    (if m then
       n <- size ;;
       c <- best_capacity (wrap (n + count)) ;;
       reallocate c
     else ret tt) ;;
    e <- iend ;;
    let position := ptr_add e (-1) in
    r <- construct_n e count (ref_elem position) ;;
    set_iend r ;;
    ret position
  else if use_simple_insert then
    temp <- read_ref args ;;
    n <- size ;;
    c <- best_capacity (wrap (n + count)) ;;
    reallocate c ;;
    position <- iend ;;
    r <- construct_n position count (ref_value temp) ;;
    set_iend r ;;
    ret position
  else
    n <- size ;;
    newCapacity <- best_capacity (wrap (n + count)) ;;
    newData <- allocate newCapacity ;;
    let newPosition := ptr_add newData n in
    v <- read_ref args ;;
    construct newPosition v ;;
    newSize <-
      construct_n (ptr_add newPosition 1) (wrap (count - 1))
        (ref_elem newPosition) ;;
    b <- ibegin ;;
    e <- iend ;;
    move_construct_from_range newData (iter_ptr b) (iter_ptr e) ;;
    destroy_range b e ;;
    c <- uend ;;
    deallocate_to b c ;;
    reset_size newData newSize newCapacity ;;
    ret newPosition.

(** *** Push and pop *)

Definition push_back (val : reference T) : M unit :=
  emplace_back_internal val ;; ret tt.

Definition pop_back : M unit :=
  em <- empty ;;
  if negb em then
    e <- iend ;;
    set_iend (ptr_add e (-1)) ;;
    e <- iend ;;
    destroy e
  else ret tt.

(** [xpush_back(val)] *)
Definition xpush_back (val : reference T) : M unit :=
  f <- full ;;
  (if f then reallocate_next else ret tt) ;;
  e <- iend ;;
  v <- read_ref val ;;
  construct e v ;;
  inc_size.

(** *** Insert *)

(** [insert(pos, val)] *)
Definition insert (pos : pointer) (val : reference T) : M pointer :=
  let position := pos in
  e <- iend ;;
  if ptr_eqb position e then emplace_back_internal val
  else emplace_internal position val.

(** [insert(pos, count, val)] *)
Definition insert_n (pos : pointer) (count : Z) (val : reference T)
  : M pointer :=
  let position := pos in
  e <- iend ;;
  if ptr_eqb position e then emplace_back_n_internal count val
  else emplace_n_internal position count val.

(** [xinsert(pos, val)]: the fast insert, which reads [val] after the gap
    has been made. *)
Definition xinsert (pos : pointer) (val : reference T) : M pointer :=
  let position := pos in
  e <- iend ;;
  if ptr_eqb position e then
    xpush_back val ;;
    e <- iend ;;
    ret (ptr_add e (-1))
  else
    newPosition <- make_gap_1 position ;;
    v <- read_ref val ;;
    (if value_has_trivial_destroy || negb (ptr_eqb newPosition position)
     then construct newPosition v
     else assign newPosition v) ;;
    ret newPosition.

(** *** Insert-at-end helpers *)

(** [append_range(first, last, std::input_iterator_tag)] *)
Definition append_range_input (first last : iterator T) : M pointer :=
  d <- ibegin ;;
  (if is_null d then
     p <- allocate 16 ;;
     reset_cap p 16
   else ret tt) ;;
  oldSize <- size ;;
  f <- full ;;
  first <-
    (if negb f then
       ub <- ubegin ;;
       ue <- uend ;;
       r <- checked_copy_construct_range ub ue first last ;;
       set_iend r.1 ;;
       ret r.2
     else ret first) ;;
  (if negb (iter_eqb first last) then
     oldCapacity <- capacity ;;
     horrible <- insert_horrible oldCapacity oldCapacity oldCapacity first last ;;
     b <- ibegin ;;
     move_construct_range_n (newData horrible) (iter_ptr b) oldCapacity ;;
     e <- iend ;;
     destroy_range b e ;;
     deallocate b oldCapacity ;;
     reset_ptr (newData horrible) (newSize horrible) (newCapacity horrible)
   else ret tt) ;;
  b <- ibegin ;;
  ret (ptr_add b oldSize).

(** [append_range(first, last, std::forward_iterator_tag)] *)
Definition append_range_forward (first last : iterator T) : M pointer :=
  d <- iter_distance first last ;;
  let count := wrap (Z.of_nat d) in
  n <- size ;;
  reserve (wrap (n + count)) ;;
  oldEnd <- iend ;;
  r <- copy_construct_range_n oldEnd first count ;;
  set_iend r.1 ;;
  ret oldEnd.

Definition append_range (tag : iterator_tag) (first last : iterator T)
  : M pointer :=
  match tag with
  | input_iterator_tag => append_range_input first last
  | forward_iterator_tag => append_range_forward first last
  end.

(** *** Insert dispatches *)

(** [insert_range(position, first, last, std::forward_iterator_tag)] *)
Definition insert_range_forward (position : pointer)
    (first last : iterator T) : M pointer :=
  d <- iter_distance first last ;;
  let count := wrap (Z.of_nat d) in
  m <- many count ;;
  if negb m then
    ufirst <- move_forward_n position count ;;
    (if value_has_trivial_destroy then
       copy_construct_range_n position first count ;;
       ret tt
     else
       let ulast := ptr_add position count in
       first <- copy_assign_range position ufirst first ;;
       copy_construct_range ufirst ulast first ;;
       ret tt) ;;
    ret ufirst
  else
    oldCapacity <- capacity ;;
    n <- size ;;
    newCapacity <- best_capacity (wrap (n + count)) ;;
    newData <- allocate newCapacity ;;
    b <- ibegin ;;
    newPosition <-
      move_construct_from_range newData (iter_ptr b) (iter_ptr position) ;;
    insertedEnd <- move_construct_from_range newPosition first last ;;
    e <- iend ;;
    newSize <-
      move_construct_from_range insertedEnd (iter_ptr position) (iter_ptr e) ;;
    destroy_range b e ;;
    deallocate b oldCapacity ;;
    reset_size newData newSize newCapacity ;;
    ret insertedEnd.

(** Modelled from the spec: [remainder()], which [insert_range] calls for
    the size of its temporary buffer, is declared nowhere in the sources.
    The buffer is the size of the smaller of the suffix and the available
    capacity, so [remainder()] is [available()]. *)
Definition remainder : M Z := available.

(** [insert_range(position, first, last, std::input_iterator_tag)].  The
    block under [if(!full())] either returns or leaves [oldRanges[1]],
    [oldRanges[2]] and the advanced [first]. *)
Definition insert_range_input (position : pointer) (first last : iterator T)
  : M pointer :=
  if iter_eqb first last then ret position
  else
    b <- ibegin ;;
    e <- iend ;;
    let oldRanges0 := (b, position) in
    let oldRanges3 := (position, e) in
    let suffixSize := wrap (ptr_diff e position) in
    remainderSize <- remainder ;;
    let suffixSmaller := suffixSize <? remainderSize in
    f <- full ;;
    r <-
      (if negb f then
         let tempLength := if suffixSmaller then suffixSize else remainderSize in
         tempData <- allocate tempLength ;;
         let tempCapacity := ptr_add tempData tempLength in
         r <- checked_copy_construct_range tempData tempCapacity first last ;;
         let tempSize := r.1 in
         let first := r.2 in
         if iter_eqb first last then
           insert_range_forward position (iter_move tempData)
             (iter_move tempSize) ;;
           destroy_range tempData tempSize ;;
           deallocate_to tempData tempCapacity ;;
           ret (inl position)
         else if suffixSmaller then
           ub <- ubegin ;;
           ue <- uend ;;
           r <- checked_copy_construct_range ub (ptr_add ue (- suffixSize))
                  first last ;;
           let fallbackEnd := r.1 in
           let first := r.2 in
           if iter_eqb first last then
             r <- move_construct_range_n fallbackEnd (iter_ptr position)
                    suffixSize ;;
             set_iend r.1 ;;
             move_construct_range_n position (iter_ptr tempData) suffixSize ;;
             destroy_range tempData tempSize ;;
             deallocate_to tempData tempCapacity ;;
             ret (inl position)
           else
             ub <- ubegin ;;
             ret (inr ((tempData, tempSize), (ub, fallbackEnd), first))
         else ret (inr ((tempData, tempSize), (Null, Null), first))
       else ret (inr ((Null, Null), (Null, Null), first))) ;;
    match r with
    | inl p => ret p
    | inr (oldRanges1, oldRanges2, first) =>
        b <- ibegin ;;
        let oldIndex := wrap (ptr_diff position b) in
        let newIndex :=
          wrap (ptr_diff oldRanges0.2 oldRanges0.1
                + ptr_diff oldRanges1.2 oldRanges1.1
                + ptr_diff oldRanges2.2 oldRanges2.1) in
        c <- capacity ;;
        horrible <-
          insert_horrible newIndex (wrap (newIndex + suffixSize)) c first last ;;
        recombinePosition <-
          move_construct_from_range (newData horrible)
            (iter_ptr oldRanges0.1) (iter_ptr oldRanges0.2) ;;
        recombinePosition <-
          move_construct_from_range recombinePosition
            (iter_ptr oldRanges1.1) (iter_ptr oldRanges1.2) ;;
        move_construct_from_range recombinePosition
          (iter_ptr oldRanges2.1) (iter_ptr oldRanges2.2) ;;
        newNewSize <-
          move_construct_from_range (newSize horrible)
            (iter_ptr oldRanges3.1) (iter_ptr oldRanges3.2) ;;
        destroy_range oldRanges0.1 oldRanges0.2 ;;
        destroy_range oldRanges1.1 oldRanges1.2 ;;
        destroy_range oldRanges2.1 oldRanges2.2 ;;
        destroy_range oldRanges3.1 oldRanges3.2 ;;
        deallocate_to oldRanges1.1 oldRanges1.2 ;;
        b <- ibegin ;;
        ue <- uend ;;
        deallocate_to b ue ;;
        reset_ptr (newData horrible) newNewSize (newCapacity horrible) ;;
        b <- ibegin ;;
        ret (ptr_add b oldIndex)
    end.

(** [insert_range(position, first, last)].  (The source forwards
    [first, last, tag()] and leaves out [position].) *)
Definition insert_range (tag : iterator_tag) (position : pointer)
    (first last : iterator T) : M pointer :=
  match tag with
  | input_iterator_tag => insert_range_input position first last
  | forward_iterator_tag => insert_range_forward position first last
  end.

(** [insert(pos, first, last)] *)
Definition insert_iter (tag : iterator_tag) (pos : pointer)
    (first last : iterator T) : M pointer :=
  let position := pos in
  e <- iend ;;
  if ptr_eqb position e then append_range tag first last
  else
    oldSize <- size ;;
    insertedEnd <- insert_range tag position first last ;;
    n <- size ;;
    let insertedCount := wrap (n - oldSize) in
    ret (ptr_add insertedEnd (- insertedCount)).

(** *** Erase and clear *)

(** [erase(pos)] *)
Definition erase_at (pos : pointer) : M pointer :=
  erase_internal pos (ptr_add pos 1).

(** [erase(first, last)] *)
Definition erase (first last : pointer) : M pointer :=
  if ptr_eqb first last then ret first
  else
    e <- iend ;;
    if ptr_eqb last e then truncate_internal first
    else erase_internal first last.

Definition clear : M unit :=
  b <- ibegin ;; truncate_internal b ;; ret tt.

(** *** Replace *)

(** [do_replace_range] passes the iterator [first2] where
    [construct_range] takes a [const_reference]: the call is well-typed
    only for an element type that converts implicitly from the iterator,
    and this is the conversion. *)
Variable iterator_as_value : iterator T → T.

(** [do_replace_range(first, last, first2, last2,
    std::forward_iterator_tag)] *)
Definition do_replace_range_forward (first last : pointer)
    (first2 last2 : iterator T) : M pointer :=
  d <- iter_distance first2 last2 ;;
  let count := wrap (Z.of_nat d) in
  let rangeSize := wrap (ptr_diff last first) in
  if count <=? rangeSize then
    mid <- copy_assign_from_range first first2 last2 ;;
    erase_internal mid last
  else
    let insertSize := wrap (count - rangeSize) in
    m <- many insertSize ;;
    if negb m then
      ufirst <- move_forward_n last insertSize ;;
      let ulast := ptr_add first count in
      first2 <- copy_assign_range first ufirst first2 ;;
      construct_range ufirst ulast (ref_value (iterator_as_value first2)) ;;
      ret ulast
    else
      oldCapacity <- capacity ;;
      n <- size ;;
      newCapacity <- best_capacity (wrap (n + insertSize)) ;;
      newData <- allocate newCapacity ;;
      b <- ibegin ;;
      insertFirst <-
        move_construct_from_range newData (iter_ptr b) (iter_ptr first) ;;
      insertLast <- copy_construct_from_range insertFirst first2 last2 ;;
      e <- iend ;;
      newSize <-
        move_construct_from_range insertLast (iter_ptr last) (iter_ptr e) ;;
      destroy_range b e ;;
      (* deallocate(m_size, oldCapacity) *)
      deallocate e oldCapacity ;;
      reset_size newData newSize newCapacity ;;
      ret insertLast.

(** [do_replace_range(first1, last1, first2, last2,
    std::input_iterator_tag)].  The source names [first] and [last] in
    the call of [erase] and of [insert]; its parameters are [first1] and
    [last1]. *)
Definition do_replace_range_input (first1 last1 : pointer)
    (first2 last2 : iterator T) : M pointer :=
  r <- @checked_copy_assign_range T moved_from value_has_trivial_destroy
         first1 last1 first2 last2 ;;
  let first1 := r.1 in
  let first2 := r.2 in
  if iter_eqb first2 last2 then erase first1 last1
  else
    oldSize <- size ;;
    tempResult <- insert_iter input_iterator_tag last1 first2 last2 ;;
    n <- size ;;
    ret (ptr_add tempResult (wrap (n - oldSize))).

(** [replace(first0, last0, first2, last2)].  Where the range to replace
    is empty the source returns [insertFirst - count] and [first], naming
    variables it does not declare; the number of inserted elements and
    [first1] stand for them. *)
Definition replace (tag : iterator_tag) (first0 last0 : pointer)
    (first2 last2 : iterator T) : M pointer :=
  let first1 := first0 in
  let last1 := last0 in
  if ptr_eqb first1 last1 then
    if negb (iter_eqb first2 last2) then
      oldSize <- size ;;
      insertFirst <- insert_range tag first1 first2 last2 ;;
      newSize <- size ;;
      ret (ptr_add insertFirst (- wrap (newSize - oldSize)))
    else ret first1
  else if iter_eqb first2 last2 then
    erase_internal first1 last1 ;;
    ret first0
  else
    match tag with
    | input_iterator_tag => do_replace_range_input first1 last1 first2 last2
    | forward_iterator_tag => do_replace_range_forward first1 last1 first2 last2
    end.

(** *** Constructors *)

(** [vector()] *)
Definition vector_default : M unit := reset.

(** [vector_base(sz)] *)
Definition vector_base_capacity (sz : Z) : M unit :=
  if sz >? 0 then
    p <- allocate sz ;;
    reset_cap p sz
  else reset.

(** [vector(initialSize, val)] *)
Definition vector_fill (initialSize : Z) (val : reference T) : M unit :=
  vector_base_capacity initialSize ;;
  if initialSize >? 0 then
    b <- ibegin ;;
    r <- construct_n b initialSize val ;;
    set_iend r
  else ret tt.

(** *** Relational operators *)

(** [operator==] and [operator<] of the element type *)
Variable value_eqb : T → T → bool.
Variable value_ltb : T → T → bool.

Definition vec_size (v : vector) : Z := wrap (ptr_diff (m_size v) (m_data v)).

(** [std::equal(first1, last1, first2)] *)
Fixpoint equal_loop (n : nat) (first1 first2 : pointer) : M bool :=
  match n with
  | O => ret true
  | S n =>
      a <- load first1 ;;
      b <- load first2 ;;
      if value_eqb a b
      then equal_loop n (ptr_add first1 1) (ptr_add first2 1)
      else ret false
  end.

Definition std_equal (first1 last1 first2 : pointer) : M bool :=
  n <- range_length first1 last1 ;;
  equal_loop n first1 first2.

(** [kane::unchecked_lexicographical_compare(first1, last1, first2)] *)
Fixpoint lexicographical_loop (n : nat) (first1 first2 : pointer) : M bool :=
  match n with
  | O => ret false
  | S n =>
      a <- load first1 ;;
      b <- load first2 ;;
      if value_ltb a b then ret true
      else if value_ltb b a then ret false
      else lexicographical_loop n (ptr_add first1 1) (ptr_add first2 1)
  end.

Definition unchecked_lexicographical_compare (first1 last1 first2 : pointer)
  : M bool :=
  n <- range_length first1 last1 ;;
  lexicographical_loop n first1 first2.

(** A const member function called on another vector: [rhs.f(...)]. *)
Definition on_object {A} (rhs : vector) (f : M A) : M A :=
  λ s, match f (mk_state rhs (mem s)) with
       | Ok a s' => Ok a (mk_state (self s) (mem s'))
       | Throw => Throw
       | Undefined => Undefined
       end.

Definition op_eq (rhs : vector) : M bool :=
  n <- size ;;
  if n =? vec_size rhs then
    b <- ibegin ;;
    e <- iend ;;
    std_equal b e (m_data rhs)
  else ret false.

Definition op_ne (rhs : vector) : M bool :=
  n <- size ;;
  if negb (n =? vec_size rhs) then ret true
  else
    b <- ibegin ;;
    e <- iend ;;
    r <- std_equal b e (m_data rhs) ;;
    ret (negb r).

Definition op_lt (rhs : vector) : M bool :=
  n <- size ;;
  if n <? vec_size rhs then ret true
  else if n =? vec_size rhs then
    b <- ibegin ;;
    e <- iend ;;
    unchecked_lexicographical_compare b e (m_data rhs)
  else ret false.

Definition op_le (rhs : vector) : M bool :=
  n <- size ;;
  if n <? vec_size rhs then ret true
  else if n =? vec_size rhs then
    b <- ibegin ;;
    r <- unchecked_lexicographical_compare (m_data rhs) (m_size rhs) b ;;
    ret (negb r)
  else ret false.

(** [return !(rhs <= *this);] *)
Definition op_gt (rhs : vector) : M bool :=
  this <- get_self ;;
  r <- on_object rhs (op_le this) ;;
  ret (negb r).

(** [return !(rhs < *this);] *)
Definition op_ge (rhs : vector) : M bool :=
  this <- get_self ;;
  r <- on_object rhs (op_lt this) ;;
  ret (negb r).

(** *** Element access *)

(** A reference bound to [*p]: [p] has to point at an element. *)
Definition deref (p : pointer) : M (reference T) :=
  load p ;; ret (ref_elem p).

(** [operator[](index)]: [return m_data[index];] *)
Definition op_index (index : Z) : M (reference T) :=
  d <- ibegin ;; deref (ptr_add d index).

(** [at(index)]; the exception is [std::out_of_range]. *)
Definition at_ (index : Z) : M (reference T) :=
  d <- ibegin ;;
  e <- iend ;;
  if negb (is_null d) && ptr_ltb (ptr_add d index) e
  then deref (ptr_add d index)
  else throw.

(** [front()] and [back()] *)
Definition front : M (reference T) := d <- ibegin ;; deref d.
Definition back : M (reference T) := e <- iend ;; deref (ptr_add e (-1)).

(** *** Take *)

(** [value_type()], a value-initialised element *)
Variable value_default : T.

(** [take_back()] *)
Definition take_back : M T :=
  em <- empty ;;
  if em then ret value_default
  else
    e <- iend ;;
    set_iend (ptr_add e (-1)) ;;
    e <- iend ;;
    result <- take_from moved_from e ;;
    destroy e ;;
    ret result.

(** [take(pos)] *)
Definition take_at (pos : pointer) : M T :=
  let position := pos in
  result <- take_from moved_from position ;;
  e <- iend ;;
  move_assign_from_range position (iter_ptr (ptr_add position 1))
    (iter_ptr e) ;;
  e <- iend ;;
  set_iend (ptr_add e (-1)) ;;
  e <- iend ;;
  destroy e ;;
  ret result.

(** *** Resize *)

(** [resize(newSize, val)] *)
Definition resize_fill (newSize : Z) (val : reference T) : M unit :=
  currentSize <- size ;;
  if newSize <? currentSize then
    b <- ibegin ;;
    truncate_internal (ptr_add b newSize) ;;
    ret tt
  else
    let elementsAdded := wrap (newSize - currentSize) in
    if negb (elementsAdded =? 0) then
      emplace_back_n_internal elementsAdded val ;;
      ret tt
    else ret tt.

(** *** Assign *)

(** [assign(newSize, val)]: the capacity is compared only for a type whose
    destruction is not trivial. *)
Definition assign_fill (newSize : Z) (val : reference T) : M unit :=
  if newSize =? 0 then clear
  else
    refill <- (if value_has_trivial_destroy then ret true
               else c <- capacity ;; ret (newSize >? c)) ;;
    if (refill : bool) then
      clear ;;
      reserve newSize ;;
      d <- ibegin ;;
      r <- construct_n d newSize val ;;
      set_iend r
    else
      d <- ibegin ;;
      let newEnd := ptr_add d newSize in
      e <- iend ;;
      let sizeContained := ptr_leb newEnd e in
      b <- ibegin ;;
      e1 <- iend ;;
      position <- assign_range b (if sizeContained then newEnd else e1) val ;;
      if sizeContained then
        truncate_internal position ;;
        ret tt
      else
        e2 <- iend ;;
        construct_range e2 newEnd val ;;
        set_iend newEnd.

(** *** Destructor and copy construction *)

(** [~vector()] *)
Definition destructor : M unit :=
  d <- ibegin ;;
  if negb (is_null d) then
    clear ;;
    d <- ibegin ;;
    c <- uend ;;
    deallocate_to d c ;;
    reset
  else ret tt.

(** [vector_base(const vector_base& other)], run on the object under
    construction; [other] is another vector in the same memory. *)
Definition vector_copy (other : vector) : M unit :=
  let otherSize := vec_size other in
  if negb (otherSize =? 0) then
    newData <- allocate otherSize ;;
    newSize <-
      copy_construct_from_range newData (iter_ptr (m_data other))
        (iter_ptr (m_size other)) ;;
    reset_ptr newData newSize newSize
  else reset.

End Vector.

(** ** Specification vocabulary *)

Section Specification.

Context {T : Type}.

Local Abbreviation state := (state T).
Local Abbreviation M := (M T).

Definition vec_capacity (v : vector) : Z :=
  wrap (ptr_diff (m_capacity v) (m_data v)).

(** The elements of [n] constructed slots from [p] on. *)
Fixpoint read_range (h : heap T) (p : pointer) (n : nat) : option (list T) :=
  match n with
  | O => Some []
  | S n =>
      match read_slot h p, read_range h (ptr_add p 1) n with
      | Some (Some v), Some l => Some (v :: l)
      | _, _ => None
      end
  end.

(** The element sequence of the vector: what [begin()] to [end()] runs
    over. *)
Definition elements (s : state) : option (list T) :=
  read_range (mem s) (m_data (self s)) (Z.to_nat (vec_size (self s))).

(** The vector owns block [b], whose slots are [blk]; its elements are
    [l], the first [length l] slots. *)
Definition owns (sizeof_T : positive) (s : state) (b : nat) (blk : block T)
    (l : list T) : Prop :=
  self s = mk_vector (Ptr b 0) (Ptr b (Z.of_nat (length l)))
                     (Ptr b (Z.of_nat (length blk)))
  ∧ mem s !! b = Some (Some blk)
  ∧ take (length l) blk = map Some l
  ∧ Z.of_nat (length blk) ≤ max_size sizeof_T.

(** [represents s l cap]: the state holds a well-formed vector with
    element sequence [l] and capacity [cap], either in the null state or
    owning a live block. *)
Definition represents (sizeof_T : positive) (s : state) (l : list T)
    (cap : Z) : Prop :=
  (self s = mk_vector Null Null Null ∧ l = [] ∧ cap = 0)
  ∨ ∃ b blk, owns sizeof_T s b blk l ∧ cap = Z.of_nat (length blk).

(** The state with the slots of block [b] replaced by [blk]. *)
Definition set_block (b : nat) (blk : block T) (s : state) : state :=
  mk_state (self s) (<[b := Some blk]> (mem s)).

(** The state after [deallocate] of block [b], and after [allocate(n)]. *)
Definition free_block (b : nat) (s : state) : state :=
  mk_state (self s) (<[b := None]> (mem s)).

Definition alloc_block (n : nat) (s : state) : state :=
  mk_state (self s) (mem s ++ [Some (replicate n None)]).

(** What [destroy(first, last)] leaves of the elements [vs]: they stay
    as they are when destruction is trivial. *)
Definition destroyed (trivial : bool) (vs : list T) : block T :=
  if trivial then map Some vs else replicate (length vs) None.

(** The state with the three cursors replaced. *)
Definition set_cursors (v : vector) (s : state) : state :=
  mk_state v (mem s).

(** A write by [construct] goes to any slot, one by assignment to a
    constructed element only. *)
Definition writable (write : pointer → T → M unit) (g : slot T) : Prop :=
  write = construct ∨ (write = assign ∧ is_Some g).

(** The element a reference argument stands for in state [s]. *)
Definition ref_reads (s : state) (r : reference T) (x : T) : Prop :=
  match r with
  | ref_elem p => read_slot (mem s) p = Some (Some x)
  | ref_value y => y = x
  end.

(** The block a reallocating [push_back] of [x] onto [l] ends with. *)
Definition grown_block (l : list T) (x : T) (newCapacity : Z) : block T :=
  map Some (l ++ [x]) ++ replicate (Z.to_nat newCapacity - S (length l)) None.

(** [begin() + i] *)
Definition at_index (s : state) (i : nat) : pointer :=
  ptr_add (m_data (self s)) (Z.of_nat i).

(** What a computation establishes from a state: [Q] of its result and
    final state; an allocation failure is let through when [E] holds;
    undefined behaviour is never let through. *)
Definition wp {A} (E : Prop) (m : M A) (s : state) (Q : A → state → Prop)
  : Prop :=
  match m s with
  | Ok a s' => Q a s'
  | Throw => E
  | Undefined => False
  end.

(** The array a state's vector lives in has been released in [s']. *)
Definition released (s s' : state) : Prop :=
  ∀ b o, m_data (self s) = Ptr b o → mem s' !! b = Some None.

(** Every array but the vector's own is as it was. *)
Definition others_kept (s s' : state) : Prop :=
  ∀ b', (b' < length (mem s))%nat →
        (∀ o, m_data (self s) ≠ Ptr b' o) →
        mem s' !! b' = mem s !! b'.

(** A reference that reads [x] whatever block [b] holds: it does not
    point into block [b]. *)
Definition reads_outside (b : nat) (s : state) (val : reference T) (x : T)
  : Prop :=
  ∀ blk, ref_reads (set_block b blk s) val x.

(** What a user of the vector observes of a well-formed state: the
    elements, [size()] and [capacity()]. *)
Definition vector_is (sizeof_T : positive) (s : state) (l : list T)
    (cap : Z) : Prop :=
  represents sizeof_T s l cap
  ∧ elements s = Some l
  ∧ size s = Ok (Z.of_nat (length l)) s
  ∧ capacity s = Ok cap s.

(** The vector still lives in the array it had, and no array has been
    allocated. *)
Definition in_place (s s' : state) : Prop :=
  m_data (self s') = m_data (self s)
  ∧ m_capacity (self s') = m_capacity (self s)
  ∧ length (mem s') = length (mem s).

(** The capacity [emplace_back_n_internal] ends with. *)
Definition grown_capacity (cap needed : Z) : Z :=
  if needed <=? cap then cap else Z.max needed (next_capacity cap).

End Specification.

End kane.

Import kane.

(** * Properties *)

(** ** Arithmetic of size_type *)

Lemma size_modulus_eq : size_modulus = 18446744073709551616.
Proof. reflexivity. Qed.

Lemma ptrdiff_max_eq : ptrdiff_max = 9223372036854775807.
Proof. reflexivity. Qed.

Lemma wrap_small z : 0 ≤ z < size_modulus → wrap z = z.
Proof. intros H. unfold wrap. apply Z.mod_small. exact H. Qed.

Lemma max_size_bound sz : 0 ≤ max_size sz ≤ ptrdiff_max.
Proof.
  unfold max_size. rewrite ptrdiff_max_eq. split.
  - apply Z.div_pos; lia.
  - apply Z.div_le_upper_bound; [lia|]. nia.
Qed.

Lemma max_size_lt_modulus sz : max_size sz < size_modulus.
Proof.
  pose proof (max_size_bound sz). rewrite ptrdiff_max_eq in H.
  rewrite size_modulus_eq. lia.
Qed.

(** ** Pointers *)

Lemma ptr_eqb_refl p : ptr_eqb p p = true.
Proof.
  destruct p as [|b o]; simpl; [done|].
  rewrite Nat.eqb_refl, Z.eqb_refl. done.
Qed.

Lemma ptr_eqb_eq p q : ptr_eqb p q = true ↔ p = q.
Proof.
  split; [|intros ->; apply ptr_eqb_refl].
  destruct p as [|b o], q as [|b' o']; simpl; try done.
  rewrite andb_true_iff, Nat.eqb_eq, Z.eqb_eq. intros [-> ->]. done.
Qed.

Lemma ptr_eqb_same b o o' : ptr_eqb (Ptr b o) (Ptr b o') = (o =? o').
Proof. simpl. rewrite Nat.eqb_refl. done. Qed.

Lemma ptr_eqb_other b b' o o' : b ≠ b' → ptr_eqb (Ptr b o) (Ptr b' o') = false.
Proof. intros H. simpl. apply Nat.eqb_neq in H. rewrite H. done. Qed.

Lemma ptr_ltb_same b o o' : ptr_ltb (Ptr b o) (Ptr b o') = (o <? o').
Proof. simpl. rewrite Nat.eqb_refl. done. Qed.

Section Lemmas.

Context {T : Type}.
Variable moved_from : T → T.
Variable value_has_trivial_destroy : bool.
Variable sizeof_T : positive.

Local Abbreviation state := (state T).
Local Abbreviation M := (M T).
Local Abbreviation take_from := (@take_from T moved_from).
Local Abbreviation deref_copy := (@deref_copy T moved_from).
Local Abbreviation deref_move := (@deref_move T moved_from).
Local Abbreviation destroy := (@destroy T value_has_trivial_destroy).
Local Abbreviation destroy_range := (@destroy_range T value_has_trivial_destroy).

Implicit Types (s : state) (blk L G R : block T) (b : nat) (o : Z)
  (v : T) (vs xs : list T) (p : pointer).

(** ** The monad *)

Lemma bind_ok {A B} (m : M A) (k : A → M B) s a s' :
  m s = Ok a s' → (x <- m ;; k x) s = k a s'.
Proof. intros H. unfold bind. rewrite H. done. Qed.

Lemma wp_ret {A} E (a : A) s (Q : A → state → Prop) :
  Q a s → wp E (ret a) s Q.
Proof. done. Qed.

Lemma wp_bind {A B} E (m : M A) (k : A → M B) s (Q : B → state → Prop) :
  wp E m s (λ a s', wp E (k a) s' Q) → wp E (x <- m ;; k x) s Q.
Proof. unfold wp, bind. destruct (m s); done. Qed.

Lemma wp_ok {A} E (m : M A) s a s' (Q : A → state → Prop) :
  m s = Ok a s' → Q a s' → wp E m s Q.
Proof. intros H HQ. unfold wp. rewrite H. done. Qed.

Lemma wp_mono {A} E (m : M A) s (Q Q' : A → state → Prop) :
  wp E m s Q → (∀ a s', Q a s' → Q' a s') → wp E m s Q'.
Proof. unfold wp. destruct (m s); auto. Qed.

Lemma wp_total {A} (m : M A) s (Q : A → state → Prop) :
  wp False m s Q ↔ ∃ a s', m s = Ok a s' ∧ Q a s'.
Proof.
  unfold wp. split.
  - destruct (m s) as [a s'| |]; try done. eauto.
  - intros (a & s' & -> & H). done.
Qed.

Lemma wp_partial {A} (m : M A) s a s' (Q : A → state → Prop) :
  wp True m s Q → m s = Ok a s' → Q a s'.
Proof. unfold wp. intros H Hm. rewrite Hm in H. done. Qed.

(** ** Blocks in memory *)

Lemma self_set_block b blk s : self (set_block b blk s) = self s.
Proof. done. Qed.

Lemma mem_set_block b blk s :
  mem (set_block b blk s) = <[b := Some blk]> (mem s).
Proof. done. Qed.

Lemma lookup_set_block_eq b blk (old : option (block T)) s :
  mem s !! b = Some old → mem (set_block b blk s) !! b = Some (Some blk).
Proof.
  intros H. cbn [set_block mem]. apply list_lookup_insert_eq.
  by eapply lookup_lt_Some.
Qed.

Lemma lookup_set_block_ne b b' blk s :
  b ≠ b' → mem (set_block b blk s) !! b' = mem s !! b'.
Proof. intros H. cbn [set_block mem]. by apply list_lookup_insert_ne. Qed.

Lemma set_block_set_block b blk blk' s :
  set_block b blk' (set_block b blk s) = set_block b blk' s.
Proof. unfold set_block. cbn [mem self]. by rewrite list_insert_insert_eq. Qed.

Lemma set_block_comm b b' blk blk' s :
  b ≠ b' →
  set_block b blk (set_block b' blk' s) = set_block b' blk' (set_block b blk s).
Proof.
  intros H. unfold set_block. cbn [mem self]. f_equal.
  by apply list_insert_insert_ne.
Qed.

Lemma set_block_id b blk s :
  mem s !! b = Some (Some blk) → set_block b blk s = s.
Proof.
  intros H. unfold set_block. rewrite list_insert_id by done. by destruct s.
Qed.

Lemma length_mem_set_block b blk s :
  length (mem (set_block b blk s)) = length (mem s).
Proof. cbn [set_block mem]. by rewrite length_insert. Qed.

(** ** Single slots *)

Lemma load_ok b o blk s n v :
  mem s !! b = Some (Some blk) → o = Z.of_nat n → blk !! n = Some (Some v) →
  load (Ptr b o) s = Ok v s.
Proof.
  intros Hb -> Hn. unfold load, read_slot.
  destruct (Z.ltb_spec (Z.of_nat n) 0); [lia|].
  rewrite Hb, Nat2Z.id, Hn. done.
Qed.

Lemma store_ok b o blk s n (x : slot T) :
  mem s !! b = Some (Some blk) → o = Z.of_nat n → (n < length blk)%nat →
  store (Ptr b o) x s = Ok tt (set_block b (<[n := x]> blk) s).
Proof.
  intros Hb -> Hn. unfold store, write_slot.
  destruct (Z.ltb_spec (Z.of_nat n) 0); [lia|].
  rewrite Hb. destruct (Z.ltb_spec (Z.of_nat n) (Z.of_nat (length blk))); [|lia].
  rewrite Nat2Z.id. done.
Qed.

(** The slot after [L] in [L ++ x :: R]. *)
Lemma load_mid b o L R v s :
  mem s !! b = Some (Some (L ++ Some v :: R)) → o = Z.of_nat (length L) →
  load (Ptr b o) s = Ok v s.
Proof.
  intros Hb Ho. eapply load_ok; [done..|].
  by rewrite list_lookup_middle.
Qed.

Lemma store_mid b o L R (x y : slot T) s :
  mem s !! b = Some (Some (L ++ x :: R)) → o = Z.of_nat (length L) →
  store (Ptr b o) y s = Ok tt (set_block b (L ++ y :: R) s).
Proof.
  intros Hb Ho. erewrite store_ok; [|done..|].
  - rewrite insert_app_r_alt by lia. by rewrite Nat.sub_diag.
  - rewrite length_app. simpl. lia.
Qed.

Lemma construct_mid b o L R (x : slot T) v s :
  mem s !! b = Some (Some (L ++ x :: R)) → o = Z.of_nat (length L) →
  construct (Ptr b o) v s = Ok tt (set_block b (L ++ Some v :: R) s).
Proof. apply store_mid. Qed.

Lemma assign_mid b o L R v0 v s :
  mem s !! b = Some (Some (L ++ Some v0 :: R)) → o = Z.of_nat (length L) →
  assign (Ptr b o) v s = Ok tt (set_block b (L ++ Some v :: R) s).
Proof.
  intros Hb Ho. unfold assign.
  erewrite bind_ok by (by eapply load_mid). by eapply store_mid.
Qed.

Lemma write_mid write b o L R (x : slot T) v s :
  writable write x →
  mem s !! b = Some (Some (L ++ x :: R)) → o = Z.of_nat (length L) →
  write (Ptr b o) v s = Ok tt (set_block b (L ++ Some v :: R) s).
Proof.
  intros [-> | [-> [v0 ->]]] Hb Ho.
  - by eapply construct_mid.
  - by eapply assign_mid.
Qed.

Lemma take_from_mid b o L R v s :
  mem s !! b = Some (Some (L ++ Some v :: R)) → o = Z.of_nat (length L) →
  take_from (Ptr b o) s = Ok v (set_block b (L ++ Some (moved_from v) :: R) s).
Proof.
  intros Hb Ho. unfold kane.take_from.
  erewrite bind_ok by (by eapply load_mid).
  erewrite bind_ok by (by eapply store_mid). done.
Qed.

(** ** Ranges *)

Lemma range_length_ok b o o' s :
  o ≤ o' → range_length (Ptr b o) (Ptr b o') s = Ok (Z.to_nat (o' - o)) s.
Proof.
  intros H. unfold range_length. rewrite ptr_eqb_same.
  destruct (Z.eqb_spec o o') as [->|Hne].
  - rewrite Z.sub_diag. done.
  - rewrite Nat.eqb_refl. destruct (Z.ltb_spec o o'); [done|lia].
Qed.

Lemma range_length_nat b o (n : nat) s :
  range_length (Ptr b o) (Ptr b (o + Z.of_nat n)) s = Ok n s.
Proof.
  rewrite range_length_ok by lia. do 2 f_equal. lia.
Qed.

Lemma range_length_refl p s : range_length p p s = Ok 0%nat s.
Proof. unfold range_length. by rewrite ptr_eqb_refl. Qed.

Lemma iter_distance_ext xs ys s :
  iter_distance (iter_ext (xs ++ ys)) (iter_ext ys) s = Ok (length xs) s.
Proof.
  unfold iter_distance. rewrite length_app.
  destruct (Nat.leb_spec (length ys) (length xs + length ys)); [|lia].
  unfold ret. do 2 f_equal. lia.
Qed.

Lemma iter_distance_ext_nil xs s :
  iter_distance (iter_ext xs) (iter_ext []) s = Ok (length xs) s.
Proof.
  pose proof (iter_distance_ext xs [] s) as H. by rewrite app_nil_r in H.
Qed.

Lemma iter_distance_ptr b o (n : nat) s :
  iter_distance (iter_ptr (Ptr b o)) (iter_ptr (Ptr b (o + Z.of_nat n))) s
  = Ok n s.
Proof. apply range_length_nat. Qed.

Lemma iter_distance_move b o (n : nat) s :
  iter_distance (iter_move (Ptr b o)) (iter_move (Ptr b (o + Z.of_nat n))) s
  = Ok n s.
Proof. apply range_length_nat. Qed.

Lemma Forall_writable_construct G : Forall (writable (@construct T)) G.
Proof. apply Forall_forall. intros g _. by left. Qed.

Lemma Forall_writable_assign (f : T → T) vs :
  Forall (writable (@assign T)) (map (Some ∘ f) vs).
Proof.
  induction vs as [|v vs IH]; constructor; [|done].
  right. split; [done|]. by eexists.
Qed.

Lemma Forall_writable_Some write vs :
  write = @construct T ∨ write = @assign T →
  Forall (writable write) (map Some vs).
Proof.
  intros [-> | ->]; [apply Forall_writable_construct|].
  apply (Forall_writable_assign id).
Qed.

(** Writing a sequence from outside the memory over the slots [G]. *)
Lemma transfer_loop_ext write deref xs rest b L G R o s :
  deref = deref_copy ∨ deref = deref_move →
  Forall (writable write) G →
  length G = length xs →
  mem s !! b = Some (Some (L ++ G ++ R)) →
  o = Z.of_nat (length L) →
  transfer_loop write deref (length xs) (Ptr b o) (iter_ext (xs ++ rest)) s
  = Ok (Ptr b (o + Z.of_nat (length xs)), iter_ext rest)
       (set_block b (L ++ map Some xs ++ R) s).
Proof.
  intros Hderef.
  revert L G o s. induction xs as [|x xs IH]; intros L G o s HG Hlen Hb Ho.
  - destruct G; [|done]. simpl. unfold ret.
    rewrite Z.add_0_r, set_block_id by done. done.
  - destruct G as [|g G]; [done|]. simpl in Hlen.
    apply Forall_cons_1 in HG as [Hg HG].
    cbn [transfer_loop length app]. cbn [app] in Hb.
    erewrite bind_ok; cycle 1.
    { destruct Hderef as [-> | ->]; reflexivity. }
    erewrite bind_ok by (by eapply write_mid).
    cbn [iter_next tail ptr_add].
    replace (o + Z.of_nat (S (length xs))) with (o + 1 + Z.of_nat (length xs))
      by lia.
    erewrite (IH (L ++ [Some x]) G); [| done | lia | |].
    + rewrite set_block_set_block, <- app_assoc. done.
    + erewrite lookup_set_block_eq by done. rewrite <- app_assoc. done.
    + rewrite length_app. simpl. lia.
Qed.

(** Moving the elements [vs] of one block over the slots [G] of another:
    the source elements are left moved-from. *)
Lemma transfer_loop_move write deref (mk : pointer → iterator T)
    vs bd L G R od bs L' R' os s :
  (∀ p, deref (mk p) = take_from p) →
  (∀ p, iter_next (mk p) = mk (ptr_add p 1)) →
  bd ≠ bs →
  Forall (writable write) G →
  length G = length vs →
  mem s !! bd = Some (Some (L ++ G ++ R)) →
  od = Z.of_nat (length L) →
  mem s !! bs = Some (Some (L' ++ map Some vs ++ R')) →
  os = Z.of_nat (length L') →
  transfer_loop write deref (length vs) (Ptr bd od) (mk (Ptr bs os)) s
  = Ok (Ptr bd (od + Z.of_nat (length vs)),
        mk (Ptr bs (os + Z.of_nat (length vs))))
       (set_block bd (L ++ map Some vs ++ R)
          (set_block bs (L' ++ map (Some ∘ moved_from) vs ++ R') s)).
Proof.
  intros Hderef Hnext Hne.
  revert L G od L' os s.
  induction vs as [|v vs IH]; intros L G od L' os s HG Hlen Hd Hod Hs Hos.
  - destruct G; [|done]. simpl. unfold ret.
    rewrite !Z.add_0_r, !set_block_id; [done..|].
    by rewrite set_block_id.
  - destruct G as [|g G]; [done|]. simpl in Hlen.
    apply Forall_cons_1 in HG as [Hg HG].
    cbn [transfer_loop length].
    rewrite Hderef. cbn [map app] in Hs, Hd.
    erewrite bind_ok by (by eapply take_from_mid).
    erewrite bind_ok; cycle 1.
    { eapply write_mid; [done| |done].
      rewrite lookup_set_block_ne by done. done. }
    rewrite Hnext. cbn [ptr_add].
    replace (od + Z.of_nat (S (length vs))) with (od + 1 + Z.of_nat (length vs))
      by lia.
    replace (os + Z.of_nat (S (length vs))) with (os + 1 + Z.of_nat (length vs))
      by lia.
    erewrite (IH (L ++ [Some v]) G _ (L' ++ [Some (moved_from v)]));
      [| done | lia | | | |].
    + rewrite (set_block_comm bs bd) by done.
      rewrite !set_block_set_block, <- !app_assoc. done.
    + erewrite lookup_set_block_eq; [by rewrite <- app_assoc|].
      rewrite lookup_set_block_ne by done. done.
    + rewrite length_app. simpl. lia.
    + rewrite lookup_set_block_ne by done.
      erewrite lookup_set_block_eq by done. rewrite <- app_assoc. done.
    + rewrite length_app. simpl. lia.
Qed.

(** ** Destruction, exemplar fills, checked transfers *)

Lemma map_Some_compose (f : T → T) vs :
  map (Some ∘ f) vs = map Some (map f vs).
Proof. by rewrite map_map. Qed.

Lemma destroy_loop_ok vs b L R o s :
  mem s !! b = Some (Some (L ++ map Some vs ++ R)) →
  o = Z.of_nat (length L) →
  destroy_loop value_has_trivial_destroy (length vs) (Ptr b o) s
  = Ok tt (if value_has_trivial_destroy then s
           else set_block b (L ++ replicate (length vs) None ++ R) s).
Proof.
  revert L o s. induction vs as [|v vs IH]; intros L o s Hb Ho.
  - simpl. unfold ret. destruct value_has_trivial_destroy; [done|].
    by rewrite set_block_id.
  - cbn [destroy_loop length]. cbn [map app] in Hb.
    unfold kane.destroy at 1.
    destruct value_has_trivial_destroy eqn:Htriv.
    + erewrite bind_ok by reflexivity.
      apply (IH (L ++ [Some v]) (o + 1) s).
      * by rewrite <- app_assoc.
      * rewrite length_app. simpl. lia.
    + erewrite bind_ok; cycle 1.
      { erewrite bind_ok by (by eapply load_mid). by eapply store_mid. }
      cbn [ptr_add].
      rewrite (IH (L ++ [None]) (o + 1)
                 (set_block b (L ++ None :: map Some vs ++ R) s)).
      * rewrite set_block_set_block, <- app_assoc. done.
      * erewrite lookup_set_block_eq by done. by rewrite <- app_assoc.
      * rewrite length_app. simpl. lia.
Qed.

Lemma destroy_range_ok vs b L R o s :
  mem s !! b = Some (Some (L ++ map Some vs ++ R)) →
  o = Z.of_nat (length L) →
  destroy_range (Ptr b o) (Ptr b (o + Z.of_nat (length vs))) s
  = Ok (Ptr b (o + Z.of_nat (length vs)))
       (if value_has_trivial_destroy then s
        else set_block b (L ++ replicate (length vs) None ++ R) s).
Proof.
  intros Hb Ho. unfold kane.destroy_range.
  destruct value_has_trivial_destroy eqn:Htriv; [done|]. cbn [negb].
  erewrite bind_ok by apply range_length_nat.
  erewrite bind_ok; cycle 1.
  { pose proof (destroy_loop_ok vs b L R o s Hb Ho) as H.
    rewrite ?Htriv in H. exact H. }
  done.
Qed.

Lemma destroy_mid b L R v o s :
  mem s !! b = Some (Some (L ++ Some v :: R)) →
  o = Z.of_nat (length L) →
  destroy (Ptr b o) s
  = Ok tt (set_block b (L ++ destroyed value_has_trivial_destroy [v] ++ R) s).
Proof.
  intros Hb Ho. unfold kane.destroy, destroyed.
  destruct value_has_trivial_destroy.
  - by rewrite set_block_id.
  - erewrite bind_ok by (by eapply load_mid). by eapply store_mid.
Qed.

Lemma destroy_range_empty p s : destroy_range p p s = Ok p s.
Proof.
  unfold kane.destroy_range. destruct value_has_trivial_destroy; [done|].
  cbn [negb]. erewrite bind_ok by apply range_length_refl. done.
Qed.

Lemma fill_loop_value write (n : nat) x b L G R o s :
  Forall (writable write) G →
  length G = n →
  mem s !! b = Some (Some (L ++ G ++ R)) →
  o = Z.of_nat (length L) →
  fill_loop write n (Ptr b o) (ref_value x) s
  = Ok (Ptr b (o + Z.of_nat n))
       (set_block b (L ++ replicate n (Some x) ++ R) s).
Proof.
  revert L G o s. induction n as [|n IH]; intros L G o s HG Hlen Hb Ho.
  - destruct G; [|done]. simpl. unfold ret.
    rewrite Z.add_0_r, set_block_id by done. done.
  - destruct G as [|g G]; [done|]. simpl in Hlen.
    apply Forall_cons_1 in HG as [Hg HG].
    cbn [fill_loop read_ref]. cbn [app] in Hb.
    erewrite bind_ok by reflexivity.
    erewrite bind_ok by (by eapply write_mid).
    cbn [ptr_add].
    replace (o + Z.of_nat (S n)) with (o + 1 + Z.of_nat n) by lia.
    erewrite (IH (L ++ [Some x]) G); [| done | lia | |].
    + rewrite set_block_set_block, <- app_assoc. done.
    + erewrite lookup_set_block_eq by done. by rewrite <- app_assoc.
    + rewrite length_app. simpl. lia.
Qed.

(** The checked transfer from a sequence outside the memory stops at the
    end of the destination or of the source, whichever comes first. *)
Lemma checked_transfer_loop_ext write deref xs b L G R o s :
  deref = deref_copy ∨ deref = deref_move →
  Forall (writable write) G →
  mem s !! b = Some (Some (L ++ G ++ R)) →
  o = Z.of_nat (length L) →
  let k := Nat.min (length G) (length xs) in
  checked_transfer_loop write deref (length xs) (Ptr b o)
    (Ptr b (o + Z.of_nat (length G))) (iter_ext xs) (iter_ext []) s
  = Ok (Ptr b (o + Z.of_nat k), iter_ext (drop k xs))
       (set_block b (L ++ map Some (take k xs) ++ drop k G ++ R) s).
Proof.
  intros Hderef.
  revert L G o s. induction xs as [|x xs IH]; intros L G o s HG Hb Ho k.
  - subst k. rewrite Nat.min_0_r. simpl. unfold ret.
    rewrite Z.add_0_r, drop_0, set_block_id by done. done.
  - cbn [checked_transfer_loop length].
    rewrite ptr_eqb_same.
    destruct G as [|g G].
    + subst k. simpl. rewrite Z.add_0_r, Z.eqb_refl. simpl. unfold ret.
      rewrite set_block_id by done. done.
    + apply Forall_cons_1 in HG as [Hg HG]. cbn [app] in Hb.
      destruct (Z.eqb_spec o (o + Z.of_nat (length (g :: G)))) as [Heq|_].
      { simpl in Heq. lia. }
      cbn [negb andb iter_eqb length Nat.eqb].
      erewrite bind_ok; cycle 1.
      { destruct Hderef as [-> | ->]; reflexivity. }
      erewrite bind_ok by (by eapply write_mid).
      cbn [iter_next tail ptr_add].
      replace (o + Z.of_nat (S (length G)))
        with (o + 1 + Z.of_nat (length G)) by lia.
      erewrite (IH (L ++ [Some x]) G); [| done | |].
      * subst k. cbn [length Nat.min take drop map app].
        rewrite set_block_set_block, <- app_assoc.
        replace (o + 1 + Z.of_nat (length G `min` length xs))
          with (o + Z.of_nat (S (length G `min` length xs))) by lia.
        done.
      * erewrite lookup_set_block_eq by done. by rewrite <- app_assoc.
      * rewrite length_app. simpl. lia.
Qed.

(** ** The range operations, with every offset named by an equation *)

Lemma move_construct_from_range_ok vs bd L G R od bs L' R' os oe s :
  bd ≠ bs →
  length G = length vs →
  mem s !! bd = Some (Some (L ++ G ++ R)) →
  od = Z.of_nat (length L) →
  mem s !! bs = Some (Some (L' ++ map Some vs ++ R')) →
  os = Z.of_nat (length L') →
  oe = os + Z.of_nat (length vs) →
  move_construct_from_range moved_from (Ptr bd od)
    (iter_ptr (Ptr bs os)) (iter_ptr (Ptr bs oe)) s
  = Ok (Ptr bd (od + Z.of_nat (length vs)))
       (set_block bd (L ++ map Some vs ++ R)
          (set_block bs (L' ++ map Some (map moved_from vs) ++ R') s)).
Proof.
  intros Hne Hlen Hd Hod Hs Hos ->. unfold move_construct_from_range.
  erewrite bind_ok by apply iter_distance_ptr.
  erewrite bind_ok; cycle 1.
  { eapply (transfer_loop_move construct deref_move iter_ptr);
      [done|done|done|apply Forall_writable_construct|done..]. }
  rewrite map_Some_compose. done.
Qed.

(** Nothing to move. *)
Lemma move_construct_from_range_nil first1 p s :
  move_construct_from_range moved_from first1 (iter_ptr p) (iter_ptr p) s
  = Ok first1 s.
Proof.
  unfold move_construct_from_range. cbn [iter_distance].
  erewrite bind_ok by apply range_length_refl. done.
Qed.

Lemma length_destroyed vs :
  length (destroyed value_has_trivial_destroy vs) = length vs.
Proof.
  unfold destroyed. destruct value_has_trivial_destroy.
  - by rewrite length_map.
  - by rewrite length_replicate.
Qed.

Lemma destroy_range_ok' vs b L R o oe s :
  mem s !! b = Some (Some (L ++ map Some vs ++ R)) →
  o = Z.of_nat (length L) →
  oe = o + Z.of_nat (length vs) →
  destroy_range (Ptr b o) (Ptr b oe) s
  = Ok (Ptr b oe)
       (set_block b (L ++ destroyed value_has_trivial_destroy vs ++ R) s).
Proof.
  intros Hb Ho ->. rewrite (destroy_range_ok vs b L R o s Hb Ho).
  unfold destroyed. destruct value_has_trivial_destroy; [|done].
  by rewrite set_block_id.
Qed.

End Lemmas.

(** Lengths of lists built from the usual pieces. *)
Ltac len :=
  repeat first
    [ rewrite length_app | rewrite length_map | rewrite length_replicate
    | rewrite length_take | rewrite length_drop | rewrite length_insert
    | rewrite length_cons | rewrite length_nil | rewrite length_destroyed ];
  cbn [length]; lia.

(** ** Proof steps for monadic code *)

(** One step of a computation whose first action is known to succeed:
    [tac] proves [m s = Ok a s']. *)
Ltac mstep tac := erewrite bind_ok; [|tac].

(** The same, leaving [m s = Ok a s'] as the first goal. *)
Ltac mnext := erewrite bind_ok; cycle 1.

(** The same when the first action only reads the cursors. *)
Ltac mpure := erewrite bind_ok by reflexivity; cbn beta.

Ltac wp_step tac :=
  apply wp_bind; eapply wp_ok; [tac|]; cbn beta.

Section MemoryLemmas.

Context {T : Type}.
Variable moved_from : T → T.
Variable value_has_trivial_destroy : bool.
Variable sizeof_T : positive.

Local Abbreviation state := (state T).
Local Abbreviation M := (M T).
Local Abbreviation allocate := (@allocate T sizeof_T).
Local Abbreviation max_size := (max_size sizeof_T).
Local Abbreviation owns := (@owns T sizeof_T).
Local Abbreviation represents := (@represents T sizeof_T).
Local Abbreviation destroy_range := (@destroy_range T value_has_trivial_destroy).
Local Abbreviation move_construct_from_range :=
  (@move_construct_from_range T moved_from).
Local Abbreviation really_reallocate :=
  (@really_reallocate T moved_from value_has_trivial_destroy sizeof_T).
Local Abbreviation reallocate :=
  (@reallocate T moved_from value_has_trivial_destroy sizeof_T).
Local Abbreviation reallocate_next :=
  (@reallocate_next T moved_from value_has_trivial_destroy sizeof_T).

Implicit Types (s : state) (blk L G R : block T) (b : nat) (o : Z)
  (v : T) (l vs xs : list T) (p : pointer).

(** ** Allocation *)

Lemma allocate_ok n s :
  0 ≤ n ≤ max_size →
  allocate n s = Ok (Ptr (length (mem s)) 0) (alloc_block (Z.to_nat n) s).
Proof.
  intros [H0 H1]. unfold kane.allocate.
  destruct (Z.leb_spec 0 n); [|lia]. destruct (Z.leb_spec n max_size); [|lia].
  done.
Qed.

Lemma wp_allocate E n s (Q : pointer → state → Prop) :
  E ∨ n ≤ max_size →
  0 ≤ n →
  (n ≤ max_size → Q (Ptr (length (mem s)) 0) (alloc_block (Z.to_nat n) s)) →
  wp E (allocate n) s Q.
Proof.
  intros HE H0 HQ. unfold wp, kane.allocate.
  destruct (Z.leb_spec 0 n); [|lia].
  destruct (Z.leb_spec n max_size) as [Hle|Hgt]; simpl.
  - by apply HQ.
  - destruct HE; [done|lia].
Qed.

Lemma lookup_alloc_block_new n s :
  mem (alloc_block n s) !! length (mem s) = Some (Some (replicate n None)).
Proof.
  cbn [alloc_block mem]. rewrite lookup_app_r by lia.
  by rewrite Nat.sub_diag.
Qed.

Lemma lookup_alloc_block_old n s b (x : option (block T)) :
  mem s !! b = Some x → mem (alloc_block n s) !! b = Some x.
Proof.
  intros H. cbn [alloc_block mem]. rewrite lookup_app_l; [done|].
  by eapply lookup_lt_Some.
Qed.

Lemma length_mem_alloc_block n s :
  length (mem (alloc_block n s)) = S (length (mem s)).
Proof. cbn [alloc_block mem]. rewrite length_app. simpl. lia. Qed.

Lemma deallocate_ok b blk sz s :
  mem s !! b = Some (Some blk) → sz = Z.of_nat (length blk) →
  deallocate (Ptr b 0) sz s = Ok tt (free_block b s).
Proof.
  intros Hb ->. unfold deallocate. rewrite Hb, !Z.eqb_refl. done.
Qed.

Lemma free_block_set_block b blk s :
  free_block b (set_block b blk s) = free_block b s.
Proof.
  unfold free_block, set_block. cbn [mem self].
  by rewrite list_insert_insert_eq.
Qed.

Lemma free_block_set_block_ne b b' blk s :
  b ≠ b' →
  free_block b (set_block b' blk s) = set_block b' blk (free_block b s).
Proof.
  intros H. unfold free_block, set_block. cbn [mem self]. f_equal.
  by apply list_insert_insert_ne.
Qed.

Lemma lookup_free_block_ne b b' s :
  b ≠ b' → mem (free_block b s) !! b' = mem s !! b'.
Proof. intros H. cbn [free_block mem]. by apply list_lookup_insert_ne. Qed.

Lemma length_mem_free_block b s :
  length (mem (free_block b s)) = length (mem s).
Proof. cbn [free_block mem]. by rewrite length_insert. Qed.

Lemma lookup_set_block_here b blk s :
  (b < length (mem s))%nat → mem (set_block b blk s) !! b = Some (Some blk).
Proof. intros H. cbn [set_block mem]. by apply list_lookup_insert_eq. Qed.

Lemma lookup_free_block_here b s :
  (b < length (mem s))%nat → mem (free_block b s) !! b = Some None.
Proof. intros H. cbn [free_block mem]. by apply list_lookup_insert_eq. Qed.

Lemma lookup_alloc_block_lt n s b :
  (b < length (mem s))%nat → mem (alloc_block n s) !! b = mem s !! b.
Proof. intros H. cbn [alloc_block mem]. by rewrite lookup_app_l. Qed.

Lemma lookup_alloc_block_here n s b :
  b = length (mem s) →
  mem (alloc_block n s) !! b = Some (Some (replicate n None)).
Proof. intros ->. apply lookup_alloc_block_new. Qed.

Lemma mem_set_cursors' c s : mem (set_cursors c s) = mem s.
Proof. done. Qed.

(** ** The cursors of a vector that owns a block *)

Lemma owns_length s b blk l :
  owns s b blk l → (length l ≤ length blk)%nat.
Proof.
  intros (_ & _ & Ht & _).
  apply (f_equal length) in Ht. rewrite length_take, length_map in Ht. lia.
Qed.

Lemma owns_split s b blk l :
  owns s b blk l → blk = map Some l ++ drop (length l) blk.
Proof.
  intros (_ & _ & Ht & _). rewrite <- Ht. by rewrite take_drop.
Qed.

Lemma owns_bounds s b blk l :
  owns s b blk l →
  0 ≤ Z.of_nat (length l) ≤ Z.of_nat (length blk)
  ∧ Z.of_nat (length blk) < size_modulus.
Proof.
  intros H. pose proof (owns_length _ _ _ _ H).
  destruct H as (_ & _ & _ & Hmax).
  pose proof (max_size_lt_modulus sizeof_T). lia.
Qed.


Lemma self_set_block' b blk s : self (set_block b blk s) = self s.
Proof. done. Qed.
Lemma self_alloc_block n s : self (alloc_block n s) = self s.
Proof. done. Qed.
Lemma self_free_block b s : self (free_block b s) = self s.
Proof. done. Qed.
Lemma self_set_cursors c s : self (set_cursors c s) = c.
Proof. done. Qed.
Lemma mem_set_cursors c s : mem (set_cursors c s) = mem s.
Proof. done. Qed.

Lemma replicate_split {A} (x : A) (n m : nat) :
  (n ≤ m)%nat → replicate m x = replicate n x ++ replicate (m - n) x.
Proof.
  intros H. rewrite <- replicate_add. f_equal. lia.
Qed.

Lemma replicate_split_mid {A} (x : A) (n m : nat) :
  (n < m)%nat → replicate m x = replicate n x ++ x :: replicate (m - S n) x.
Proof.
  intros H. change (x :: replicate (m - S n) x) with (replicate (S (m - S n)) x).
  rewrite <- replicate_add. f_equal. lia.
Qed.

End MemoryLemmas.

Ltac neq := first [done | congruence | lia].

(** The number of blocks of a state built from allocations, writes and
    deallocations. *)
Ltac heap_len :=
  repeat first
    [ rewrite mem_set_cursors' | rewrite length_mem_set_block
    | rewrite length_mem_free_block | rewrite length_mem_alloc_block ];
  first [done | lia].

(** Looks a block up in such a state. *)
Ltac lookup_simpl :=
  cbn [mem self];
  repeat first
    [ rewrite mem_set_cursors'
    | rewrite lookup_free_block_ne by neq
    | rewrite lookup_set_block_ne by neq
    | rewrite lookup_set_block_here by heap_len
    | rewrite lookup_free_block_here by heap_len
    | rewrite lookup_alloc_block_here by neq
    | rewrite lookup_alloc_block_lt by heap_len ].

Section BaseLemmas.

Context {T : Type}.
Variable moved_from : T → T.
Variable value_has_trivial_destroy : bool.
Variable sizeof_T : positive.

Local Abbreviation state := (state T).
Local Abbreviation M := (M T).
Local Abbreviation allocate := (@allocate T sizeof_T).
Local Abbreviation max_size := (max_size sizeof_T).
Local Abbreviation owns := (@owns T sizeof_T).
Local Abbreviation represents := (@represents T sizeof_T).
Local Abbreviation destroy_range := (@destroy_range T value_has_trivial_destroy).
Local Abbreviation move_construct_from_range :=
  (@move_construct_from_range T moved_from).
Local Abbreviation really_reallocate :=
  (@really_reallocate T moved_from value_has_trivial_destroy sizeof_T).
Local Abbreviation reallocate :=
  (@reallocate T moved_from value_has_trivial_destroy sizeof_T).
Local Abbreviation reallocate_next :=
  (@reallocate_next T moved_from value_has_trivial_destroy sizeof_T).

Implicit Types (s : state) (blk L G R : block T) (b : nat) (o : Z)
  (v : T) (l vs xs : list T) (p : pointer).

(** ** Reallocation *)

Lemma really_reallocate_spec E s b blk l newCapacity :
  owns s b blk l →
  Z.of_nat (length l) ≤ newCapacity →
  E ∨ newCapacity ≤ max_size →
  wp E (really_reallocate (Z.of_nat (length blk)) newCapacity) s
    (λ _ s',
       owns s' (length (mem s))
         (map Some l ++ replicate (Z.to_nat newCapacity - length l) None) l
       ∧ mem s' !! b = Some None
       ∧ (∀ b', b' ≠ b → (b' < length (mem s))%nat →
                mem s' !! b' = mem s !! b')).
Proof.
  intros Hown Hle HE.
  pose proof (owns_split _ _ _ _ _ Hown) as Hsplit.
  pose proof (owns_length _ _ _ _ _ Hown) as Hlen.
  destruct Hown as (Hself & Hb & Ht & Hmax).
  unfold kane.really_reallocate.
  apply wp_bind. apply wp_allocate; [done|lia|]. intros Hnew.
  set (nb := length (mem s)).
  assert (Hne : nb ≠ b).
  { apply lookup_lt_Some in Hb. subst nb. lia. }
  eapply wp_ok.
  { mpure. rewrite self_alloc_block, Hself. cbn [m_data is_null negb].
    mnext.
    { mpure. mpure. rewrite self_alloc_block, Hself. cbn [m_data m_size].
      mnext.
      { eapply (move_construct_from_range_ok moved_from l nb []
                  (replicate (length l) None)
                  (replicate (Z.to_nat newCapacity - length l) None)
                  _ b [] (drop (length l) blk)); [done|len| |done| |done|len].
        - subst nb. rewrite lookup_alloc_block_new. cbn [app].
          rewrite <- replicate_split by lia. done.
        - erewrite lookup_alloc_block_old by done. cbn [app].
          by rewrite <- Hsplit. }
      cbn [app].
      mnext.
      { eapply (destroy_range_ok' _ (map moved_from l) b []); [|done|len].
        rewrite lookup_set_block_ne by done.
        erewrite lookup_set_block_eq by (by eapply lookup_alloc_block_old).
        done. }
      mnext.
      { eapply (deallocate_ok b).
        - erewrite lookup_set_block_eq; [done|].
          rewrite lookup_set_block_ne by done.
          erewrite lookup_set_block_eq by (by eapply lookup_alloc_block_old).
          done.
        - len. }
      reflexivity. }
    reflexivity. }
  cbn beta.
  assert (Hbl : (b < nb)%nat) by (apply lookup_lt_Some in Hb; done).
  split; [|split].
  - unfold kane.owns. cbn [self ptr_add]. split_and!.
    + do 2 f_equal; len.
    + by lookup_simpl.
    + by rewrite take_app_length' by len.
    + len.
  - by lookup_simpl.
  - intros b' Hb' Hlt. by lookup_simpl.
Qed.

Lemma really_reallocate_null_spec E s oldCapacity newCapacity :
  self s = mk_vector Null Null Null →
  0 ≤ newCapacity →
  E ∨ newCapacity ≤ max_size →
  wp E (really_reallocate oldCapacity newCapacity) s
    (λ _ s',
       owns s' (length (mem s)) (replicate (Z.to_nat newCapacity) None) []
       ∧ (∀ b', (b' < length (mem s))%nat → mem s' !! b' = mem s !! b')).
Proof.
  intros Hself H0 HE. unfold kane.really_reallocate.
  apply wp_bind. apply wp_allocate; [done|lia|]. intros Hnew.
  eapply wp_ok.
  { mpure. rewrite self_alloc_block, Hself. cbn [m_data is_null negb].
    mpure. reflexivity. }
  cbn beta. split.
  - unfold kane.owns. cbn [self ptr_add]. split_and!.
    + do 2 f_equal. len.
    + by lookup_simpl.
    + done.
    + len.
  - intros b' Hb'. by lookup_simpl.
Qed.

(** ** Accessors *)

Lemma represents_bounds s l cap :
  represents s l cap →
  0 ≤ Z.of_nat (length l) ≤ cap ∧ cap ≤ max_size.
Proof.
  intros [(_ & -> & ->) | (b & blk & Hown & ->)].
  - pose proof (max_size_bound sizeof_T). simpl. lia.
  - pose proof (owns_length _ _ _ _ _ Hown). destruct Hown as (_ & _ & _ & ?).
    lia.
Qed.

Lemma represents_cursors s l cap :
  represents s l cap →
  ptr_diff (m_size (self s)) (m_data (self s)) = Z.of_nat (length l)
  ∧ ptr_diff (m_capacity (self s)) (m_data (self s)) = cap
  ∧ ptr_diff (m_capacity (self s)) (m_size (self s))
    = cap - Z.of_nat (length l)
  ∧ ptr_eqb (m_data (self s)) (m_size (self s)) = (Z.of_nat (length l) =? 0)
  ∧ ptr_eqb (m_size (self s)) (m_capacity (self s))
    = (Z.of_nat (length l) =? cap).
Proof.
  intros [(-> & -> & ->) | (b & blk & (-> & _) & ->)];
    unfold ptr_diff; cbn [m_data m_size m_capacity ptr_offset length].
  - done.
  - rewrite !ptr_eqb_same. split_and!; try lia; try done;
      try apply Z.eqb_sym.
Qed.

Lemma size_ok s l cap :
  represents s l cap → size s = Ok (Z.of_nat (length l)) s.
Proof.
  intros H. pose proof (represents_bounds _ _ _ H).
  pose proof (max_size_lt_modulus sizeof_T).
  destruct (represents_cursors _ _ _ H) as (Hs & _).
  unfold size, bind, get_self, ret. rewrite Hs, wrap_small by lia. done.
Qed.

Lemma capacity_ok s l cap :
  represents s l cap → capacity s = Ok cap s.
Proof.
  intros H. pose proof (represents_bounds _ _ _ H).
  pose proof (max_size_lt_modulus sizeof_T).
  destruct (represents_cursors _ _ _ H) as (_ & Hc & _).
  unfold capacity, bind, get_self, ret. rewrite Hc, wrap_small by lia. done.
Qed.

Lemma available_ok s l cap :
  represents s l cap → available s = Ok (cap - Z.of_nat (length l)) s.
Proof.
  intros H. pose proof (represents_bounds _ _ _ H).
  pose proof (max_size_lt_modulus sizeof_T).
  destruct (represents_cursors _ _ _ H) as (_ & _ & Ha & _).
  unfold available, bind, get_self, ret. rewrite Ha, wrap_small by lia. done.
Qed.

Lemma empty_ok s l cap :
  represents s l cap → empty s = Ok (Z.of_nat (length l) =? 0) s.
Proof.
  intros H. destruct (represents_cursors _ _ _ H) as (_ & _ & _ & He & _).
  unfold empty, bind, get_self, ret. by rewrite He.
Qed.

Lemma full_ok s l cap :
  represents s l cap → full s = Ok (Z.of_nat (length l) =? cap) s.
Proof.
  intros H. destruct (represents_cursors _ _ _ H) as (_ & _ & _ & _ & Hf).
  unfold full, bind, get_self, ret. by rewrite Hf.
Qed.

Lemma read_range_mid h b L l R o :
  h !! b = Some (Some (L ++ map Some l ++ R)) →
  o = Z.of_nat (length L) →
  read_range h (Ptr b o) (length l) = Some l.
Proof.
  revert L o. induction l as [|v l IH]; intros L o Hb ->; [done|].
  cbn [length read_range read_slot ptr_add].
  destruct (Z.ltb_spec (Z.of_nat (length L)) 0); [lia|].
  rewrite Hb, Nat2Z.id. cbn [map app]. rewrite list_lookup_middle by done.
  rewrite (IH (L ++ [Some v])); [done| |len].
  rewrite Hb, <- app_assoc. done.
Qed.

(** The abstract sequence is what [begin()] to [end()] runs over. *)
Lemma represents_elements s l cap : represents s l cap → elements s = Some l.
Proof.
  intros Hrep. pose proof (represents_bounds _ _ _ Hrep) as Hbounds.
  pose proof (max_size_lt_modulus sizeof_T) as Hmod.
  destruct Hrep as [(Hself & -> & ->) | (b & blk & Hown & ->)].
  - unfold elements. rewrite Hself. done.
  - pose proof (owns_split _ _ _ _ _ Hown) as Hsplit.
    destruct Hown as (Hself & Hb & _).
    unfold elements, vec_size, ptr_diff. rewrite Hself.
    cbn [m_data m_size ptr_offset]. rewrite Z.sub_0_r, wrap_small by lia.
    rewrite Nat2Z.id. eapply (read_range_mid _ b []); [|done].
    rewrite Hb, Hsplit at 1. done.
Qed.

Lemma owns_represents s b blk l :
  owns s b blk l → represents s l (Z.of_nat (length blk)).
Proof. intros H. right. eauto. Qed.

Lemma next_capacity_self_ok s l cap :
  represents s l cap → next_capacity_self s = Ok (next_capacity cap) s.
Proof.
  intros H. unfold next_capacity_self.
  erewrite bind_ok by (by eapply capacity_ok). done.
Qed.

Lemma many_ok s l cap sz :
  represents s l cap →
  many sz s = Ok (wrap (Z.of_nat (length l) + sz) >? cap) s.
Proof.
  intros H. unfold many.
  erewrite bind_ok by (by eapply size_ok).
  erewrite bind_ok by (by eapply capacity_ok). done.
Qed.

Lemma next_capacity_small c :
  0 ≤ c ≤ ptrdiff_max →
  next_capacity c = if c =? 0 then 2 else 2 * c.
Proof.
  intros H. unfold next_capacity. destruct (c =? 0); [done|].
  rewrite wrap_small; [lia|]. rewrite size_modulus_eq.
  rewrite ptrdiff_max_eq in H. lia.
Qed.

Lemma owns_split_room s b blk l :
  owns s b blk l → (length l < length blk)%nat →
  ∃ g R, blk = map Some l ++ g :: R.
Proof.
  intros Hown Hlt. pose proof (owns_split _ _ _ _ _ Hown) as Hsplit.
  destruct (drop (length l) blk) as [|g R] eqn:Hd.
  - apply (f_equal length) in Hd. rewrite length_drop in Hd. simpl in Hd. lia.
  - eauto.
Qed.

Lemma owns_full_split s b blk l :
  owns s b blk l → length l = length blk → blk = map Some l.
Proof.
  intros Hown Hlen. pose proof (owns_split _ _ _ _ _ Hown) as Hsplit.
  rewrite Hlen, drop_all, app_nil_r in Hsplit. done.
Qed.

(** ** References *)

Lemma read_ref_ok s (r : reference T) x :
  ref_reads s r x → read_ref r s = Ok x s.
Proof.
  destruct r as [p|y]; simpl.
  - intros H. unfold load. by rewrite H.
  - by intros ->.
Qed.

Lemma ref_reads_mem s s' (r : reference T) x :
  ref_reads s r x →
  (match r with
   | ref_elem p => read_slot (mem s') p = read_slot (mem s) p
   | ref_value _ => True
   end) →
  ref_reads s' r x.
Proof. destruct r; simpl; [|done]. by intros H ->. Qed.

Lemma read_slot_alloc_block n s p (x : slot T) :
  read_slot (mem s) p = Some x → read_slot (mem (alloc_block n s)) p = Some x.
Proof.
  destruct p as [|b o]; [done|]. unfold read_slot.
  destruct (o <? 0); [done|].
  destruct (mem s !! b) as [ob|] eqn:Hb; [|done].
  by erewrite lookup_alloc_block_old.
Qed.

Lemma ref_reads_alloc_block n s (r : reference T) x :
  ref_reads s r x → ref_reads (alloc_block n s) r x.
Proof.
  destruct r; simpl; [|done]. apply read_slot_alloc_block.
Qed.

Lemma ref_reads_set_cursors c s (r : reference T) x :
  ref_reads s r x → ref_reads (set_cursors c s) r x.
Proof. by destruct r. Qed.

Lemma deallocate_to_ok b blk c s :
  mem s !! b = Some (Some blk) → c = Z.of_nat (length blk) →
  Z.of_nat (length blk) < size_modulus →
  deallocate_to (Ptr b 0) (Ptr b c) s = Ok tt (free_block b s).
Proof.
  intros Hb -> Hlt. unfold deallocate_to, ptr_diff. cbn [ptr_offset].
  rewrite wrap_small by lia. eapply deallocate_ok; [done|lia].
Qed.

Lemma deallocate_to_null s : deallocate_to (T:=T) Null Null s = Ok tt s.
Proof. done. Qed.

(** ** Establishing ownership *)

Lemma owns_intro s b blk l R o1 o2 :
  self s = mk_vector (Ptr b 0) (Ptr b o1) (Ptr b o2) →
  o1 = Z.of_nat (length l) →
  o2 = Z.of_nat (length blk) →
  mem s !! b = Some (Some blk) →
  blk = map Some l ++ R →
  Z.of_nat (length blk) ≤ max_size →
  owns s b blk l.
Proof.
  intros Hself -> -> Hb Hblk Hmax. split_and!; [done..| |done].
  rewrite Hblk. by rewrite take_app_length' by len.
Qed.

Lemma inc_size_ok s :
  inc_size s
  = Ok tt (set_cursors (mk_vector (m_data (self s))
                          (ptr_add (m_size (self s)) 1)
                          (m_capacity (self s))) s).
Proof. done. Qed.

Lemma set_iend_ok p s :
  set_iend p s
  = Ok tt (set_cursors (mk_vector (m_data (self s)) p (m_capacity (self s))) s).
Proof. done. Qed.

Lemma reset_size_ok d p c s :
  reset_size d p c s = Ok tt (set_cursors (mk_vector d p (ptr_add d c)) s).
Proof. done. Qed.

Lemma reset_ptr_ok d p c s :
  reset_ptr d p c s = Ok tt (set_cursors (mk_vector d p c) s).
Proof. done. Qed.

Lemma reset_cap_ok d c s :
  reset_cap d c s = Ok tt (set_cursors (mk_vector d d (ptr_add d c)) s).
Proof. done. Qed.

Lemma reset_ok s :
  reset s = Ok tt (set_cursors (mk_vector Null Null Null) s).
Proof. done. Qed.

End BaseLemmas.

(** The cursors of a state built from allocations, writes, deallocations
    and cursor updates. *)
Ltac self_simpl :=
  repeat first
    [ rewrite self_set_cursors | rewrite self_set_block
    | rewrite self_alloc_block | rewrite self_free_block ];
  cbn [m_data m_size m_capacity ptr_add].

Section PushPop.

Context {T : Type}.
Variable moved_from : T → T.
Variable value_has_trivial_destroy : bool.
Variable use_simple_insert : bool.
Variable sizeof_T : positive.

Local Abbreviation state := (state T).
Local Abbreviation M := (M T).
Local Abbreviation allocate := (@allocate T sizeof_T).
Local Abbreviation max_size := (max_size sizeof_T).
Local Abbreviation owns := (@owns T sizeof_T).
Local Abbreviation represents := (@represents T sizeof_T).
Local Abbreviation emplace_back_internal :=
  (@emplace_back_internal T moved_from value_has_trivial_destroy
     use_simple_insert sizeof_T).
Local Abbreviation push_back :=
  (@push_back T moved_from value_has_trivial_destroy use_simple_insert sizeof_T).
Local Abbreviation pop_back := (@pop_back T value_has_trivial_destroy).
Local Abbreviation null_vector := (mk_vector Null Null Null).

Implicit Types (s : state) (blk L G R : block T) (b : nat) (o : Z)
  (v x : T) (l vs xs : list T) (p : pointer) (val : reference T).

(** ** push_back *)

(** Room left: the element is constructed at [iend()]. *)
Lemma emplace_back_internal_room E s b blk l val x :
  owns s b blk l →
  (length l < length blk)%nat →
  ref_reads s val x →
  wp E (emplace_back_internal val) s
    (λ r s', r = Ptr b (Z.of_nat (length l))
             ∧ owns s' b (<[length l := Some x]> blk) (l ++ [x])
             ∧ ∀ b', b' ≠ b → mem s' !! b' = mem s !! b').
Proof.
  intros Hown Hlt Hval.
  destruct (owns_split_room _ _ _ _ _ Hown Hlt) as (g & R & Hblk).
  pose proof (owns_represents _ _ _ _ _ Hown) as Hrep.
  destruct Hown as (Hself & Hb & Ht & Hmax).
  assert (Hbl : (b < length (mem s))%nat) by (by eapply lookup_lt_Some).
  eapply wp_ok.
  { unfold kane.emplace_back_internal.
    mstep ltac:(by eapply full_ok).
    destruct (Z.eqb_spec (Z.of_nat (length l)) (Z.of_nat (length blk)));
      [lia|]. cbn [negb].
    mpure. rewrite Hself. cbn [m_size].
    mstep ltac:(by apply read_ref_ok).
    mnext.
    { eapply (construct_mid b _ (map Some l) R g); [by rewrite <- Hblk|len]. }
    mstep ltac:(apply inc_size_ok). reflexivity. }
  cbn beta. self_simpl. rewrite Hself. self_simpl.
  assert (Hnew : <[length l := Some x]> blk = map Some (l ++ [x]) ++ R).
  { rewrite Hblk, insert_app_r_alt by len.
    rewrite length_map, Nat.sub_diag, map_app, <- app_assoc. done. }
  split; [done|]. split.
  - eapply (owns_intro _ _ _ _ _ R); [by self_simpl|len|len| |done|len].
    lookup_simpl. by rewrite Hnew, map_app, <- app_assoc.
  - intros b' Hb'. by lookup_simpl.
Qed.

Lemma length_grown_block l x newCapacity :
  Z.of_nat (length l) < newCapacity →
  Z.of_nat (length (grown_block l x newCapacity)) = newCapacity.
Proof. intros H. unfold grown_block. len. Qed.

(** The last two steps of every path: construct at [iend()], [++m_size]. *)
Lemma construct_at_end {A} (k : M A) s b blk l x :
  owns s b blk l →
  (length l < length blk)%nat →
  (construct (Ptr b (Z.of_nat (length l))) x ;; inc_size ;; k) s
  = k (set_cursors
         (mk_vector (Ptr b 0) (Ptr b (Z.of_nat (length l) + 1))
            (Ptr b (Z.of_nat (length blk))))
         (set_block b (<[length l := Some x]> blk) s)).
Proof.
  intros Hown Hlt.
  destruct (owns_split_room _ _ _ _ _ Hown Hlt) as (g & R & Hblk).
  destruct Hown as (Hself & Hb & Ht & Hmax). subst blk.
  mnext.
  { by eapply (construct_mid b _ (map Some l) R g); [|len]. }
  erewrite bind_ok by apply inc_size_ok. self_simpl. rewrite Hself. self_simpl.
  rewrite insert_app_r_alt by len.
  rewrite length_map, Nat.sub_diag. done.
Qed.

Lemma insert_at_end_replicate l x (n : nat) :
  (length l < n)%nat →
  <[length l := Some x]> (map Some l ++ replicate (n - length l) None)
  = map Some (l ++ [x]) ++ replicate (n - S (length l)) (None : slot T).
Proof.
  intros H. rewrite insert_app_r_alt by len.
  rewrite length_map, Nat.sub_diag.
  replace (n - length l)%nat with (S (n - S (length l))) by lia.
  cbn [replicate insert list_insert]. by rewrite map_app, <- app_assoc.
Qed.

(** Full, [use_simple_insert]: a temporary, [reallocate()], then the
    construction at the end. *)
Lemma emplace_back_internal_full_simple E s b blk l val x :
  use_simple_insert = true →
  owns s b blk l →
  length l = length blk →
  ref_reads s val x →
  E ∨ next_capacity (Z.of_nat (length blk)) ≤ max_size →
  wp E (emplace_back_internal val) s
    (λ r s',
       let newCapacity := next_capacity (Z.of_nat (length blk)) in
       r = Ptr (length (mem s)) (Z.of_nat (length l))
       ∧ owns s' (length (mem s)) (grown_block l x newCapacity) (l ++ [x])).
Proof.
  intros Hsimple Hown Hfull Hval HE.
  pose proof (owns_represents _ _ _ _ _ Hown) as Hrep.
  pose proof (represents_bounds _ _ _ _ Hrep) as Hbounds.
  pose proof (max_size_bound sizeof_T) as Hms.
  assert (Hnc : Z.of_nat (length l) < next_capacity (Z.of_nat (length blk))).
  { rewrite next_capacity_small by lia.
    destruct (Z.eqb_spec (Z.of_nat (length blk)) 0); lia. }
  unfold kane.emplace_back_internal.
  wp_step ltac:(by eapply full_ok).
  rewrite Hfull, Z.eqb_refl, Hsimple. cbn [negb].
  wp_step ltac:(by apply read_ref_ok).
  apply wp_bind. unfold kane.reallocate_next.
  wp_step ltac:(by eapply capacity_ok).
  wp_step ltac:(by eapply next_capacity_self_ok).
  eapply wp_mono.
  { eapply (really_reallocate_spec _ _ _ E); [done|lia|done]. }
  cbn beta. intros [] s1 (Hown1 & _ & _).
  set (nb := length (mem s)) in *.
  pose proof (owns_length _ _ _ _ _ Hown1) as Hlen1. rewrite length_app in Hlen1.
  assert (Hroom : (length l < Z.to_nat (next_capacity (Z.of_nat (length blk))))%nat)
    by lia.
  eapply wp_ok.
  { mpure. pose proof Hown1 as (Hself1 & _). rewrite Hself1. cbn [m_size].
    rewrite (construct_at_end _ _ _ _ _ _ Hown1) by len. reflexivity. }
  cbn beta zeta. split; [by rewrite Hfull|].
  destruct Hown1 as (Hself1 & Hb1 & _ & Hmax1).
  assert (Hnbl : (nb < length (mem s1))%nat) by (by eapply lookup_lt_Some).
  rewrite insert_at_end_replicate by lia. unfold grown_block.
  eapply (owns_intro _ _ _ _ _ (replicate _ None)).
  - by self_simpl.
  - len.
  - len.
  - by lookup_simpl.
  - done.
  - revert Hmax1. len.
Qed.

(** Full, not [use_simple_insert]: the element is constructed in its
    place in the new array before the old elements are moved there. *)
Lemma emplace_back_internal_full_complex E s b blk l val x :
  use_simple_insert = false →
  owns s b blk l →
  length l = length blk →
  ref_reads s val x →
  E ∨ next_capacity (Z.of_nat (length blk)) ≤ max_size →
  wp E (emplace_back_internal val) s
    (λ r s',
       let newCapacity := next_capacity (Z.of_nat (length blk)) in
       r = Ptr (length (mem s)) (Z.of_nat (length l))
       ∧ owns s' (length (mem s)) (grown_block l x newCapacity) (l ++ [x])).
Proof.
  intros Hsimple Hown Hfull Hval HE.
  pose proof (owns_represents _ _ _ _ _ Hown) as Hrep.
  pose proof (represents_bounds _ _ _ _ Hrep) as Hbounds.
  pose proof (max_size_bound sizeof_T) as Hms.
  pose proof (max_size_lt_modulus sizeof_T) as Hmod.
  pose proof (owns_full_split _ _ _ _ _ Hown Hfull) as Hblk.
  assert (Hnc : Z.of_nat (length l) < next_capacity (Z.of_nat (length blk))).
  { rewrite next_capacity_small by lia.
    destruct (Z.eqb_spec (Z.of_nat (length blk)) 0); lia. }
  set (newCapacity := next_capacity (Z.of_nat (length blk))) in *.
  unfold kane.emplace_back_internal.
  wp_step ltac:(by eapply full_ok).
  rewrite Hfull at 1. rewrite Z.eqb_refl, Hsimple. cbn [negb].
  wp_step ltac:(by eapply next_capacity_self_ok).
  apply wp_bind. apply wp_allocate; [done|lia|]. intros Hnew.
  set (nb := length (mem s)).
  pose proof Hown as (Hself & Hb & _ & _).
  assert (Hbl : (b < nb)%nat) by (by eapply lookup_lt_Some).
  eapply wp_ok.
  { mnext.
    { unfold size. mpure. rewrite self_alloc_block, Hself.
      unfold ptr_diff. cbn [m_size m_data ptr_offset].
      rewrite Z.sub_0_r, wrap_small by lia. reflexivity. }
    cbn [ptr_add]. mstep ltac:(by apply read_ref_ok, ref_reads_alloc_block).
    mnext.
    { eapply (construct_mid nb _ (replicate (length l) None)
                (replicate (Z.to_nat newCapacity - S (length l)) None) None);
        [|len].
      lookup_simpl. do 2 f_equal. apply replicate_split_mid. lia. }
    mpure. mpure. rewrite !self_set_block, self_alloc_block, Hself.
    cbn [m_data m_size].
    mnext.
    { eapply (move_construct_from_range_ok moved_from l nb []
                (replicate (length l) None) _ _ b [] []);
        [lia|len| |done| |done|len].
      - by lookup_simpl.
      - lookup_simpl. rewrite app_nil_r. cbn [app]. by rewrite <- Hblk. }
    cbn [app].
    mnext.
    { eapply (destroy_range_ok' _ (map moved_from l) b [] []); [|done|len].
      lookup_simpl. by rewrite app_nil_r. }
    mpure. self_simpl. rewrite Hself. cbn [m_capacity].
    mnext.
    { eapply (deallocate_to_ok b); [by lookup_simpl|len|len]. }
    mstep ltac:(apply reset_size_ok). reflexivity. }
  cbn beta zeta. split; [by rewrite Z.add_0_l|].
  unfold grown_block. rewrite map_app, <- app_assoc.
  eapply (owns_intro _ _ _ _ _ (replicate _ None)).
  - by self_simpl.
  - len.
  - len.
  - by lookup_simpl.
  - by rewrite map_app, <- app_assoc.
  - len.
Qed.

(** The null state: nothing to move, the first array has capacity 2. *)
Lemma emplace_back_internal_null E s val x :
  self s = null_vector →
  ref_reads s val x →
  E ∨ 2 ≤ max_size →
  wp E (emplace_back_internal val) s
    (λ r s', r = Ptr (length (mem s)) 0
             ∧ owns s' (length (mem s)) (grown_block [] x 2) [x]).
Proof.
  intros Hself Hval HE.
  assert (Hrep : represents s [] 0) by (by left).
  pose proof (max_size_bound sizeof_T) as Hms.
  unfold kane.emplace_back_internal.
  wp_step ltac:(by eapply full_ok). cbn [length Z.of_nat Z.eqb negb].
  destruct use_simple_insert.
  - wp_step ltac:(by apply read_ref_ok).
    apply wp_bind. unfold kane.reallocate_next.
    wp_step ltac:(by eapply capacity_ok).
    wp_step ltac:(by eapply next_capacity_self_ok).
    eapply wp_mono.
    { eapply really_reallocate_null_spec with (E := E); [done|done|done]. }
    cbn beta. intros [] s1 (Hown1 & _).
    change (Z.to_nat (next_capacity 0)) with 2%nat in Hown1.
    cbn [replicate] in Hown1.
    eapply wp_ok.
    { mpure. pose proof Hown1 as (Hself1 & _). rewrite Hself1. cbn [m_size].
      rewrite (construct_at_end _ _ _ _ _ _ Hown1) by (cbn [length]; lia).
      reflexivity. }
    cbn beta. split; [done|].
    destruct Hown1 as (Hself1 & Hb1 & _ & Hmax1).
    assert (Hnbl : (length (mem s) < length (mem s1))%nat)
      by (by eapply lookup_lt_Some).
    eapply (owns_intro _ _ _ _ _ [None]); [by self_simpl|done|done| |done|done].
    by lookup_simpl.
  - wp_step ltac:(by eapply next_capacity_self_ok).
    apply wp_bind. apply wp_allocate; [done|done|]. intros Hnew.
    eapply wp_ok.
    { mnext.
      { unfold size. mpure. rewrite self_alloc_block, Hself. reflexivity. }
      cbn [ptr_add]. mstep ltac:(by apply read_ref_ok, ref_reads_alloc_block).
      mnext.
      { eapply (construct_mid (length (mem s)) _ [] [None] None); [|done].
        by lookup_simpl. }
      mpure. mpure. rewrite !self_set_block, self_alloc_block, Hself.
      cbn [m_data m_size].
      mstep ltac:(apply move_construct_from_range_nil).
      mstep ltac:(apply destroy_range_empty).
      mpure. self_simpl. rewrite Hself. cbn [m_capacity].
      mstep ltac:(apply deallocate_to_null).
      mstep ltac:(apply reset_size_ok). reflexivity. }
    cbn beta. split; [done|].
    eapply (owns_intro _ _ _ _ _ [None]); [by self_simpl|done|done| |done|done].
    by lookup_simpl.
Qed.

(** [push_back], all cases: the element sequence gains [x] at its end;
    the capacity stays when there was room and becomes
    [next_capacity(capacity())] when there was none. *)
Lemma emplace_back_internal_spec E s l cap val x :
  represents s l cap →
  ref_reads s val x →
  E ∨ (Z.of_nat (length l) = cap → next_capacity cap ≤ max_size) →
  wp E (emplace_back_internal val) s
    (λ r s',
       represents s' (l ++ [x])
         (if Z.of_nat (length l) =? cap then next_capacity cap else cap)
       ∧ r = at_index s' (length l)).
Proof.
  intros Hrep Hval HE.
  pose proof (represents_bounds _ _ _ _ Hrep) as Hbounds.
  pose proof (max_size_bound sizeof_T) as Hms.
  destruct Hrep as [(Hself & -> & ->) | (b & blk & Hown & ->)].
  - eapply wp_mono.
    { eapply (emplace_back_internal_null E); [done|done|].
      destruct HE as [?|HE]; [by left|right; by apply HE]. }
    cbn beta. intros r s' (-> & Hown). split.
    + right. eexists _, _. split; [done|]. done.
    + destruct Hown as (Hs' & _). unfold at_index. by rewrite Hs'.
  - destruct (Z.eqb_spec (Z.of_nat (length l)) (Z.of_nat (length blk)))
      as [Hfull|Hroom].
    + assert (Hnc : Z.of_nat (length l) < next_capacity (Z.of_nat (length blk))).
      { rewrite next_capacity_small by lia.
        destruct (Z.eqb_spec (Z.of_nat (length blk)) 0); lia. }
      assert (HE' : E ∨ next_capacity (Z.of_nat (length blk)) ≤ max_size).
      { destruct HE as [?|HE]; [by left|right; by apply HE]. }
      assert (Hpost : ∀ r s',
        r = Ptr (length (mem s)) (Z.of_nat (length l))
        ∧ owns s' (length (mem s))
            (grown_block l x (next_capacity (Z.of_nat (length blk)))) (l ++ [x]) →
        represents s' (l ++ [x]) (next_capacity (Z.of_nat (length blk)))
        ∧ r = at_index s' (length l)).
      { intros r s' (-> & Hown'). split.
        - right. eexists _, _. split; [done|].
          by rewrite length_grown_block.
        - destruct Hown' as (Hs' & _). unfold at_index. rewrite Hs'.
          cbn [m_data ptr_add]. by rewrite Z.add_0_l. }
      assert (use_simple_insert = true ∨ use_simple_insert = false)
        as [Hsimple|Hsimple] by (destruct use_simple_insert; auto).
      * eapply wp_mono;
          [eapply (emplace_back_internal_full_simple E); [done|done|lia|done|done]
          |apply Hpost].
      * eapply wp_mono;
          [eapply (emplace_back_internal_full_complex E); [done|done|lia|done|done]
          |apply Hpost].
    + eapply wp_mono.
      { eapply (emplace_back_internal_room E); [done|lia|done]. }
      cbn beta. intros r s' (-> & Hown' & _). split.
      * right. eexists _, _. split; [done|]. len.
      * destruct Hown' as (Hs' & _). unfold at_index. rewrite Hs'.
        cbn [m_data ptr_add]. by rewrite Z.add_0_l.
Qed.

Lemma push_back_spec E s l cap val x :
  represents s l cap →
  ref_reads s val x →
  E ∨ (Z.of_nat (length l) = cap → next_capacity cap ≤ max_size) →
  wp E (push_back val) s
    (λ _ s',
       represents s' (l ++ [x])
         (if Z.of_nat (length l) =? cap then next_capacity cap else cap)).
Proof.
  intros Hrep Hval HE. unfold kane.push_back. apply wp_bind.
  eapply wp_mono; [by eapply emplace_back_internal_spec|].
  cbn beta. intros r s' (Hrep' & _). done.
Qed.

(** ** pop_back *)

Lemma pop_back_spec s l cap :
  represents s l cap →
  wp False pop_back s
    (λ _ s', represents s' (removelast l) cap ∧ (l = [] → s' = s)).
Proof.
  intros Hrep. unfold kane.pop_back.
  wp_step ltac:(by eapply empty_ok).
  destruct l as [|x0 l0 _] using rev_ind; [done|].
  rewrite removelast_last.
  destruct Hrep as [(_ & Hl & _) | (b & blk & Hown & ->)];
    [by destruct l0|].
  pose proof (owns_split _ _ _ _ _ Hown) as Hsplit.
  pose proof (owns_length _ _ _ _ _ Hown) as Hlen.
  destruct Hown as (Hself & Hb & Ht & Hmax).
  rewrite length_app in *. cbn [length] in *.
  assert (Hbl : (b < length (mem s))%nat) by (by eapply lookup_lt_Some).
  destruct (Z.eqb_spec (Z.of_nat (length l0 + 1)) 0) as [H0|Hn0]; [lia|].
  cbn [negb].
  eapply wp_ok.
  { mpure. rewrite Hself. cbn [m_size ptr_add].
    mstep ltac:(apply set_iend_ok). mpure. self_simpl. rewrite Hself.
    cbn [m_size].
    eapply destroy_mid with (L := map Some l0) (v := x0)
                            (R := drop (length l0 + 1) blk); [|len].
    rewrite mem_set_cursors, Hb. do 2 f_equal. rewrite Hsplit at 1.
    by rewrite map_app, <- app_assoc. }
  cbn beta. split; [|by destruct l0].
  right.
  exists b, (map Some l0 ++ destroyed value_has_trivial_destroy [x0]
                         ++ drop (length l0 + 1) blk).
  split; [|len].
  eapply (owns_intro _ _ _ _ _ (destroyed value_has_trivial_destroy [x0]
                                  ++ drop (length l0 + 1) blk)).
  - by self_simpl.
  - lia.
  - len.
  - by lookup_simpl.
  - done.
  - len.
Qed.

End PushPop.

Section Erase.

Context {T : Type}.
Variable moved_from : T → T.
Variable value_has_trivial_destroy : bool.
Variable sizeof_T : positive.

Local Abbreviation state := (state T).
Local Abbreviation M := (M T).
Local Abbreviation max_size := (max_size sizeof_T).
Local Abbreviation owns := (@owns T sizeof_T).
Local Abbreviation represents := (@represents T sizeof_T).
Local Abbreviation take_from := (@take_from T moved_from).
Local Abbreviation destroyed := (@destroyed T value_has_trivial_destroy).
Local Abbreviation move_assign_from_range :=
  (@move_assign_from_range T moved_from value_has_trivial_destroy).
Local Abbreviation truncate_internal :=
  (@truncate_internal T value_has_trivial_destroy).
Local Abbreviation erase_internal :=
  (@erase_internal T moved_from value_has_trivial_destroy).
Local Abbreviation erase := (@erase T moved_from value_has_trivial_destroy).

Implicit Types (s : state) (blk L D G R : block T) (b : nat) (o : Z)
  (v x : T) (l vs xs : list T) (p : pointer).

(** ** Moving a range down within its array *)

Lemma writable_Some write (g : slot T) x :
  writable write g → writable write (Some x).
Proof. intros [-> | [-> _]]; [by left|right]. split; [done|by eexists]. Qed.

(** The elements [vs] move down over the [length D] slots before them;
    what they leave behind is moved-from. *)
Lemma transfer_loop_down write deref (mk : pointer → iterator T)
    vs b L D R od os s :
  (∀ p, deref (mk p) = take_from p) →
  (∀ p, iter_next (mk p) = mk (ptr_add p 1)) →
  D ≠ [] →
  Forall (writable write) D →
  mem s !! b = Some (Some (L ++ D ++ map Some vs ++ R)) →
  od = Z.of_nat (length L) →
  os = Z.of_nat (length L + length D) →
  transfer_loop write deref (length vs) (Ptr b od) (mk (Ptr b os)) s
  = Ok (Ptr b (od + Z.of_nat (length vs)),
        mk (Ptr b (os + Z.of_nat (length vs))))
       (set_block b
          (L ++ map Some vs
             ++ drop (length vs) (D ++ map Some (map moved_from vs)) ++ R) s).
Proof.
  intros Hderef Hnext.
  revert L D od os s.
  induction vs as [|v vs IH]; intros L D od os s HD HW Hb Hod Hos.
  - cbn [transfer_loop length map app drop]. unfold ret.
    rewrite !Z.add_0_r, app_nil_r, set_block_id by done. done.
  - destruct D as [|d D]; [done|].
    apply Forall_cons_1 in HW as [Hd HW].
    cbn [transfer_loop length]. rewrite Hderef.
    cbn [map] in Hb. cbn [length] in Hos.
    erewrite bind_ok; cycle 1.
    { eapply (take_from_mid _ b os (L ++ d :: D) (map Some vs ++ R) v);
        [|len].
      rewrite Hb. by rewrite <- app_assoc. }
    erewrite bind_ok; cycle 1.
    { eapply (write_mid write b od L
                (D ++ Some (moved_from v) :: map Some vs ++ R) d);
        [done| |done].
      erewrite lookup_set_block_eq by done. by rewrite <- app_assoc. }
    rewrite Hnext. cbn [ptr_add].
    replace (od + Z.of_nat (S (length vs))) with (od + 1 + Z.of_nat (length vs))
      by lia.
    replace (os + Z.of_nat (S (length vs))) with (os + 1 + Z.of_nat (length vs))
      by lia.
    erewrite (IH (L ++ [Some v]) (D ++ [Some (moved_from v)])).
    + rewrite !set_block_set_block. do 2 f_equal.
      rewrite <- !app_assoc. done.
    + by destruct D.
    + apply Forall_app_2; [done|]. apply Forall_singleton.
      by eapply writable_Some.
    + erewrite lookup_set_block_eq by (by erewrite lookup_set_block_eq).
      rewrite <- !app_assoc. done.
    + len.
    + len.
Qed.

(** [move_assign_from_range] towards the front of the same array. *)
Lemma move_assign_from_range_down ds vs b L R od os oe s :
  ds ≠ [] →
  mem s !! b = Some (Some (L ++ map Some ds ++ map Some vs ++ R)) →
  od = Z.of_nat (length L) →
  os = Z.of_nat (length L + length ds) →
  oe = os + Z.of_nat (length vs) →
  move_assign_from_range (Ptr b od) (iter_ptr (Ptr b os)) (iter_ptr (Ptr b oe)) s
  = Ok (Ptr b (od + Z.of_nat (length vs)))
       (set_block b
          (L ++ map Some (vs ++ drop (length vs) (ds ++ map moved_from vs))
             ++ R) s).
Proof.
  intros Hds Hb Hod Hos ->.
  assert (Hloop : ∀ write,
    write = @construct T ∨ write = @assign T →
    (n <- iter_distance (iter_ptr (Ptr b os))
            (iter_ptr (Ptr b (os + Z.of_nat (length vs)))) ;;
     r <- transfer_loop write (deref_move moved_from) n (Ptr b od)
            (iter_ptr (Ptr b os)) ;;
     ret r.1) s
    = Ok (Ptr b (od + Z.of_nat (length vs)))
         (set_block b
            (L ++ map Some (vs ++ drop (length vs) (ds ++ map moved_from vs))
               ++ R) s)).
  { intros write Hwrite.
    erewrite bind_ok by apply iter_distance_ptr.
    erewrite bind_ok; cycle 1.
    { eapply (transfer_loop_down write _ iter_ptr vs b L (map Some ds) R);
        [done|done|by destruct ds|by apply Forall_writable_Some|done|done|len]. }
    cbn [fst]. unfold ret. do 2 f_equal.
    rewrite map_app, <- skipn_map, map_app, <- !app_assoc. done. }
  unfold kane.move_assign_from_range, kane.move_construct_from_range.
  destruct value_has_trivial_destroy; apply Hloop; auto.
Qed.

(** ** truncate_internal *)

Lemma truncate_internal_spec s b blk l1 l2 :
  owns s b blk (l1 ++ l2) →
  ∃ s', truncate_internal (Ptr b (Z.of_nat (length l1))) s
        = Ok (Ptr b (Z.of_nat (length l1))) s'
        ∧ owns s' b
            (map Some l1 ++ destroyed l2 ++ drop (length l1 + length l2) blk)
            l1
        ∧ length (mem s') = length (mem s)
        ∧ ∀ b', b' ≠ b → mem s' !! b' = mem s !! b'.
Proof.
  intros Hown.
  pose proof (owns_split _ _ _ _ _ Hown) as Hsplit.
  pose proof (owns_length _ _ _ _ _ Hown) as Hlen.
  destruct Hown as (Hself & Hb & Ht & Hmax).
  rewrite length_app in *.
  assert (Hbl : (b < length (mem s))%nat) by (by eapply lookup_lt_Some).
  eexists. split; [|split; [|split]].
  - unfold kane.truncate_internal.
    mpure. rewrite Hself. cbn [m_size].
    mnext.
    { eapply (destroy_range_ok' _ l2 b (map Some l1)
                (drop (length l1 + length l2) blk)); [|len|len].
      rewrite Hb. do 2 f_equal. rewrite Hsplit at 1.
      by rewrite map_app, <- app_assoc. }
    mstep ltac:(apply set_iend_ok). reflexivity.
  - eapply (owns_intro _ _ _ _ _ (destroyed l2
                                    ++ drop (length l1 + length l2) blk)).
    + self_simpl. rewrite Hself. done.
    + done.
    + len.
    + by lookup_simpl.
    + done.
    + len.
  - heap_len.
  - intros b' Hb'. by lookup_simpl.
Qed.

(** ** erase_internal and erase *)

(** [erase_internal(first, last)] on the vector [P ++ E ++ S], the range
    being [E], which is not empty: [S] moves down over [E] and what is
    left behind is destroyed. *)
Lemma erase_internal_owns s b blk P E S :
  owns s b blk (P ++ E ++ S) →
  E ≠ [] →
  ∃ s' blk',
    erase_internal (Ptr b (Z.of_nat (length P)))
      (Ptr b (Z.of_nat (length P + length E))) s
    = Ok (Ptr b (Z.of_nat (length P))) s'
    ∧ owns s' b blk' (P ++ S)
    ∧ length blk' = length blk
    ∧ length (mem s') = length (mem s)
    ∧ ∀ b', b' ≠ b → mem s' !! b' = mem s !! b'.
Proof.
  intros Hown HE.
  pose proof (owns_split _ _ _ _ _ Hown) as Hsplit.
  pose proof (owns_length _ _ _ _ _ Hown) as Hlen.
  rewrite !length_app in Hlen.
  pose proof Hown as (Hself & Hb & _ & Hmax).
  set (tail := drop (length S) (E ++ map moved_from S)).
  assert (Htail : length tail = length E) by (unfold tail; len).
  set (R := drop (length (P ++ E ++ S)) blk) in *.
  set (s1 := set_block b (map Some P ++ map Some (S ++ tail) ++ R) s).
  assert (Hown1 : owns s1 b (map Some P ++ map Some (S ++ tail) ++ R)
                    ((P ++ S) ++ tail)).
  { eapply (owns_intro _ _ _ _ _ R).
    - subst s1. self_simpl. exact Hself.
    - len.
    - rewrite Hsplit at 1. len.
    - subst s1. by eapply lookup_set_block_eq.
    - by rewrite !map_app, <- !app_assoc.
    - revert Hmax. rewrite Hsplit at 1. len. }
  destruct (truncate_internal_spec _ _ _ _ _ Hown1)
    as (s' & Hrun & Hown' & Hml & Hfr).
  eexists s', _.
  split_and!; [|exact Hown'| |rewrite Hml; subst s1; heap_len|].
  - unfold kane.erase_internal.
    mpure. rewrite Hself. cbn [m_size].
    mnext.
    { eapply (move_assign_from_range_down E S b (map Some P) R);
        [done| |len|len|len].
      rewrite Hb. do 2 f_equal. rewrite Hsplit at 1.
      by rewrite !map_app, <- !app_assoc. }
    fold tail. fold s1.
    replace (Z.of_nat (length P) + Z.of_nat (length S))
      with (Z.of_nat (length (P ++ S))) by len.
    erewrite bind_ok by exact Hrun. reflexivity.
  - rewrite Hsplit at 1. len.
  - intros b' Hb'. rewrite Hfr by done. subst s1. by lookup_simpl.
Qed.

(** [erase(first, last)] on the vector [P ++ E ++ S], the range being
    [E]: the elements become [P ++ S] in the same array. *)
Lemma erase_owns s b blk P E S :
  owns s b blk (P ++ E ++ S) →
  ∃ s' blk',
    erase (Ptr b (Z.of_nat (length P)))
          (Ptr b (Z.of_nat (length P + length E))) s
    = Ok (Ptr b (Z.of_nat (length P))) s'
    ∧ owns s' b blk' (P ++ S)
    ∧ length blk' = length blk
    ∧ length (mem s') = length (mem s)
    ∧ ∀ b', b' ≠ b → mem s' !! b' = mem s !! b'.
Proof.
  intros Hown.
  pose proof (owns_split _ _ _ _ _ Hown) as Hsplit.
  pose proof (owns_length _ _ _ _ _ Hown) as Hlen.
  rewrite !length_app in Hlen.
  unfold kane.erase. rewrite ptr_eqb_same.
  destruct E as [|e0 E'].
  { exists s, blk. cbn [length]. rewrite Nat.add_0_r, Z.eqb_refl.
    split_and!; done. }
  set (E := e0 :: E') in *.
  assert (HE : (0 < length E)%nat) by (cbn; lia).
  destruct (Z.eqb_spec (Z.of_nat (length P)) (Z.of_nat (length P + length E)))
    as [?|_]; [lia|].
  pose proof Hown as (Hself & Hb & _ & Hmax).
  destruct S as [|s0 S'].
  - rewrite app_nil_r in Hown, Hsplit.
    destruct (truncate_internal_spec _ _ _ _ _ Hown)
      as (s' & Hrun & Hown' & Hml & Hfr).
    exists s', (map Some P ++ destroyed E ++ drop (length P + length E) blk).
    split_and!; [|by rewrite app_nil_r| |done|done].
    + mpure. rewrite Hself. cbn [m_size].
      rewrite app_nil_r, length_app, ptr_eqb_same, Z.eqb_refl. done.
    + cbn [length] in Hlen. len.
  - set (S := s0 :: S') in *.
    assert (HS : (0 < length S)%nat) by (cbn; lia).
    destruct (erase_internal_owns _ _ _ _ _ _ Hown ltac:(done))
      as (s' & blk' & Hrun & Hrest).
    exists s', blk'. split; [|done].
    mpure. rewrite Hself. cbn [m_size]. rewrite !length_app, ptr_eqb_same.
    destruct (Z.eqb_spec (Z.of_nat (length P + length E))
                (Z.of_nat (length P + (length E + length S))))
      as [?|_]; [lia|].
    done.
Qed.

Lemma ptr_add_at_index s b blk l (i : nat) :
  owns s b blk l → at_index s i = Ptr b (Z.of_nat i).
Proof. intros (Hself & _). unfold at_index. by rewrite Hself. Qed.

(** The same for any well-formed vector. *)
Lemma erase_spec s P E S cap :
  represents s (P ++ E ++ S) cap →
  ∃ s', erase (at_index s (length P)) (at_index s (length P + length E)) s
        = Ok (at_index s (length P)) s'
        ∧ represents s' (P ++ S) cap
        ∧ m_data (self s') = m_data (self s)
        ∧ m_capacity (self s') = m_capacity (self s)
        ∧ length (mem s') = length (mem s).
Proof.
  intros [(Hself & Hl & ->) | (b & blk & Hown & ->)].
  - apply app_eq_nil in Hl as (-> & Hl). apply app_eq_nil in Hl as (-> & ->).
    exists s. unfold at_index. rewrite Hself. split_and!; [done| |done..].
    by left.
  - destruct (erase_owns _ _ _ _ _ _ Hown)
      as (s' & blk' & Hrun & Hown' & Hl & Hml & _).
    exists s'. rewrite !(ptr_add_at_index _ _ _ _ _ Hown).
    split_and!; [done| | | |done].
    + right. exists b, blk'. split; [done|]. by rewrite Hl.
    + destruct Hown as (-> & _), Hown' as (-> & _). done.
    + destruct Hown as (-> & _), Hown' as (-> & _). cbn. by rewrite Hl.
Qed.

End Erase.

Section Removal.

Context {T : Type}.
Variable moved_from : T → T.
Variable value_has_trivial_destroy : bool.
Variable sizeof_T : positive.
Variable value_default : T.

Local Abbreviation state := (state T).
Local Abbreviation M := (M T).
Local Abbreviation max_size := (max_size sizeof_T).
Local Abbreviation owns := (@owns T sizeof_T).
Local Abbreviation represents := (@represents T sizeof_T).
Local Abbreviation destroyed := (@destroyed T value_has_trivial_destroy).
Local Abbreviation truncate_internal :=
  (@truncate_internal T value_has_trivial_destroy).
Local Abbreviation clear := (@clear T value_has_trivial_destroy).
Local Abbreviation erase_at :=
  (@erase_at T moved_from value_has_trivial_destroy).
Local Abbreviation take_back :=
  (@take_back T moved_from value_has_trivial_destroy value_default).
Local Abbreviation take_at :=
  (@take_at T moved_from value_has_trivial_destroy).

Implicit Types (s : state) (blk L D G R : block T) (b : nat) (o : Z)
  (v x : T) (l vs xs P S : list T) (p : pointer).

Lemma owns_in_place s s' b blk blk' l l' :
  owns s b blk l → owns s' b blk' l' →
  length blk' = length blk →
  length (mem s') = length (mem s) →
  in_place s s'.
Proof.
  intros (Hs & _) (Hs' & _) Hl Hm. unfold in_place. rewrite Hs, Hs'.
  cbn [m_data m_capacity]. by rewrite Hl.
Qed.

(** ** pop_back, in place *)

Lemma pop_back_owns s b blk l x :
  owns s b blk (l ++ [x]) →
  ∃ s' blk',
    pop_back value_has_trivial_destroy s = Ok tt s'
    ∧ owns s' b blk' l
    ∧ length blk' = length blk
    ∧ length (mem s') = length (mem s)
    ∧ ∀ b', b' ≠ b → mem s' !! b' = mem s !! b'.
Proof.
  intros Hown.
  pose proof (owns_represents _ _ _ _ _ Hown) as Hrep.
  pose proof (owns_split _ _ _ _ _ Hown) as Hsplit.
  pose proof (owns_length _ _ _ _ _ Hown) as Hlen.
  destruct Hown as (Hself & Hb & Ht & Hmax).
  rewrite length_app in *. cbn [length] in *.
  assert (Hbl : (b < length (mem s))%nat) by (by eapply lookup_lt_Some).
  set (R := drop (length l + 1) blk) in *.
  assert (HR : length R = (length blk - (length l + 1))%nat)
    by (subst R; len).
  eexists _, (map Some l ++ destroyed [x] ++ R).
  split_and!.
  - unfold kane.pop_back.
    mstep ltac:(by eapply empty_ok).
    rewrite length_app. cbn [length].
    destruct (Z.eqb_spec (Z.of_nat (length l + 1)) 0) as [?|_]; [lia|].
    cbn [negb].
    mpure. rewrite Hself. cbn [m_size ptr_add].
    mstep ltac:(apply set_iend_ok). mpure. self_simpl. rewrite Hself.
    cbn [m_size].
    eapply (destroy_mid _ b (map Some l) R x); [|len].
    rewrite mem_set_cursors, Hb. do 2 f_equal. rewrite Hsplit at 1.
    by rewrite map_app, <- app_assoc.
  - eapply (owns_intro _ _ _ _ _ (destroyed [x] ++ R)).
    + by self_simpl.
    + lia.
    + len.
    + by lookup_simpl.
    + done.
    + len.
  - len.
  - heap_len.
  - intros b' Hb'. by lookup_simpl.
Qed.

(** ** clear *)

Lemma clear_owns s b blk l :
  owns s b blk l →
  ∃ s', clear s = Ok tt s'
        ∧ owns s' b (destroyed l ++ drop (length l) blk) []
        ∧ length (mem s') = length (mem s)
        ∧ ∀ b', b' ≠ b → mem s' !! b' = mem s !! b'.
Proof.
  intros Hown.
  destruct (truncate_internal_spec value_has_trivial_destroy sizeof_T
              s b blk [] l Hown) as (s' & Hrun & Hown' & Hml & Hfr).
  exists s'. split; [|done].
  unfold kane.clear. mpure. destruct Hown as (-> & _). cbn [m_data].
  erewrite bind_ok by exact Hrun. done.
Qed.

Lemma clear_null s :
  self s = mk_vector Null Null Null → clear s = Ok tt s.
Proof.
  intros Hself. unfold kane.clear, kane.truncate_internal.
  mpure. rewrite Hself. cbn [m_data].
  mnext.
  { mpure. rewrite Hself. cbn [m_size].
    mstep ltac:(apply destroy_range_empty).
    mstep ltac:(apply set_iend_ok). reflexivity. }
  unfold ret. f_equal. destruct s as [v h]. cbn in *. by subst.
Qed.

(** ** erase(pos) *)

Lemma erase_at_owns s b blk P x S :
  owns s b blk (P ++ x :: S) →
  ∃ s' blk',
    erase_at (Ptr b (Z.of_nat (length P))) s
    = Ok (Ptr b (Z.of_nat (length P))) s'
    ∧ owns s' b blk' (P ++ S)
    ∧ length blk' = length blk
    ∧ length (mem s') = length (mem s)
    ∧ ∀ b', b' ≠ b → mem s' !! b' = mem s !! b'.
Proof.
  intros Hown.
  destruct (erase_internal_owns moved_from value_has_trivial_destroy sizeof_T
              s b blk P [x] S Hown ltac:(done))
    as (s' & blk' & Hrun & Hrest).
  exists s', blk'. split; [|done].
  unfold kane.erase_at. cbn [ptr_add length] in *.
  replace (Z.of_nat (length P) + 1) with (Z.of_nat (length P + 1)) by lia.
  done.
Qed.

(** ** take_back *)

Lemma take_back_empty s l cap :
  represents s l cap → l = [] → take_back s = Ok value_default s.
Proof.
  intros Hrep ->. unfold kane.take_back.
  erewrite bind_ok by (by eapply empty_ok). done.
Qed.

Lemma take_back_owns s b blk l x :
  owns s b blk (l ++ [x]) →
  ∃ s' blk',
    take_back s = Ok x s'
    ∧ owns s' b blk' l
    ∧ length blk' = length blk
    ∧ length (mem s') = length (mem s)
    ∧ ∀ b', b' ≠ b → mem s' !! b' = mem s !! b'.
Proof.
  intros Hown.
  pose proof (owns_represents _ _ _ _ _ Hown) as Hrep.
  pose proof (owns_split _ _ _ _ _ Hown) as Hsplit.
  pose proof (owns_length _ _ _ _ _ Hown) as Hlen.
  destruct Hown as (Hself & Hb & Ht & Hmax).
  rewrite length_app in *. cbn [length] in *.
  assert (Hbl : (b < length (mem s))%nat) by (by eapply lookup_lt_Some).
  set (R := drop (length l + 1) blk) in *.
  assert (HR : length R = (length blk - (length l + 1))%nat)
    by (subst R; len).
  eexists _, (map Some l ++ destroyed [moved_from x] ++ R).
  split_and!.
  - unfold kane.take_back.
    mstep ltac:(by eapply empty_ok).
    rewrite length_app. cbn [length].
    destruct (Z.eqb_spec (Z.of_nat (length l + 1)) 0) as [?|_]; [lia|].
    mpure. rewrite Hself. cbn [m_size ptr_add].
    mstep ltac:(apply set_iend_ok). mpure. self_simpl. rewrite Hself.
    cbn [m_size].
    mnext.
    { eapply (take_from_mid _ b _ (map Some l) R x); [|len].
      rewrite mem_set_cursors, Hb. do 2 f_equal. rewrite Hsplit at 1.
      by rewrite map_app, <- app_assoc. }
    mnext.
    { eapply (destroy_mid _ b (map Some l) R (moved_from x)); [|len].
      by lookup_simpl. }
    rewrite set_block_set_block. reflexivity.
  - eapply (owns_intro _ _ _ _ _ (destroyed [moved_from x] ++ R)).
    + by self_simpl.
    + lia.
    + len.
    + by lookup_simpl.
    + done.
    + len.
  - len.
  - heap_len.
  - intros b' Hb'. by lookup_simpl.
Qed.

(** ** take(pos) *)

Lemma take_at_owns s b blk P x S :
  owns s b blk (P ++ x :: S) →
  ∃ s' blk',
    take_at (Ptr b (Z.of_nat (length P))) s = Ok x s'
    ∧ owns s' b blk' (P ++ S)
    ∧ length blk' = length blk
    ∧ length (mem s') = length (mem s)
    ∧ ∀ b', b' ≠ b → mem s' !! b' = mem s !! b'.
Proof.
  intros Hown.
  pose proof (owns_split _ _ _ _ _ Hown) as Hsplit.
  pose proof (owns_length _ _ _ _ _ Hown) as Hlen.
  destruct Hown as (Hself & Hb & Ht & Hmax).
  rewrite length_app in *. cbn [length] in *.
  assert (Hbl : (b < length (mem s))%nat) by (by eapply lookup_lt_Some).
  set (R := drop (length P + Datatypes.S (length S)) blk) in *.
  assert (HR : length R = (length blk - (length P + Datatypes.S (length S)))%nat)
    by (subst R; len).
  rewrite map_app, <- app_assoc in Hsplit. cbn [map app] in Hsplit.
  destruct (drop (length S) ([moved_from x] ++ map moved_from S))
    as [|t tail] eqn:Htail.
  { apply (f_equal length) in Htail. revert Htail. len. }
  assert (tail = []) as ->.
  { apply (f_equal length) in Htail. revert Htail.
    rewrite length_drop, length_app, length_map. cbn [length].
    destruct tail; [done|cbn [length]; lia]. }
  eexists _, (map Some (P ++ S) ++ destroyed [t] ++ R).
  split_and!.
  - unfold kane.take_at.
    mnext.
    { eapply (take_from_mid _ b _ (map Some P) (map Some S ++ R) x); [|len].
      by rewrite Hb, Hsplit at 1. }
    mpure. self_simpl. rewrite Hself. cbn [m_size ptr_add].
    mnext.
    { eapply (move_assign_from_range_down moved_from value_has_trivial_destroy
                [moved_from x] S b (map Some P) R);
        [done| |len|len|len].
      by lookup_simpl. }
    rewrite Htail, set_block_set_block.
    mpure. self_simpl. rewrite Hself. cbn [m_size].
    mstep ltac:(apply set_iend_ok). mpure. self_simpl. rewrite Hself.
    cbn [m_size].
    mnext.
    { eapply (destroy_mid _ b (map Some P ++ map Some S) R t); [|len].
      lookup_simpl. by rewrite map_app, <- !app_assoc. }
    reflexivity.
  - eapply (owns_intro _ _ _ _ _ (destroyed [t] ++ R)).
    + by self_simpl.
    + len.
    + len.
    + lookup_simpl. by rewrite map_app.
    + done.
    + len.
  - len.
  - heap_len.
  - intros b' Hb'. by lookup_simpl.
Qed.

End Removal.

Section Access.

Context {T : Type}.
Variable sizeof_T : positive.

Local Abbreviation state := (state T).
Local Abbreviation M := (M T).
Local Abbreviation owns := (@owns T sizeof_T).
Local Abbreviation represents := (@represents T sizeof_T).

Implicit Types (s : state) (blk : block T) (b : nat) (x : T) (l : list T).

(** ** Element access *)

Lemma owns_read_slot s b blk l (i : nat) x :
  owns s b blk l → l !! i = Some x →
  read_slot (mem s) (Ptr b (Z.of_nat i)) = Some (Some x).
Proof.
  intros Hown Hi. pose proof (owns_split _ _ _ _ _ Hown) as Hsplit.
  destruct Hown as (_ & Hb & _). unfold read_slot.
  destruct (Z.ltb_spec (Z.of_nat i) 0); [lia|].
  rewrite Hb, Nat2Z.id, Hsplit, lookup_app_l.
  - by rewrite list_lookup_fmap, Hi.
  - rewrite length_map. by eapply lookup_lt_Some.
Qed.

Lemma deref_ok s p x :
  read_slot (mem s) p = Some (Some x) → deref p s = Ok (ref_elem p) s.
Proof. intros H. unfold deref, bind, load. by rewrite H. Qed.

(** A valid index: the element; [at] and [operator[]] agree there. *)
Lemma at_valid s l cap (i : nat) x :
  represents s l cap → l !! i = Some x →
  at_ (Z.of_nat i) s = Ok (ref_elem (at_index s i)) s
  ∧ op_index (Z.of_nat i) s = Ok (ref_elem (at_index s i)) s
  ∧ ref_reads s (ref_elem (at_index s i)) x.
Proof.
  intros [(_ & -> & _) | (b & blk & Hown & ->)] Hi; [done|].
  pose proof (owns_read_slot _ _ _ _ _ _ Hown Hi) as Hread.
  pose proof (lookup_lt_Some _ _ _ Hi) as Hlt.
  pose proof Hown as (Hself & _).
  unfold at_index. rewrite Hself. cbn [m_data ptr_add]. rewrite Z.add_0_l.
  split_and!; [| |done].
  - unfold at_. mpure. mpure. rewrite Hself.
    cbn [m_data m_size ptr_add is_null negb andb]. rewrite Z.add_0_l.
    rewrite ptr_ltb_same.
    destruct (Z.ltb_spec (Z.of_nat i) (Z.of_nat (length l))); [|lia].
    by eapply deref_ok.
  - unfold op_index. mpure. rewrite Hself. cbn [m_data ptr_add].
    rewrite Z.add_0_l. by eapply deref_ok.
Qed.

(** An index that is not below [size()]: [at] throws. *)
Lemma at_out_of_range s l cap index :
  represents s l cap → Z.of_nat (length l) ≤ index → at_ index s = Throw.
Proof.
  intros [(Hself & -> & _) | (b & blk & Hown & ->)] Hi.
  - unfold at_. mpure. mpure. by rewrite Hself.
  - destruct Hown as (Hself & _).
    unfold at_. mpure. mpure. rewrite Hself.
    cbn [m_data m_size ptr_add is_null negb andb]. rewrite Z.add_0_l.
    rewrite ptr_ltb_same.
    destruct (Z.ltb_spec index (Z.of_nat (length l))); [lia|done].
Qed.

Lemma front_ok s x l cap :
  represents s (x :: l) cap →
  front s = Ok (ref_elem (at_index s 0)) s
  ∧ ref_reads s (ref_elem (at_index s 0)) x.
Proof.
  intros [(_ & ? & _) | (b & blk & Hown & ->)]; [done|].
  pose proof (owns_read_slot _ _ _ _ 0 x Hown eq_refl) as Hread.
  pose proof Hown as (Hself & _).
  unfold at_index. rewrite Hself. cbn [m_data ptr_add Z.of_nat Z.add].
  split; [|done]. unfold front. mpure. rewrite Hself. by eapply deref_ok.
Qed.

Lemma back_ok s l x cap :
  represents s (l ++ [x]) cap →
  back s = Ok (ref_elem (at_index s (length l))) s
  ∧ ref_reads s (ref_elem (at_index s (length l))) x.
Proof.
  intros [(_ & ? & _) | (b & blk & Hown & ->)]; [by destruct l|].
  assert (Hi : (l ++ [x]) !! length l = Some x)
    by (by rewrite list_lookup_middle).
  pose proof (owns_read_slot _ _ _ _ _ _ Hown Hi) as Hread.
  pose proof Hown as (Hself & _).
  unfold at_index. rewrite Hself. cbn [m_data ptr_add]. rewrite Z.add_0_l.
  split; [|done]. unfold back. mpure. rewrite Hself. cbn [m_size ptr_add].
  replace (Z.of_nat (length (l ++ [x])) + -1) with (Z.of_nat (length l))
    by len.
  by eapply deref_ok.
Qed.

End Access.

Section Storage.

Context {T : Type}.
Variable moved_from : T → T.
Variable value_has_trivial_destroy : bool.
Variable sizeof_T : positive.

Local Abbreviation state := (state T).
Local Abbreviation M := (M T).
Local Abbreviation allocate := (@allocate T sizeof_T).
Local Abbreviation max_size := (max_size sizeof_T).
Local Abbreviation owns := (@owns T sizeof_T).
Local Abbreviation represents := (@represents T sizeof_T).
Local Abbreviation destroyed := (@destroyed T value_has_trivial_destroy).
Local Abbreviation reserve :=
  (@reserve T moved_from value_has_trivial_destroy sizeof_T).
Local Abbreviation shrink_to_fit :=
  (@shrink_to_fit T moved_from value_has_trivial_destroy sizeof_T).
Local Abbreviation destructor := (@destructor T value_has_trivial_destroy).

Implicit Types (s : state) (blk L D G R : block T) (b : nat) (o : Z)
  (v x : T) (l vs xs P S : list T) (p : pointer).

(** ** reserve *)

Lemma reserve_spec E s l cap n :
  represents s l cap →
  0 ≤ n →
  E ∨ n ≤ max_size →
  wp E (reserve n) s
    (λ _ s',
       represents s' l (Z.max cap n)
       ∧ (n ≤ cap → s' = s)
       ∧ (cap < n → released s s')
       ∧ others_kept s s').
Proof.
  intros Hrep Hn HE.
  pose proof (represents_bounds _ _ _ _ Hrep) as Hbounds.
  unfold kane.reserve, reallocate.
  wp_step ltac:(by eapply capacity_ok).
  destruct (Z.gtb_spec n cap) as [Hgt|Hle].
  - rewrite Z.max_r by lia.
    destruct Hrep as [(Hself & -> & ->) | (b & blk & Hown & ->)].
    + eapply wp_mono.
      { eapply really_reallocate_null_spec with (E := E); [done|done|done]. }
      cbn beta. intros _ s' (Hown' & Hfr). split_and!.
      * right. eexists _, _. split; [done|]. len.
      * lia.
      * intros _ b o Hd. by rewrite Hself in Hd.
      * intros b' Hb' _. by apply Hfr.
    + eapply wp_mono.
      { eapply (really_reallocate_spec _ _ _ E); [done|lia|done]. }
      cbn beta. intros _ s' (Hown' & Hfree & Hfr). split_and!.
      * right. eexists _, _. split; [done|]. len.
      * lia.
      * intros _ b0 o Hd. destruct Hown as (Hself & _).
        rewrite Hself in Hd. by injection Hd as <- _.
      * intros b' Hb' Hne. apply Hfr; [|done].
        intros ->. destruct Hown as (Hself & _). apply (Hne 0).
        by rewrite Hself.
  - apply wp_ret. rewrite Z.max_l by lia. split_and!; [done|done|lia|done].
Qed.

(** ** shrink_to_fit *)

(** No allocation failure is possible: the new array is not larger than
    the old one. *)
Lemma shrink_to_fit_spec s l cap :
  represents s l cap →
  wp False shrink_to_fit s
    (λ _ s',
       represents s' l (Z.of_nat (length l))
       ∧ (l ≠ [] → Z.of_nat (length l) = cap → s' = s)
       ∧ (l = [] ∨ Z.of_nat (length l) < cap → released s s')
       ∧ others_kept s s').
Proof.
  intros Hrep.
  pose proof (represents_bounds _ _ _ _ Hrep) as Hbounds.
  pose proof (max_size_lt_modulus sizeof_T) as Hmod.
  unfold kane.shrink_to_fit.
  destruct Hrep as [(Hself & -> & ->) | (b & blk & Hown & ->)].
  { eapply wp_ok.
    { mpure. rewrite Hself. cbn [m_size m_data ptr_eqb is_null negb].
      reflexivity. }
    cbn beta. split_and!; [by left|done| |done].
    intros _ b o Hd. by rewrite Hself in Hd. }
  pose proof (owns_split _ _ _ _ _ Hown) as Hsplit.
  pose proof (owns_length _ _ _ _ _ Hown) as Hlen.
  pose proof Hown as (Hself & Hb & Ht & Hmax).
  assert (Hbl : (b < length (mem s))%nat) by (by eapply lookup_lt_Some).
  apply wp_bind. eapply wp_ok; [reflexivity|]. cbn beta.
  rewrite Hself. cbn [m_size m_data m_capacity is_null negb].
  rewrite !ptr_eqb_same.
  destruct (Z.eqb_spec (Z.of_nat (length l)) 0) as [H0|Hn0].
  - (* empty with an array: the array is released *)
    destruct l; [|cbn in H0; lia]. clear H0.
    eapply wp_ok.
    { mnext.
      { eapply (deallocate_to_ok b); [done|done|lia]. }
      reflexivity. }
    cbn beta. split_and!.
    + by left.
    + done.
    + intros _ b0 o Hd. rewrite Hself in Hd. injection Hd as <- _.
        by lookup_simpl.
    + intros b' Hb' Hne. cbn [mem]. rewrite lookup_free_block_ne; [done|].
      intros ->. apply (Hne 0). by rewrite Hself.
  - destruct (Z.eqb_spec (Z.of_nat (length l)) (Z.of_nat (length blk)))
      as [Hfull|Hroom]; cbn [negb].
    + apply wp_ret. split_and!; [|done| |done].
      * right. exists b, blk. split; [done|lia].
      * intros [->|?]; [done|lia].
    + wp_step ltac:(by eapply (size_ok sizeof_T _ l),
                      (owns_represents _ _ _ _ _ Hown)).
      apply wp_bind. apply wp_allocate; [right; lia|lia|]. intros _.
      set (nb := length (mem s)).
      eapply wp_ok.
      { mpure. mpure. rewrite self_alloc_block, Hself. cbn [m_data m_size].
        mnext.
        { eapply (move_construct_from_range_ok moved_from l nb []
                    (replicate (length l) None) [] _ b []
                    (drop (length l) blk)); [lia|len| |done| |done|len].
          - lookup_simpl. by rewrite Nat2Z.id, app_nil_r.
          - lookup_simpl. rewrite Hb. cbn [app]. by rewrite <- Hsplit. }
        cbn [app].
        mnext.
        { eapply (destroy_range_ok' _ (map moved_from l) b []); [|done|len].
          by lookup_simpl. }
        mnext.
        { eapply (deallocate_to_ok b); [by lookup_simpl|len|].
          revert Hmod Hmax. len. }
        reflexivity. }
      cbn beta. split_and!.
      * right. exists nb, (map Some l). split; [|len].
        eapply (owns_intro _ _ _ _ _ []).
        -- self_simpl. reflexivity.
        -- lia.
        -- len.
        -- lookup_simpl. by rewrite app_nil_r.
        -- by rewrite app_nil_r.
        -- revert Hmax. len.
      * intros _ ?. lia.
      * intros _ b0 o Hd. rewrite Hself in Hd. injection Hd as <- _.
        by lookup_simpl.
      * intros b' Hb' Hne. assert (b' ≠ b)
          by (intros ->; apply (Hne 0); by rewrite Hself).
        by lookup_simpl.
Qed.

(** ** The destructor *)

Lemma destructor_spec s l cap :
  represents s l cap →
  ∃ s', destructor s = Ok tt s'
        ∧ self s' = mk_vector Null Null Null
        ∧ released s s'
        ∧ others_kept s s'
        ∧ length (mem s') = length (mem s).
Proof.
  intros [(Hself & -> & ->) | (b & blk & Hown & ->)].
  - exists s. split_and!; [|done| |done|done].
    + unfold kane.destructor. mpure. by rewrite Hself.
    + intros b o Hd. by rewrite Hself in Hd.
  - destruct (clear_owns value_has_trivial_destroy sizeof_T _ _ _ _ Hown)
      as (s1 & Hclear & Hown1 & Hml & Hfr).
    pose proof (owns_bounds _ _ _ _ _ Hown1) as (_ & Hmod).
    pose proof Hown as (Hself & Hb & _).
    pose proof Hown1 as (Hself1 & Hb1 & _).
    assert (Hbl : (b < length (mem s1))%nat) by (by eapply lookup_lt_Some).
    eexists. split_and!.
    + unfold kane.destructor. mpure. rewrite Hself. cbn [m_data is_null negb].
      mstep ltac:(exact Hclear).
      mpure. mpure. rewrite Hself1. cbn [m_data m_capacity].
      mstep ltac:(by eapply (deallocate_to_ok b)).
      reflexivity.
    + done.
    + intros b0 o Hd. rewrite Hself in Hd. injection Hd as <- _.
      cbn [mem]. by lookup_simpl.
    + intros b' Hb' Hne.
      assert (b' ≠ b) by (intros ->; apply (Hne 0); by rewrite Hself).
      cbn [mem]. rewrite lookup_free_block_ne by done. by apply Hfr.
    + cbn [mem]. by rewrite length_mem_free_block.
Qed.

End Storage.

Section Construction.

Context {T : Type}.
Variable moved_from : T → T.
Variable value_has_trivial_destroy : bool.
Variable sizeof_T : positive.

Local Abbreviation state := (state T).
Local Abbreviation M := (M T).
Local Abbreviation allocate := (@allocate T sizeof_T).
Local Abbreviation max_size := (max_size sizeof_T).
Local Abbreviation owns := (@owns T sizeof_T).
Local Abbreviation represents := (@represents T sizeof_T).
Local Abbreviation vector_base_capacity := (@vector_base_capacity T sizeof_T).
Local Abbreviation vector_fill := (@vector_fill T sizeof_T).
Local Abbreviation vector_copy := (@vector_copy T moved_from sizeof_T).

Implicit Types (s : state) (blk L D G R : block T) (b : nat) (o : Z)
  (v x : T) (l vs xs P S : list T) (p : pointer) (val : reference T).

(** ** Filling from a reference *)

Lemma reads_outside_set_block b blk s val x :
  reads_outside b s val x → reads_outside b (set_block b blk s) val x.
Proof. intros H blk'. rewrite set_block_set_block. apply H. Qed.

Lemma reads_outside_now b blk s val x :
  mem s !! b = Some (Some blk) → reads_outside b s val x → ref_reads s val x.
Proof. intros Hb H. specialize (H blk). by rewrite set_block_id in H. Qed.

(** A reference that reads [x] does so after an allocation, whatever is
    written to the new block. *)
Lemma reads_outside_fresh n s val x :
  ref_reads s val x →
  reads_outside (length (mem s)) (alloc_block n s) val x.
Proof.
  intros H blk. destruct val as [[|b o]|y]; [done| |done].
  cbn [ref_reads] in *. unfold read_slot in *.
  destruct (o <? 0); [done|].
  destruct (mem s !! b) as [ob|] eqn:Hb; [|done].
  assert (b < length (mem s))%nat by (by eapply lookup_lt_Some).
  rewrite lookup_set_block_ne by lia.
  by erewrite lookup_alloc_block_old.
Qed.

Lemma fill_loop_ref write (n : nat) val x b L G R o s :
  Forall (writable write) G →
  length G = n →
  mem s !! b = Some (Some (L ++ G ++ R)) →
  o = Z.of_nat (length L) →
  reads_outside b s val x →
  fill_loop write n (Ptr b o) val s
  = Ok (Ptr b (o + Z.of_nat n))
       (set_block b (L ++ replicate n (Some x) ++ R) s).
Proof.
  revert L G o s. induction n as [|n IH]; intros L G o s HG Hlen Hb Ho Hval.
  - destruct G; [|done]. simpl. unfold ret.
    rewrite Z.add_0_r, set_block_id by done. done.
  - destruct G as [|g G]; [done|]. simpl in Hlen.
    apply Forall_cons_1 in HG as [Hg HG].
    cbn [fill_loop]. cbn [app] in Hb.
    erewrite bind_ok by (by eapply read_ref_ok, reads_outside_now).
    erewrite bind_ok by (by eapply write_mid).
    cbn [ptr_add].
    replace (o + Z.of_nat (Datatypes.S n)) with (o + 1 + Z.of_nat n) by lia.
    erewrite (IH (L ++ [Some x]) G); [| done | lia | | |].
    + rewrite set_block_set_block, <- app_assoc. done.
    + erewrite lookup_set_block_eq by done. by rewrite <- app_assoc.
    + rewrite length_app. simpl. lia.
    + by apply reads_outside_set_block.
Qed.

Lemma rounds_within n b o blk s :
  mem s !! b = Some (Some blk) →
  0 ≤ n ≤ Z.of_nat (length blk) - o →
  rounds n (Ptr b o) s = Ok (Z.to_nat n) s.
Proof.
  intros Hb Hn. unfold rounds, room. rewrite Hb. do 2 f_equal. lia.
Qed.

(** ** Constructors *)

(** [vector(capacity_tag)]: an empty vector with the capacity asked for;
    nothing is allocated for a capacity of zero. *)
Lemma vector_base_capacity_spec E s n :
  0 ≤ n →
  E ∨ n ≤ max_size →
  wp E (vector_base_capacity n) s
    (λ _ s',
       represents s' [] n
       ∧ (n = 0 → mem s' = mem s)
       ∧ (0 < n → owns s' (length (mem s)) (replicate (Z.to_nat n) None) [])
       ∧ ∀ b', (b' < length (mem s))%nat → mem s' !! b' = mem s !! b').
Proof.
  intros Hn HE. unfold kane.vector_base_capacity.
  destruct (Z.gtb_spec n 0) as [Hpos|H0].
  - apply wp_bind. apply wp_allocate; [done|done|]. intros Hmax.
    eapply wp_ok; [apply reset_cap_ok|].
    assert (Hown : owns (set_cursors
                           (mk_vector (Ptr (length (mem s)) 0)
                              (Ptr (length (mem s)) 0)
                              (ptr_add (Ptr (length (mem s)) 0) n))
                           (alloc_block (Z.to_nat n) s))
                     (length (mem s)) (replicate (Z.to_nat n) None) []).
    { eapply (owns_intro _ _ _ _ _ (replicate (Z.to_nat n) None)).
      - self_simpl. reflexivity.
      - done.
      - len.
      - by lookup_simpl.
      - done.
      - len. }
    split_and!; [|lia|done|].
    + right. eexists _, _. split; [exact Hown|]. len.
    + intros b' Hb'. by lookup_simpl.
  - assert (n = 0) as -> by lia. eapply wp_ok; [apply reset_ok|].
    split_and!; [by left|done|lia|done].
Qed.

(** [vector(initialSize, val)] *)
Lemma vector_fill_spec E s n val x :
  0 ≤ n →
  E ∨ n ≤ max_size →
  ref_reads s val x →
  wp E (vector_fill n val) s
    (λ _ s',
       represents s' (replicate (Z.to_nat n) x) n
       ∧ ∀ b', (b' < length (mem s))%nat → mem s' !! b' = mem s !! b').
Proof.
  intros Hn HE Hval. unfold kane.vector_fill.
  apply wp_bind. eapply wp_mono; [by apply vector_base_capacity_spec|].
  cbn beta. intros _ s1 (Hrep1 & Hmem0 & Hown1 & Hfr1).
  destruct (Z.gtb_spec n 0) as [Hpos|H0].
  - specialize (Hown1 Hpos).
    pose proof Hown1 as (Hself1 & Hb1 & _ & Hmax1).
    rewrite length_replicate in Hmax1.
    assert (Hbl : (length (mem s) < length (mem s1))%nat)
      by (by eapply lookup_lt_Some).
    assert (Hout : reads_outside (length (mem s)) s1 val x).
    { intros blk. destruct val as [[|b o]|y]; [done| |done].
      cbn [ref_reads] in *. unfold read_slot in *.
      destruct (o <? 0); [done|].
      destruct (mem s !! b) as [ob|] eqn:Hb; [|done].
      assert (b < length (mem s))%nat by (by eapply lookup_lt_Some).
      rewrite lookup_set_block_ne by lia. by rewrite Hfr1, Hb. }
    eapply wp_ok.
    { mpure. rewrite Hself1. cbn [m_data].
      mnext.
      { unfold construct_n.
        mstep ltac:(eapply rounds_within; [done|len]).
        eapply (fill_loop_ref _ _ val x _ [] (replicate (Z.to_nat n) None) []);
          [apply Forall_writable_construct|len| |done|done].
        by rewrite Hb1, app_nil_r. }
      apply set_iend_ok. }
    cbn beta. split.
    + right. exists (length (mem s)), (replicate (Z.to_nat n) (Some x)).
      split; [|len].
      eapply (owns_intro _ _ _ _ _ []).
      * self_simpl. rewrite Hself1. cbn [m_data m_capacity]. reflexivity.
      * len.
      * len.
      * lookup_simpl. by rewrite app_nil_r.
      * rewrite app_nil_r. clear. induction (Z.to_nat n); [done|].
        cbn [replicate map]. by f_equal.
      * len.
    + intros b' Hb'. lookup_simpl. by apply Hfr1.
  - assert (n = 0) as -> by lia. apply wp_ret. split; [done|done].
Qed.

(** ** Copy construction *)

(** Copying the elements [vs] of one block over the slots [G] of another;
    the source is only read. *)
Lemma transfer_loop_copy write vs bd L G R od bs L' R' os s :
  bd ≠ bs →
  Forall (writable write) G →
  length G = length vs →
  mem s !! bd = Some (Some (L ++ G ++ R)) →
  od = Z.of_nat (length L) →
  mem s !! bs = Some (Some (L' ++ map Some vs ++ R')) →
  os = Z.of_nat (length L') →
  transfer_loop write (deref_copy moved_from) (length vs) (Ptr bd od)
    (iter_ptr (Ptr bs os)) s
  = Ok (Ptr bd (od + Z.of_nat (length vs)),
        iter_ptr (Ptr bs (os + Z.of_nat (length vs))))
       (set_block bd (L ++ map Some vs ++ R) s).
Proof.
  intros Hne. revert L G od L' os s.
  induction vs as [|v vs IH]; intros L G od L' os s HG Hlen Hd Hod Hs Hos.
  - destruct G; [|done]. simpl. unfold ret.
    rewrite !Z.add_0_r, set_block_id by done. done.
  - destruct G as [|g G]; [done|]. simpl in Hlen.
    apply Forall_cons_1 in HG as [Hg HG].
    cbn [transfer_loop length deref_copy]. cbn [map app] in Hs, Hd.
    erewrite bind_ok by (by eapply load_mid).
    erewrite bind_ok by (by eapply write_mid).
    cbn [iter_next ptr_add].
    replace (od + Z.of_nat (Datatypes.S (length vs)))
      with (od + 1 + Z.of_nat (length vs)) by lia.
    replace (os + Z.of_nat (Datatypes.S (length vs)))
      with (os + 1 + Z.of_nat (length vs)) by lia.
    erewrite (IH (L ++ [Some v]) G _ (L' ++ [Some v]));
      [| done | lia | | | |].
    + rewrite set_block_set_block, <- app_assoc. done.
    + erewrite lookup_set_block_eq by done. by rewrite <- app_assoc.
    + rewrite length_app. simpl. lia.
    + rewrite lookup_set_block_ne by done. rewrite Hs.
      by rewrite <- app_assoc.
    + rewrite length_app. simpl. lia.
Qed.

(** [vector(const vector& other)]: the new vector has the elements of
    [other] in an array of its own, of exactly that many slots; [other]
    is not touched.  The allocation cannot exceed [max_size()]. *)
Lemma vector_copy_spec s other l cap :
  represents (mk_state other (mem s)) l cap →
  wp False (vector_copy other) s
    (λ _ s',
       represents s' l (Z.of_nat (length l))
       ∧ (∀ b', (b' < length (mem s))%nat → mem s' !! b' = mem s !! b')
       ∧ (l ≠ [] → m_data (self s') = Ptr (length (mem s)) 0)).
Proof.
  intros Hrep.
  pose proof (represents_bounds _ _ _ _ Hrep) as Hbounds.
  pose proof (max_size_lt_modulus sizeof_T) as Hmod.
  assert (Hsize : vec_size other = Z.of_nat (length l)).
  { destruct (represents_cursors _ _ _ _ Hrep) as (Hs & _).
    unfold vec_size. cbn [self] in Hs. rewrite Hs, wrap_small by lia. done. }
  unfold kane.vector_copy. rewrite Hsize.
  destruct (Z.eqb_spec (Z.of_nat (length l)) 0) as [H0|Hn0]; cbn [negb].
  - destruct l; [|cbn in H0; lia].
    eapply wp_ok; [apply reset_ok|].
    split_and!; [by left|done|done].
  - destruct Hrep as [(_ & -> & _) | (bo & blk & Hown & ->)]; [done|].
    pose proof (owns_split _ _ _ _ _ Hown) as Hsplit.
    destruct Hown as (Hself & Hb & _ & Hmax). cbn [self mem] in *.
    assert (Hbl : (bo < length (mem s))%nat) by (by eapply lookup_lt_Some).
    apply wp_bind. apply wp_allocate; [right; lia|lia|]. intros _.
    set (nb := length (mem s)).
    eapply wp_ok.
    { mnext.
      { rewrite Hself. cbn [m_data m_size].
        unfold copy_construct_from_range.
        mstep ltac:(apply (iter_distance_ptr bo 0 (length l))).
        mnext.
        { eapply (transfer_loop_copy _ l nb [] (replicate (length l) None) []
                    0 bo [] (drop (length l) blk) 0);
            [lia|apply Forall_writable_construct|len| |done| |done].
          - lookup_simpl. by rewrite Nat2Z.id, app_nil_r.
          - lookup_simpl. rewrite Hb. cbn [app]. by rewrite <- Hsplit. }
        reflexivity. }
      apply reset_ptr_ok. }
    cbn beta. cbn [fst app]. split_and!.
    + right. exists nb, (map Some l). split; [|len].
      eapply (owns_intro _ _ _ _ _ []).
      * self_simpl. reflexivity.
      * lia.
      * len.
      * lookup_simpl. by rewrite app_nil_r.
      * by rewrite app_nil_r.
      * revert Hmax. rewrite Hsplit at 1. len.
    + intros b' Hb'. by lookup_simpl.
    + done.
Qed.

End Construction.

Section Appending.

Context {T : Type}.
Variable moved_from : T → T.
Variable value_has_trivial_destroy : bool.
Variable use_simple_insert : bool.
Variable sizeof_T : positive.

Local Abbreviation state := (state T).
Local Abbreviation M := (M T).
Local Abbreviation allocate := (@allocate T sizeof_T).
Local Abbreviation max_size := (max_size sizeof_T).
Local Abbreviation owns := (@owns T sizeof_T).
Local Abbreviation represents := (@represents T sizeof_T).
Local Abbreviation reserve :=
  (@reserve T moved_from value_has_trivial_destroy sizeof_T).
Local Abbreviation xpush_back :=
  (@xpush_back T moved_from value_has_trivial_destroy sizeof_T).
Local Abbreviation append_range_forward :=
  (@append_range_forward T moved_from value_has_trivial_destroy sizeof_T).
Local Abbreviation insert_iter :=
  (@insert_iter T moved_from value_has_trivial_destroy sizeof_T).

Implicit Types (s : state) (blk L D G R : block T) (b : nat) (o : Z)
  (v x : T) (l vs xs P S : list T) (p : pointer) (val : reference T).

(** ** xpush_back *)

(** With room, the element is constructed at the end. *)
Lemma construct_inc_size s b blk l x :
  owns s b blk l →
  (length l < length blk)%nat →
  ∃ s', (construct (Ptr b (Z.of_nat (length l))) x ;; inc_size) s = Ok tt s'
        ∧ owns s' b (<[length l := Some x]> blk) (l ++ [x])
        ∧ length (mem s') = length (mem s).
Proof.
  intros Hown Hlt.
  destruct (owns_split_room _ _ _ _ _ Hown Hlt) as (g & R & Hblk).
  destruct Hown as (Hself & Hb & Ht & Hmax).
  assert (Hbl : (b < length (mem s))%nat) by (by eapply lookup_lt_Some).
  assert (Hnew : <[length l := Some x]> blk = map Some (l ++ [x]) ++ R).
  { rewrite Hblk, insert_app_r_alt by len.
    rewrite length_map, Nat.sub_diag, map_app, <- app_assoc. done. }
  eexists. split; [|split].
  - mnext.
    { eapply (construct_mid b _ (map Some l) R g); [by rewrite <- Hblk|len]. }
    apply inc_size_ok.
  - eapply (owns_intro _ _ _ _ _ R).
    + self_simpl. rewrite Hself. cbn [m_data m_size m_capacity ptr_add].
      reflexivity.
    + len.
    + len.
    + lookup_simpl. by rewrite Hnew, map_app, <- app_assoc.
    + done.
    + len.
  - heap_len.
Qed.

(** [push_back] with room: in place. *)
Lemma push_back_room_owns s b blk l val x :
  owns s b blk l →
  (length l < length blk)%nat →
  ref_reads s val x →
  ∃ s', push_back moved_from value_has_trivial_destroy use_simple_insert
          sizeof_T val s = Ok tt s'
        ∧ owns s' b (<[length l := Some x]> blk) (l ++ [x])
        ∧ length (mem s') = length (mem s).
Proof.
  intros Hown Hlt Hval.
  destruct (construct_inc_size s _ _ _ x Hown Hlt) as (s' & Hrun & Hrest).
  exists s'. split; [|done].
  unfold kane.push_back, kane.emplace_back_internal.
  mnext.
  { mstep ltac:(by eapply full_ok, owns_represents).
    destruct (Z.eqb_spec (Z.of_nat (length l)) (Z.of_nat (length blk)));
      [lia|]. cbn [negb].
    mpure. pose proof Hown as (-> & _). cbn [m_size].
    mstep ltac:(by apply read_ref_ok).
    unfold bind in Hrun |- *.
    destruct (construct _ _ _) as [[] s1| |]; [|done..].
    rewrite Hrun. reflexivity. }
  reflexivity.
Qed.

(** [xpush_back] appends a value that is not an element of the vector,
    and any value when there is room. *)
Lemma xpush_back_spec E s l cap val x :
  represents s l cap →
  val = ref_value x ∨ (Z.of_nat (length l) < cap ∧ ref_reads s val x) →
  E ∨ (Z.of_nat (length l) = cap → next_capacity cap ≤ max_size) →
  wp E (xpush_back val) s
    (λ _ s',
       represents s' (l ++ [x])
         (if Z.of_nat (length l) =? cap then next_capacity cap else cap)).
Proof.
  intros Hrep Hval HE.
  pose proof (represents_bounds _ _ _ _ Hrep) as Hbounds.
  pose proof (max_size_bound sizeof_T) as Hms.
  unfold kane.xpush_back.
  wp_step ltac:(by eapply full_ok).
  destruct (Z.eqb_spec (Z.of_nat (length l)) cap) as [Hfull|Hroom].
  - destruct Hval as [->|[? _]]; [|lia].
    assert (Hnc : Z.of_nat (length l) < next_capacity cap).
    { rewrite next_capacity_small by lia.
      destruct (Z.eqb_spec cap 0); lia. }
    assert (HE' : E ∨ next_capacity cap ≤ max_size).
    { destruct HE as [?|HE]; [by left|right; by apply HE]. }
    apply wp_bind. unfold reallocate_next.
    wp_step ltac:(by eapply capacity_ok).
    wp_step ltac:(by eapply next_capacity_self_ok).
    assert (Hpost : ∀ s1 blk1,
      owns s1 (length (mem s)) blk1 l →
      Z.of_nat (length blk1) = next_capacity cap →
      wp E (e <- iend ;; v <- read_ref (ref_value x) ;; construct e v ;;
            inc_size) s1
        (λ _ s', represents s' (l ++ [x]) (next_capacity cap))).
    { intros s1 blk1 Hown1 Hlen1.
      destruct (construct_inc_size s1 _ _ _ x Hown1 ltac:(lia))
        as (s' & Hrun & Hown' & _).
      eapply wp_ok.
      { mpure. destruct Hown1 as (-> & _). cbn [m_size read_ref].
        mpure. exact Hrun. }
      right. eexists _, _. split; [done|]. rewrite length_insert. lia. }
    destruct Hrep as [(Hself & -> & ->) | (b & blk & Hown & ->)].
    + eapply wp_mono.
      { eapply really_reallocate_null_spec with (E := E); [done|lia|done]. }
      cbn beta. intros _ s1 (Hown1 & _). eapply Hpost; [done|].
      rewrite length_replicate. lia.
    + eapply wp_mono.
      { eapply (really_reallocate_spec _ _ _ E); [done|lia|done]. }
      cbn beta. intros _ s1 (Hown1 & _ & _). eapply Hpost; [done|].
      len.
  - apply wp_bind. apply wp_ret.
    destruct Hval as [->|[_ Hval]].
    + destruct Hrep as [(Hself & -> & ->) | (b & blk & Hown & ->)]; [done|].
      destruct (construct_inc_size s _ _ _ x Hown ltac:(lia))
        as (s' & Hrun & Hown' & _).
      eapply wp_ok.
      { mpure. destruct Hown as (-> & _). cbn [m_size read_ref].
        mpure. exact Hrun. }
      right. eexists _, _. split; [done|]. by rewrite length_insert.
    + destruct Hrep as [(Hself & -> & ->) | (b & blk & Hown & ->)]; [done|].
      destruct (construct_inc_size s _ _ _ x Hown ltac:(lia))
        as (s' & Hrun & Hown' & _).
      eapply wp_ok.
      { mpure. pose proof Hown as (-> & _). cbn [m_size].
        mstep ltac:(by apply read_ref_ok). exact Hrun. }
      right. eexists _, _. split; [done|]. by rewrite length_insert.
Qed.

(** ** Appending a sequence with forward iterators *)

(** The elements [X] of a sequence outside the memory are appended; the
    array grows to exactly the size needed when it is too small. *)
Lemma append_range_forward_spec s l cap X :
  represents s l cap →
  Z.of_nat (length l + length X) ≤ max_size →
  wp False (append_range_forward (iter_ext X) (iter_ext [])) s
    (λ r s',
       represents s' (l ++ X) (Z.max cap (Z.of_nat (length l + length X)))
       ∧ r = at_index s' (length l)).
Proof.
  intros Hrep Hmax.
  pose proof (represents_bounds _ _ _ _ Hrep) as Hbounds.
  pose proof (max_size_lt_modulus sizeof_T) as Hmod.
  unfold kane.append_range_forward.
  wp_step ltac:(rewrite <- (app_nil_r X) at 1; apply iter_distance_ext).
  wp_step ltac:(by eapply size_ok).
  rewrite (wrap_small (Z.of_nat (length X))) by lia.
  rewrite wrap_small by lia.
  apply wp_bind. eapply wp_mono.
  { eapply (reserve_spec _ _ _ False); [done|lia|right; lia]. }
  cbn beta. intros _ s1 (Hrep1 & _ & _ & _).
  replace (Z.of_nat (length l) + Z.of_nat (length X))
    with (Z.of_nat (length l + length X)) in Hrep1 by lia.
  set (cap1 := Z.max cap (Z.of_nat (length l + length X))) in *.
  destruct Hrep1 as [(Hself1 & -> & Hc1) | (b & blk & Hown1 & Hc1)].
  - (* still null: nothing to append *)
    assert (X = []) as -> by (destruct X; [done|cbn [length] in *; lia]).
    eapply wp_ok.
    { mpure. rewrite Hself1. cbn [m_size].
      mnext.
      { unfold copy_construct_range_n. mstep ltac:(reflexivity).
        cbn [rounds room]. reflexivity. }
      mstep ltac:(apply set_iend_ok). reflexivity. }
    cbn beta. split.
    + left. split_and!; [|done|lia]. self_simpl. by rewrite Hself1.
    + unfold at_index. self_simpl. by rewrite Hself1.
  - pose proof (owns_split _ _ _ _ _ Hown1) as Hsplit.
    pose proof (owns_length _ _ _ _ _ Hown1) as Hlen.
    pose proof Hown1 as (Hself1 & Hb1 & _ & Hmax1).
    assert (Hbl : (b < length (mem s1))%nat) by (by eapply lookup_lt_Some).
    assert (Hroom : (length l + length X ≤ length blk)%nat) by lia.
    set (R := drop (length l) blk) in *.
    assert (HR : length R = (length blk - length l)%nat) by (subst R; len).
    eapply wp_ok.
    { mpure. rewrite Hself1. cbn [m_size].
      mnext.
      { unfold copy_construct_range_n.
        mstep ltac:(eapply rounds_within; [exact Hb1|lia]).
        rewrite Nat2Z.id.
        rewrite <- (app_nil_r X) at 2.
        eapply (transfer_loop_ext _ _ _ X [] b (map Some l)
                  (take (length X) R) (drop (length X) R));
          [by left|apply Forall_writable_construct|len| |len].
        rewrite Hb1, take_drop. by rewrite Hsplit at 1. }
      mstep ltac:(apply set_iend_ok). reflexivity. }
    cbn beta. cbn [fst]. split.
    + right. exists b, (map Some l ++ map Some X ++ drop (length X) R).
      split; [|rewrite Hc1; len].
      eapply (owns_intro _ _ _ _ _ (drop (length X) R)).
      * self_simpl. rewrite Hself1. cbn [m_data m_capacity]. reflexivity.
      * len.
      * len.
      * by lookup_simpl.
      * by rewrite map_app, <- app_assoc.
      * revert Hmax1. len.
    + unfold at_index. self_simpl. rewrite Hself1.
      cbn [m_data ptr_add]. by rewrite Z.add_0_l.
Qed.

(** [insert(end(), first, last)] with forward iterators is that append. *)
Lemma insert_iter_end_forward s l cap X :
  represents s l cap →
  insert_iter forward_iterator_tag (at_index s (length l))
    (iter_ext X) (iter_ext []) s
  = append_range_forward (iter_ext X) (iter_ext []) s.
Proof.
  intros Hrep. unfold kane.insert_iter. mpure.
  replace (ptr_eqb (at_index s (length l)) (m_size (self s))) with true; [done|].
  symmetry. apply ptr_eqb_eq. unfold at_index.
  destruct Hrep as [(-> & -> & _) | (b & blk & (-> & _) & _)]; [done|].
  cbn [m_data m_size ptr_add]. by rewrite Z.add_0_l.
Qed.

End Appending.

Section Filling.

Context {T : Type}.
Variable moved_from : T → T.
Variable value_has_trivial_destroy : bool.
Variable use_simple_insert : bool.
Variable sizeof_T : positive.

Local Abbreviation state := (state T).
Local Abbreviation M := (M T).
Local Abbreviation allocate := (@allocate T sizeof_T).
Local Abbreviation max_size := (max_size sizeof_T).
Local Abbreviation owns := (@owns T sizeof_T).
Local Abbreviation represents := (@represents T sizeof_T).
Local Abbreviation destroyed := (@destroyed T value_has_trivial_destroy).
Local Abbreviation reallocate :=
  (@reallocate T moved_from value_has_trivial_destroy sizeof_T).
Local Abbreviation emplace_back_n_internal :=
  (@emplace_back_n_internal T moved_from value_has_trivial_destroy
     use_simple_insert sizeof_T).
Local Abbreviation resize_fill :=
  (@resize_fill T moved_from value_has_trivial_destroy use_simple_insert
     sizeof_T).
Local Abbreviation insert_n :=
  (@insert_n T moved_from value_has_trivial_destroy use_simple_insert
     sizeof_T).

Implicit Types (s : state) (blk L D G R : block T) (b : nat) (o : Z)
  (v x : T) (l vs xs P S : list T) (p : pointer) (val : reference T).

(** ** Copies of an exemplar *)

Lemma map_replicate {A B} (f : A → B) (n : nat) (a : A) :
  map f (replicate n a) = replicate n (f a).
Proof. induction n; [done|]. cbn [replicate map]. by f_equal. Qed.

(** The exemplar is an element of the same array, before the slots that
    are filled. *)
Lemma fill_loop_exemplar write (n : nat) x b L G R o (i : nat) s :
  Forall (writable write) G →
  length G = n →
  mem s !! b = Some (Some (L ++ G ++ R)) →
  o = Z.of_nat (length L) →
  L !! i = Some (Some x) →
  fill_loop write n (Ptr b o) (ref_elem (Ptr b (Z.of_nat i))) s
  = Ok (Ptr b (o + Z.of_nat n))
       (set_block b (L ++ replicate n (Some x) ++ R) s).
Proof.
  revert L G o s. induction n as [|n IH]; intros L G o s HG Hlen Hb Ho Hi.
  - destruct G; [|done]. simpl. unfold ret.
    rewrite Z.add_0_r, set_block_id by done. done.
  - destruct G as [|g G]; [done|]. simpl in Hlen.
    apply Forall_cons_1 in HG as [Hg HG].
    cbn [fill_loop read_ref]. cbn [app] in Hb.
    erewrite bind_ok; cycle 1.
    { eapply load_ok; [done|done|]. by rewrite lookup_app_l
        by (by eapply lookup_lt_Some). }
    erewrite bind_ok by (by eapply write_mid).
    cbn [ptr_add].
    replace (o + Z.of_nat (Datatypes.S n)) with (o + 1 + Z.of_nat n) by lia.
    erewrite (IH (L ++ [Some x]) G); [| done | lia | | |].
    + rewrite set_block_set_block, <- app_assoc. done.
    + erewrite lookup_set_block_eq by done. by rewrite <- app_assoc.
    + rewrite length_app. simpl. lia.
    + rewrite lookup_app_l by (by eapply lookup_lt_Some). done.
Qed.

Lemma construct_n_exemplar k x b L G R o (i : nat) s :
  Z.of_nat (length G) = k →
  mem s !! b = Some (Some (L ++ G ++ R)) →
  o = Z.of_nat (length L) →
  L !! i = Some (Some x) →
  construct_n (Ptr b o) k (ref_elem (Ptr b (Z.of_nat i))) s
  = Ok (Ptr b (o + k))
       (set_block b (L ++ replicate (length G) (Some x) ++ R) s).
Proof.
  intros Hk Hb Ho Hi. unfold construct_n.
  erewrite bind_ok by (eapply rounds_within; [done|revert Hk; len]).
  rewrite <- Hk, Nat2Z.id.
  eapply fill_loop_exemplar; [apply Forall_writable_construct|done..].
Qed.

Lemma construct_n_value k x b L G R o s :
  Z.of_nat (length G) = k →
  mem s !! b = Some (Some (L ++ G ++ R)) →
  o = Z.of_nat (length L) →
  construct_n (Ptr b o) k (ref_value x) s
  = Ok (Ptr b (o + k))
       (set_block b (L ++ replicate (length G) (Some x) ++ R) s).
Proof.
  intros Hk Hb Ho. unfold construct_n.
  erewrite bind_ok by (eapply rounds_within; [done|revert Hk; len]).
  rewrite <- Hk, Nat2Z.id.
  eapply fill_loop_value; [apply Forall_writable_construct|done..].
Qed.

(** ** reallocate(newCapacity), growing *)

Lemma reallocate_grows E s l cap c :
  represents s l cap →
  cap < c →
  E ∨ c ≤ max_size →
  wp E (reallocate c) s
    (λ _ s',
       owns s' (length (mem s))
         (map Some l ++ replicate (Z.to_nat c - length l) None) l
       ∧ released s s'
       ∧ others_kept s s').
Proof.
  intros Hrep Hc HE.
  pose proof (represents_bounds _ _ _ _ Hrep) as Hbounds.
  unfold kane.reallocate.
  wp_step ltac:(by eapply capacity_ok).
  destruct (Z.gtb_spec c cap) as [_|?]; [|lia].
  destruct Hrep as [(Hself & -> & ->) | (b & blk & Hown & ->)].
  - eapply wp_mono.
    { eapply really_reallocate_null_spec with (E := E); [done|lia|done]. }
    cbn beta. intros _ s' (Hown' & Hfr). split_and!.
    + cbn [map app length]. by rewrite Nat.sub_0_r.
    + intros b o Hd. by rewrite Hself in Hd.
    + intros b' Hb' _. by apply Hfr.
  - eapply wp_mono.
    { eapply (really_reallocate_spec _ _ _ E); [done|lia|done]. }
    cbn beta. intros _ s' (Hown' & Hfree & Hfr). split_and!; [done| |].
    + intros b0 o Hd. destruct Hown as (Hself & _).
      rewrite Hself in Hd. by injection Hd as <- _.
    + intros b' Hb' Hne. apply Hfr; [|done].
      intros ->. destruct Hown as (Hself & _). apply (Hne 0).
      by rewrite Hself.
Qed.

Lemma best_capacity_ok s l cap needed :
  represents s l cap →
  best_capacity needed s = Ok (Z.max needed (next_capacity cap)) s.
Proof.
  intros H. unfold best_capacity.
  erewrite bind_ok by (by eapply next_capacity_self_ok). done.
Qed.

(** ** emplace_back_n_internal for a positive count *)

(** The last steps of the branch with room: the exemplar is the last
    element, the copies follow it. *)
Lemma fill_after_exemplar s b blk l x (k : nat) :
  owns s b blk (l ++ [x]) →
  (length l + Datatypes.S k ≤ length blk)%nat →
  ∃ s' blk',
    (e <- iend ;;
     r <- construct_n e (Z.of_nat k) (ref_elem (ptr_add e (-1))) ;;
     set_iend r ;;
     ret (ptr_add e (-1))) s
    = Ok (Ptr b (Z.of_nat (length l))) s'
    ∧ owns s' b blk' (l ++ replicate (Datatypes.S k) x)
    ∧ length blk' = length blk.
Proof.
  intros Hown Hroom.
  pose proof (owns_split _ _ _ _ _ Hown) as Hsplit.
  destruct Hown as (Hself & Hb & Ht & Hmax).
  rewrite length_app in *. cbn [length] in *.
  assert (Hbl : (b < length (mem s))%nat) by (by eapply lookup_lt_Some).
  set (R := drop (length l + 1) blk) in *.
  assert (HR : length R = (length blk - (length l + 1))%nat)
    by (subst R; len).
  exists (set_cursors
            (mk_vector (Ptr b 0) (Ptr b (Z.of_nat (length l + 1) + Z.of_nat k))
               (Ptr b (Z.of_nat (length blk))))
            (set_block b
               (map Some (l ++ [x]) ++ replicate (length (take k R)) (Some x)
                  ++ drop k R) s)),
    (map Some (l ++ [x]) ++ replicate (length (take k R)) (Some x)
       ++ drop k R).
  assert (Hk : length (take k R) = k) by len.
  split_and!.
  - mpure. rewrite Hself. cbn [m_size ptr_add].
    replace (Z.of_nat (length l + 1) + -1) with (Z.of_nat (length l)) by lia.
    mnext.
    { eapply (construct_n_exemplar _ x b (map Some (l ++ [x])) (take k R)
                (drop k R)); [len| |len|].
      - rewrite Hb, take_drop. by rewrite Hsplit at 1.
      - rewrite map_app. cbn [map]. apply list_lookup_middle. len. }
    mstep ltac:(apply set_iend_ok). self_simpl. rewrite Hself.
    cbn [m_data m_capacity]. reflexivity.
  - eapply (owns_intro _ _ _ _ _ (drop k R)).
    + self_simpl. reflexivity.
    + len.
    + len.
    + by lookup_simpl.
    + rewrite Hk. rewrite !map_app, map_replicate, <- !app_assoc. done.
    + revert Hmax. len.
  - len.
Qed.

(** Not full: one element is emplaced in place, the array is reallocated
    if the others do not fit, and the others are copied from the first. *)
Lemma emplace_back_n_internal_room E s b blk l val x (k : nat) :
  owns s b blk l →
  (length l < length blk)%nat →
  ref_reads s val x →
  Z.of_nat (length l + Datatypes.S k) ≤ max_size →
  E ∨ (Z.of_nat (length blk) < Z.of_nat (length l + Datatypes.S k) →
       next_capacity (Z.of_nat (length blk)) ≤ max_size) →
  wp E (emplace_back_n_internal (Z.of_nat (Datatypes.S k)) val) s
    (λ r s',
       ∃ b' blk',
         owns s' b' blk' (l ++ replicate (Datatypes.S k) x)
         ∧ r = Ptr b' (Z.of_nat (length l))
         ∧ Z.of_nat (length blk')
           = grown_capacity (Z.of_nat (length blk))
               (Z.of_nat (length l + Datatypes.S k))).
Proof.
  intros Hown Hlt Hval Hmax HE.
  pose proof (owns_represents _ _ _ _ _ Hown) as Hrep.
  pose proof (represents_bounds _ _ _ _ Hrep) as Hbounds.
  pose proof (max_size_bound sizeof_T) as Hms.
  pose proof (max_size_lt_modulus sizeof_T) as Hmod.
  unfold kane.emplace_back_n_internal, grown_capacity.
  wp_step ltac:(by eapply full_ok).
  destruct (Z.eqb_spec (Z.of_nat (length l)) (Z.of_nat (length blk)));
    [lia|]. cbn [negb].
  apply wp_bind. eapply wp_mono.
  { by eapply (emplace_back_internal_room _ _ _ _ E). }
  cbn beta. intros r1 s1 (_ & Hown1 & _).
  pose proof (owns_represents _ _ _ _ _ Hown1) as Hrep1.
  rewrite length_insert in Hrep1.
  replace (wrap (Z.of_nat (Datatypes.S k) - 1)) with (Z.of_nat k)
    by (rewrite wrap_small; lia).
  wp_step ltac:(by eapply many_ok).
  rewrite length_app. cbn [length].
  rewrite wrap_small by lia.
  destruct (Z.gtb_spec (Z.of_nat (length l + 1) + Z.of_nat k)
              (Z.of_nat (length blk))) as [Hgrow|Hfits].
  - (* the copies do not fit *)
    destruct (Z.leb_spec (Z.of_nat (length l + Datatypes.S k))
                (Z.of_nat (length blk))) as [?|_]; [lia|].
    set (c := Z.max (Z.of_nat (length l + Datatypes.S k))
                (next_capacity (Z.of_nat (length blk)))).
    assert (HEc : E ∨ c ≤ max_size).
    { destruct HE as [?|HE]; [by left|right]. subst c. specialize (HE ltac:(lia)).
      lia. }
    apply wp_bind. wp_step ltac:(by eapply size_ok).
    rewrite length_app. cbn [length]. rewrite wrap_small by lia.
    wp_step ltac:(by eapply best_capacity_ok).
    replace (Z.of_nat (length l + 1) + Z.of_nat k)
      with (Z.of_nat (length l + Datatypes.S k)) by lia. fold c.
    eapply wp_mono.
    { eapply (reallocate_grows E); [done|lia|done]. }
    cbn beta. intros _ s2 (Hown2 & _ & _).
    destruct (fill_after_exemplar s2 _ _ l x k Hown2)
      as (s3 & blk3 & Hrun & Hown3 & Hlen3).
    { rewrite length_app, length_map, length_replicate, length_app.
      cbn [length]. lia. }
    eapply wp_ok; [exact Hrun|].
    eexists _, blk3. split_and!; [done|done|].
    rewrite Hlen3. rewrite length_app, length_map, length_replicate, length_app.
    cbn [length]. lia.
  - (* they fit *)
    destruct (Z.leb_spec (Z.of_nat (length l + Datatypes.S k))
                (Z.of_nat (length blk))) as [_|?]; [|lia].
    apply wp_bind. apply wp_ret.
    destruct (fill_after_exemplar s1 _ _ l x k Hown1)
      as (s3 & blk3 & Hrun & Hown3 & Hlen3).
    { rewrite length_insert. lia. }
    eapply wp_ok; [exact Hrun|].
    eexists _, blk3. split_and!; [done|done|].
    by rewrite Hlen3, length_insert.
Qed.

(** Full, [use_simple_insert]: a temporary, [reallocate], then the copies
    of the temporary. *)
Lemma emplace_back_n_internal_full_simple E s l cap val x (k : nat) :
  use_simple_insert = true →
  represents s l cap →
  Z.of_nat (length l) = cap →
  ref_reads s val x →
  Z.of_nat (length l + Datatypes.S k) ≤ max_size →
  E ∨ next_capacity cap ≤ max_size →
  wp E (emplace_back_n_internal (Z.of_nat (Datatypes.S k)) val) s
    (λ r s',
       ∃ b' blk',
         owns s' b' blk' (l ++ replicate (Datatypes.S k) x)
         ∧ r = Ptr b' (Z.of_nat (length l))
         ∧ Z.of_nat (length blk')
           = grown_capacity cap (Z.of_nat (length l + Datatypes.S k))).
Proof.
  intros Hsimple Hrep Hfull Hval Hmax HE. subst cap.
  pose proof (represents_bounds _ _ _ _ Hrep) as Hbounds.
  pose proof (max_size_bound sizeof_T) as Hms.
  pose proof (max_size_lt_modulus sizeof_T) as Hmod.
  unfold kane.emplace_back_n_internal, grown_capacity.
  wp_step ltac:(by eapply full_ok).
  rewrite Z.eqb_refl, Hsimple. cbn [negb].
  destruct (Z.leb_spec (Z.of_nat (length l + Datatypes.S k))
              (Z.of_nat (length l))) as [?|_]; [lia|].
  set (c := Z.max (Z.of_nat (length l + Datatypes.S k))
              (next_capacity (Z.of_nat (length l)))).
  assert (HEc : E ∨ c ≤ max_size).
  { destruct HE as [?|HE]; [by left|right]. subst c. lia. }
  wp_step ltac:(by apply read_ref_ok).
  wp_step ltac:(by eapply size_ok).
  rewrite wrap_small by lia.
  wp_step ltac:(by eapply best_capacity_ok).
  replace (Z.of_nat (length l) + Z.of_nat (Datatypes.S k))
    with (Z.of_nat (length l + Datatypes.S k)) by lia. fold c.
  apply wp_bind. eapply wp_mono.
  { eapply (reallocate_grows E); [done|lia|done]. }
  cbn beta. intros _ s1 (Hown1 & _ & _).
  pose proof Hown1 as (Hself1 & Hb1 & _ & Hmax1).
  assert (Hbl : (length (mem s) < length (mem s1))%nat)
    by (by eapply lookup_lt_Some).
  set (rest := (Z.to_nat c - length l - Datatypes.S k)%nat).
  eapply wp_ok.
  { mpure. rewrite Hself1. cbn [m_size].
    mnext.
    { eapply (construct_n_value _ x _ (map Some l)
                (replicate (Datatypes.S k) None) (replicate rest None));
        [len| |len].
      rewrite Hb1. do 3 f_equal. rewrite <- replicate_add. f_equal.
      subst rest. lia. }
    mstep ltac:(apply set_iend_ok). reflexivity. }
  cbn beta.
  eexists _, (map Some l ++ replicate (Datatypes.S k) (Some x)
                ++ replicate rest None).
  assert (Hrest : Z.of_nat (length l + Datatypes.S k + rest) = c).
  { revert Hmax1. subst rest. len. }
  split_and!; [|reflexivity|len].
  eapply (owns_intro _ _ _ _ _ (replicate rest None)).
  - self_simpl. rewrite Hself1. cbn [m_data m_capacity]. reflexivity.
  - len.
  - revert Hmax1. len.
  - lookup_simpl. by rewrite length_replicate.
  - by rewrite map_app, map_replicate, <- app_assoc.
  - revert Hmax1. len.
Qed.

(** Full, not [use_simple_insert]: the first new element is constructed
    in the new array, the others are copied from it, and then the old
    elements are moved in front of them. *)
Lemma emplace_back_n_internal_full_complex E s l cap val x (k : nat) :
  use_simple_insert = false →
  represents s l cap →
  Z.of_nat (length l) = cap →
  ref_reads s val x →
  Z.of_nat (length l + Datatypes.S k) ≤ max_size →
  E ∨ next_capacity cap ≤ max_size →
  wp E (emplace_back_n_internal (Z.of_nat (Datatypes.S k)) val) s
    (λ r s',
       ∃ b' blk',
         owns s' b' blk' (l ++ replicate (Datatypes.S k) x)
         ∧ r = Ptr b' (Z.of_nat (length l))
         ∧ Z.of_nat (length blk')
           = grown_capacity cap (Z.of_nat (length l + Datatypes.S k))).
Proof.
  intros Hsimple Hrep Hfull Hval Hmax HE. subst cap.
  pose proof (represents_bounds _ _ _ _ Hrep) as Hbounds.
  pose proof (max_size_bound sizeof_T) as Hms.
  pose proof (max_size_lt_modulus sizeof_T) as Hmod.
  unfold kane.emplace_back_n_internal, grown_capacity.
  wp_step ltac:(by eapply full_ok).
  rewrite Z.eqb_refl, Hsimple. cbn [negb].
  destruct (Z.leb_spec (Z.of_nat (length l + Datatypes.S k))
              (Z.of_nat (length l))) as [?|_]; [lia|].
  set (c := Z.max (Z.of_nat (length l + Datatypes.S k))
              (next_capacity (Z.of_nat (length l)))).
  assert (HEc : E ∨ c ≤ max_size).
  { destruct HE as [?|HE]; [by left|right]. subst c. lia. }
  wp_step ltac:(by eapply size_ok).
  rewrite wrap_small by lia.
  wp_step ltac:(by eapply best_capacity_ok).
  replace (Z.of_nat (length l) + Z.of_nat (Datatypes.S k))
    with (Z.of_nat (length l + Datatypes.S k)) by lia. fold c.
  replace (wrap (Z.of_nat (Datatypes.S k) - 1)) with (Z.of_nat k)
    by (rewrite wrap_small; lia).
  apply wp_bind. apply wp_allocate; [done|lia|]. intros Hc.
  set (nb := length (mem s)).
  set (rest := (Z.to_nat c - length l - Datatypes.S k)%nat).
  assert (Hrest : Z.of_nat (length l + Datatypes.S k + rest) = c)
    by (subst rest; lia).
  assert (Hnew : replicate (Z.to_nat c) (None : slot T)
                 = replicate (length l) None ++ None :: replicate k None
                     ++ replicate rest None).
  { change (None :: replicate k None ++ replicate rest None)
      with (replicate (Datatypes.S k) (None : slot T) ++ replicate rest None).
    rewrite <- !replicate_add. f_equal. lia. }
  set (filled := Some x :: replicate k (Some x) ++ replicate rest None).
  assert (Hpost : ∀ s',
    self s' = mk_vector (Ptr nb 0)
                (Ptr nb (Z.of_nat (length l) + 1 + Z.of_nat k)) (Ptr nb c) →
    mem s' !! nb = Some (Some (map Some l ++ filled)) →
    ∃ b' blk',
      owns s' b' blk' (l ++ replicate (Datatypes.S k) x)
      ∧ Ptr nb (0 + Z.of_nat (length l)) = Ptr b' (Z.of_nat (length l))
      ∧ Z.of_nat (length blk') = c).
  { intros s' Hself' Hnb. exists nb, (map Some l ++ filled). split_and!.
    - eapply (owns_intro _ _ _ _ _ (replicate rest None)); [done| | |done| |].
      + len.
      + subst filled. len.
      + subst filled. rewrite map_app, map_replicate, <- app_assoc. done.
      + subst filled. len.
    - by rewrite Z.add_0_l.
    - subst filled. len. }
  destruct Hrep as [(Hself & Hl & _) | (b & blk & Hown & Hcap)].
  - (* no array yet *)
    assert (l = []) as -> by done. cbn [length] in *.
    eapply wp_ok.
    { mstep ltac:(by apply read_ref_ok, ref_reads_alloc_block).
      cbn [ptr_add].
      mnext.
      { eapply (construct_mid nb _ [] (replicate k None ++ replicate rest None)
                  None); [|done].
        lookup_simpl. by rewrite Hnew. }
      mnext.
      { eapply (construct_n_exemplar _ x nb [Some x] (replicate k None)
                  (replicate rest None) _ 0); [len| |done|done].
        by lookup_simpl. }
      mpure. mpure. self_simpl. rewrite Hself. cbn [m_data m_size].
      mstep ltac:(apply move_construct_from_range_nil).
      mstep ltac:(apply destroy_range_empty).
      mpure. self_simpl. rewrite Hself. cbn [m_capacity].
      mstep ltac:(apply deallocate_to_null).
      mstep ltac:(apply reset_size_ok). reflexivity. }
    cbn beta. apply Hpost.
    + self_simpl. by rewrite ?Z.add_0_l.
    + lookup_simpl. subst filled. by rewrite length_replicate.
  - pose proof (owns_full_split _ _ _ _ _ Hown ltac:(lia)) as Hblk.
    pose proof Hown as (Hself & Hb & _ & _).
    assert (Hbl : (b < nb)%nat) by (by eapply lookup_lt_Some).
    eapply wp_ok.
    { mstep ltac:(by apply read_ref_ok, ref_reads_alloc_block).
      cbn [ptr_add].
      mnext.
      { eapply (construct_mid nb _ (replicate (length l) None)
                  (replicate k None ++ replicate rest None) None); [|len].
        lookup_simpl. by rewrite Hnew. }
      mnext.
      { rewrite Z.add_0_l.
        eapply (construct_n_exemplar _ x nb
                  (replicate (length l) None ++ [Some x]) (replicate k None)
                  (replicate rest None) _ (length l)); [len| |len|].
        - lookup_simpl. by rewrite <- app_assoc.
        - apply list_lookup_middle. len. }
      mpure. mpure. self_simpl. rewrite Hself. cbn [m_data m_size].
      mnext.
      { eapply (move_construct_from_range_ok moved_from l nb []
                  (replicate (length l) None) filled _ b [] []);
          [lia|len| |done| |done|len].
        - lookup_simpl. subst filled. rewrite length_replicate.
          by rewrite <- app_assoc.
        - lookup_simpl. by rewrite Hb, Hblk, app_nil_r. }
      cbn [app].
      mnext.
      { eapply (destroy_range_ok' _ (map moved_from l) b [] []); [|done|len].
        lookup_simpl. by rewrite app_nil_r. }
      mpure. self_simpl. rewrite Hself. cbn [m_capacity].
      mnext.
      { eapply (deallocate_to_ok b); [by lookup_simpl|len|len]. }
      mstep ltac:(apply reset_size_ok). reflexivity. }
    cbn beta. apply Hpost.
    + self_simpl. by rewrite ?Z.add_0_l.
    + by lookup_simpl.
Qed.

Lemma emplace_back_n_internal_spec E s l cap val x (k : nat) :
  represents s l cap →
  ref_reads s val x →
  Z.of_nat (length l + Datatypes.S k) ≤ max_size →
  E ∨ (cap < Z.of_nat (length l + Datatypes.S k) →
       next_capacity cap ≤ max_size) →
  wp E (emplace_back_n_internal (Z.of_nat (Datatypes.S k)) val) s
    (λ r s',
       represents s' (l ++ replicate (Datatypes.S k) x)
         (grown_capacity cap (Z.of_nat (length l + Datatypes.S k)))
       ∧ r = at_index s' (length l)).
Proof.
  intros Hrep Hval Hmax HE.
  pose proof (represents_bounds _ _ _ _ Hrep) as Hbounds.
  assert (Hpost : ∀ (r : pointer) s',
    (∃ b' blk',
       owns s' b' blk' (l ++ replicate (Datatypes.S k) x)
       ∧ r = Ptr b' (Z.of_nat (length l))
       ∧ Z.of_nat (length blk')
         = grown_capacity cap (Z.of_nat (length l + Datatypes.S k))) →
    represents s' (l ++ replicate (Datatypes.S k) x)
      (grown_capacity cap (Z.of_nat (length l + Datatypes.S k)))
    ∧ r = at_index s' (length l)).
  { intros r s' (b' & blk' & Hown' & -> & Hlen'). split.
    - right. exists b', blk'. by rewrite Hlen'.
    - by rewrite (ptr_add_at_index _ _ _ _ _ _ Hown'). }
  destruct (Z.eq_dec (Z.of_nat (length l)) cap) as [Hfull|Hroom].
  - assert (HE' : E ∨ next_capacity cap ≤ max_size).
    { destruct HE as [?|HE]; [by left|right]. apply HE. lia. }
    assert (use_simple_insert = true ∨ use_simple_insert = false)
      as [Hsimple|Hsimple] by (destruct use_simple_insert; auto).
    + eapply wp_mono; [by eapply emplace_back_n_internal_full_simple|done].
    + eapply wp_mono; [by eapply emplace_back_n_internal_full_complex|done].
  - destruct Hrep as [(_ & -> & ->) | (b & blk & Hown & ->)]; [done|].
    eapply wp_mono; [eapply emplace_back_n_internal_room; [done|lia|done..]|].
    done.
Qed.

(** [insert(end(), count, val)] is that append. *)
Lemma insert_n_end s l cap count val :
  represents s l cap →
  insert_n (at_index s (length l)) count val s
  = emplace_back_n_internal count val s.
Proof.
  intros Hrep. unfold kane.insert_n. mpure.
  replace (ptr_eqb (at_index s (length l)) (m_size (self s))) with true; [done|].
  symmetry. apply ptr_eqb_eq. unfold at_index.
  destruct Hrep as [(-> & -> & _) | (b & blk & (-> & _) & _)]; [done|].
  cbn [m_data m_size ptr_add]. by rewrite Z.add_0_l.
Qed.

(** ** resize(newSize, val) *)

Lemma resize_fill_spec E s l cap val x n :
  represents s l cap →
  ref_reads s val x →
  0 ≤ n ≤ max_size →
  E ∨ (cap < n → next_capacity cap ≤ max_size) →
  wp E (resize_fill n val) s
    (λ _ s',
       represents s'
         (take (Z.to_nat n) l ++ replicate (Z.to_nat n - length l) x)
         (grown_capacity cap n)).
Proof.
  intros Hrep Hval Hn HE.
  pose proof (represents_bounds _ _ _ _ Hrep) as Hbounds.
  pose proof (max_size_lt_modulus sizeof_T) as Hmod.
  unfold kane.resize_fill.
  wp_step ltac:(by eapply size_ok).
  destruct (Z.ltb_spec n (Z.of_nat (length l))) as [Hless|Hmore].
  - (* shrinking *)
    destruct Hrep as [(_ & -> & _) | (b & blk & Hown & ->)];
      [cbn [length] in *; lia|].
    rewrite <- (take_drop (Z.to_nat n) l) in Hown.
    destruct (truncate_internal_spec value_has_trivial_destroy sizeof_T
                _ _ _ _ _ Hown) as (s' & Hrun & Hown' & _).
    rewrite length_take, Nat.min_l in Hrun by lia.
    eapply wp_ok.
    { mpure. destruct Hown as (-> & _). cbn [m_data ptr_add].
      rewrite Z.add_0_l.
      replace n with (Z.of_nat (Z.to_nat n)) at 1 by lia.
      erewrite bind_ok by exact Hrun. reflexivity. }
    replace (Z.to_nat n - length l)%nat with 0%nat by lia.
    cbn [replicate]. rewrite app_nil_r.
    unfold grown_capacity.
    destruct (Z.leb_spec n (Z.of_nat (length blk))); [|lia].
    right. eexists b, _. split; [done|].
    pose proof (owns_length _ _ _ _ _ Hown) as Hle. revert Hle. len.
  - destruct (Z.eq_dec n (Z.of_nat (length l))) as [->|Hne].
    + (* the size asked for is the size *)
      rewrite Z.sub_diag. change (wrap 0 =? 0) with true. cbn [negb].
      apply wp_ret. rewrite Nat2Z.id, Nat.sub_diag, firstn_all. cbn [replicate].
      rewrite app_nil_r. unfold grown_capacity.
      by destruct (Z.leb_spec (Z.of_nat (length l)) cap); [|lia].
    + (* growing *)
      rewrite wrap_small by lia.
      destruct (Z.eqb_spec (n - Z.of_nat (length l)) 0) as [?|_]; [lia|].
      cbn [negb].
      destruct (Z.to_nat n - length l)%nat as [|k] eqn:Hk; [lia|].
      replace (n - Z.of_nat (length l)) with (Z.of_nat (Datatypes.S k)) by lia.
      rewrite take_ge by lia.
      replace n with (Z.of_nat (length l + Datatypes.S k)) by lia.
      apply wp_bind. eapply wp_mono.
      { eapply emplace_back_n_internal_spec; [done|done|lia|].
        destruct HE as [?|HE]; [by left|right]. intros ?. apply HE. lia. }
      cbn beta. intros r s' (Hrep' & _). by apply wp_ret.
Qed.

End Filling.

Section Assigning.

Context {T : Type}.
Variable moved_from : T → T.
Variable value_has_trivial_destroy : bool.
Variable sizeof_T : positive.

Local Abbreviation state := (state T).
Local Abbreviation M := (M T).
Local Abbreviation max_size := (max_size sizeof_T).
Local Abbreviation owns := (@owns T sizeof_T).
Local Abbreviation represents := (@represents T sizeof_T).
Local Abbreviation destroyed := (@destroyed T value_has_trivial_destroy).
Local Abbreviation assign_range := (@assign_range T value_has_trivial_destroy).
Local Abbreviation truncate_internal :=
  (@truncate_internal T value_has_trivial_destroy).
Local Abbreviation clear := (@clear T value_has_trivial_destroy).
Local Abbreviation reserve :=
  (@reserve T moved_from value_has_trivial_destroy sizeof_T).
Local Abbreviation assign_fill :=
  (@assign_fill T moved_from value_has_trivial_destroy sizeof_T).

Implicit Types (s : state) (blk L D G R : block T) (b : nat) (o : Z)
  (v x : T) (l vs xs P S : list T) (p : pointer) (val : reference T).

(** ** References that do not point into the array *)

Lemma reads_outside_block b blk s bv o x :
  mem s !! b = Some (Some blk) →
  reads_outside b s (ref_elem (Ptr bv o)) x → bv ≠ b.
Proof.
  intros Hb H ->. specialize (H []). cbn [ref_reads] in H.
  unfold read_slot in H. destruct (o <? 0); [done|].
  erewrite lookup_set_block_eq in H by done. by rewrite lookup_nil in H.
Qed.

Lemma reads_outside_later b2 s s' val x :
  ref_reads s val x →
  (∀ bv o, val = ref_elem (Ptr bv o) →
           mem s' !! bv = mem s !! bv ∧ bv ≠ b2) →
  reads_outside b2 s' val x.
Proof.
  intros Hval Hk blk. destruct val as [[|bv o]|y]; [done| |done].
  destruct (Hk bv o eq_refl) as [Hm Hne].
  cbn [ref_reads] in *. unfold read_slot in *.
  destruct (o <? 0); [done|].
  rewrite lookup_set_block_ne by done. by rewrite Hm.
Qed.

Lemma ref_reads_live s bv o x :
  ref_reads s (ref_elem (Ptr bv o)) x → (bv < length (mem s))%nat.
Proof.
  cbn [ref_reads]. unfold read_slot. destruct (o <? 0); [done|].
  destruct (mem s !! bv) eqn:H; [|done]. intros _. by eapply lookup_lt_Some.
Qed.

Lemma ptr_leb_same b o o' : ptr_leb (Ptr b o) (Ptr b o') = (o <=? o').
Proof.
  unfold ptr_leb. rewrite ptr_eqb_same, ptr_ltb_same.
  destruct (Z.eqb_spec o o'), (Z.ltb_spec o o'), (Z.leb_spec o o');
    first [done | lia].
Qed.

(** [assign_range] over constructed elements, whatever the kind of
    destruction. *)
Lemma assign_range_ref vs val x b L R o o' s :
  mem s !! b = Some (Some (L ++ map Some vs ++ R)) →
  o = Z.of_nat (length L) →
  o' = o + Z.of_nat (length vs) →
  reads_outside b s val x →
  assign_range (Ptr b o) (Ptr b o') val s
  = Ok (Ptr b o')
       (set_block b (L ++ replicate (length vs) (Some x) ++ R) s).
Proof.
  intros Hb Ho -> Hval. unfold kane.assign_range, construct_range.
  assert (Hfill : ∀ write,
    write = @construct T ∨ write = @assign T →
    fill_loop write (length vs) (Ptr b o) val s
    = Ok (Ptr b (o + Z.of_nat (length vs)))
         (set_block b (L ++ replicate (length vs) (Some x) ++ R) s)).
  { intros write Hw.
    eapply (fill_loop_ref _ _ val x _ L (map Some vs) R);
      [by apply Forall_writable_Some|len|done..]. }
  destruct value_has_trivial_destroy.
  - mnext.
    { mstep ltac:(apply range_length_nat).
      mstep ltac:(apply Hfill; by left). reflexivity. }
    reflexivity.
  - mstep ltac:(apply range_length_nat).
    mstep ltac:(apply Hfill; by right). reflexivity.
Qed.

(** ** assign(newSize, val) *)

Lemma assign_fill_spec E s l cap n val x :
  represents s l cap →
  ref_reads s val x →
  (∀ b o, m_data (self s) = Ptr b o → reads_outside b s val x) →
  0 ≤ n →
  E ∨ n ≤ max_size →
  wp E (assign_fill n val) s
    (λ _ s',
       represents s' (replicate (Z.to_nat n) x) (Z.max cap n)
       ∧ (n ≤ cap → in_place s s')).
Proof.
  intros Hrep Hval Hout Hn HE.
  pose proof (represents_bounds _ _ _ _ Hrep) as Hbounds.
  assert (Hclear : ∃ s1, clear s = Ok tt s1
            ∧ represents s1 [] cap
            ∧ ref_reads s1 val x
            ∧ (∀ b o, m_data (self s1) = Ptr b o → reads_outside b s1 val x)
            ∧ in_place s s1).
  { destruct Hrep as [(Hself & -> & ->) | (b & blk & Hown & ->)].
    - exists s. split_and!; [by apply clear_null|by left|done|done|done].
    - destruct (clear_owns value_has_trivial_destroy sizeof_T s b blk l Hown)
        as (s1 & Hrun & Hown1 & Hml & Hfr).
      pose proof (owns_length _ _ _ _ _ Hown) as Hlen.
      pose proof Hown as (Hself & Hb & _).
      pose proof Hown1 as (Hself1 & Hb1 & _).
      assert (Ho : reads_outside b s val x)
        by (apply (Hout b 0); by rewrite Hself).
      assert (Ho1 : reads_outside b s1 val x).
      { apply (reads_outside_later _ s); [done|]. intros bv o ->.
        assert (bv ≠ b) by exact (reads_outside_block _ _ _ _ _ _ Hb Ho).
        split; [by apply Hfr|done]. }
      assert (Hlb : length (destroyed l ++ drop (length l) blk) = length blk)
        by len.
      exists s1. split_and!; [done| | | |].
      + right. exists b, (destroyed l ++ drop (length l) blk).
        split; [done|]. by rewrite Hlb.
      + by eapply reads_outside_now.
      + intros b' o Hd. rewrite Hself1 in Hd. by injection Hd as <- _.
      + by eapply owns_in_place. }
  destruct Hclear as (s1 & Hrun1 & Hrep1 & Hval1 & Hout1 & Hplace1).
  unfold kane.assign_fill.
  destruct (Z.eqb_spec n 0) as [->|Hn0].
  { eapply wp_ok; [exact Hrun1|]. cbn [Z.to_nat replicate].
    rewrite Z.max_l by lia. done. }
  apply wp_bind.
  match goal with
  | |- wp _ ?m _ _ =>
      assert (∃ r : bool, m s = Ok r s ∧ (r = false → n ≤ cap))
        as (r & Hr & Hrcap)
  end.
  { destruct value_has_trivial_destroy; [by exists true|].
    exists (n >? cap). erewrite bind_ok by (by eapply capacity_ok).
    split; [done|]. destruct (Z.gtb_spec n cap); [done|lia]. }
  eapply wp_ok; [exact Hr|]. cbn beta.
  set (k := Z.to_nat n).
  destruct r.
  - (* clear, reserve and construct *)
    apply wp_bind. eapply wp_ok; [exact Hrun1|]. cbn beta.
    apply wp_bind.
    assert (Hres : wp E (reserve n) s1
              (λ _ s2, ∃ b2 blk2,
                 owns s2 b2 blk2 []
                 ∧ Z.of_nat (length blk2) = Z.max cap n
                 ∧ reads_outside b2 s2 val x
                 ∧ (n ≤ cap → s2 = s1))).
    { destruct (Z.le_gt_cases n cap) as [Hle|Hgt].
      - eapply wp_mono.
        { eapply (reserve_spec moved_from value_has_trivial_destroy sizeof_T);
            [exact Hrep1|lia|done]. }
        cbn beta. intros _ s2 (_ & Hsame & _). rewrite (Hsame Hle).
        destruct Hrep1 as [(_ & _ & ->) | (b & blk & Hown & ->)]; [lia|].
        exists b, blk. split_and!; [done|lia| |done].
        apply (Hout1 b 0). by destruct Hown as (-> & _).
      - unfold kane.reserve. eapply wp_mono.
        { eapply (reallocate_grows moved_from value_has_trivial_destroy
                    sizeof_T E); [exact Hrep1|lia|done]. }
        cbn beta. intros _ s2 (Hown2 & _ & Hkept).
        eexists _, _. split_and!; [exact Hown2| | |lia].
        + cbn [map app length]. rewrite length_replicate. lia.
        + apply (reads_outside_later _ s1); [done|]. intros bv o ->.
          pose proof (ref_reads_live _ _ _ _ Hval1) as Hlt. split; [|lia].
          apply Hkept; [done|]. intros o' Hd.
          destruct Hrep1 as [(Hself & _) | (b & blk & (Hself & Hb & _) & _)];
            rewrite Hself in Hd; [done|].
          injection Hd as -> _.
          assert (bv ≠ bv); [|done].
          eapply reads_outside_block; [exact Hb|].
          apply (Hout1 bv 0). by rewrite Hself. }
    eapply wp_mono; [exact Hres|]. cbn beta.
    intros _ s2 (b2 & blk2 & Hown2 & Hlen2 & Hout2 & Hsame).
    pose proof Hown2 as (Hself2 & Hb2 & _ & Hmax2).
    assert (Hb2l : (b2 < length (mem s2))%nat) by (by eapply lookup_lt_Some).
    eapply wp_ok.
    { mpure. rewrite Hself2. cbn [m_data].
      mnext.
      { unfold construct_n.
        mstep ltac:(eapply rounds_within; [done|lia]).
        eapply (fill_loop_ref _ _ val x _ [] (take k blk2) (drop k blk2));
          [apply Forall_writable_construct|subst k; len| |done|done].
        by rewrite Hb2, app_nil_l, take_drop. }
      apply set_iend_ok. }
    cbn beta.
    assert (Hown' : owns
      (set_cursors (mk_vector (Ptr b2 0) (Ptr b2 (0 + Z.of_nat k))
                      (Ptr b2 (Z.of_nat (length blk2))))
         (set_block b2 (replicate k (Some x) ++ drop k blk2) s2))
      b2 (replicate k (Some x) ++ drop k blk2) (replicate k x)).
    { eapply (owns_intro _ _ _ _ _ (drop k blk2)).
      - reflexivity.
      - len.
      - subst k; len.
      - lookup_simpl. done.
      - by rewrite map_replicate.
      - subst k; len. }
    split.
    + right. eexists b2, _. split.
      * self_simpl. rewrite Hself2. cbn [m_data m_capacity]. exact Hown'.
      * subst k; len.
    + intros Hle. rewrite (Hsame Hle) in *.
      destruct Hplace1 as (Hd1 & Hc1 & Hm1). unfold in_place.
      self_simpl. cbn [mem self]. rewrite <- Hd1, <- Hc1, <- Hm1.
      split_and!; [done|done|]. heap_len.
  - (* assign over the elements, then truncate or construct *)
    specialize (Hrcap eq_refl).
    destruct Hrep as [(_ & _ & ->) | (b & blk & Hown & ->)]; [lia|].
    pose proof (owns_split _ _ _ _ _ Hown) as Hsplit.
    pose proof (owns_length _ _ _ _ _ Hown) as Hlen.
    pose proof Hown as (Hself & Hb & _ & Hmax).
    assert (Hbl : (b < length (mem s))%nat) by (by eapply lookup_lt_Some).
    assert (Hob : reads_outside b s val x)
      by (apply (Hout b 0); by rewrite Hself).
    set (R0 := drop (length l) blk) in *.
    assert (HR0 : length R0 = (length blk - length l)%nat)
      by (subst R0; len).
    destruct (Z.le_gt_cases n (Z.of_nat (length l))) as [Hin|Hext].
    + (* the new size is within the old one *)
      set (blk1 := replicate k (Some x) ++ map Some (drop k l) ++ R0).
      assert (Hrun : assign_range (Ptr b 0) (Ptr b (0 + n)) val s
                     = Ok (Ptr b (0 + n)) (set_block b blk1 s)).
      { subst blk1. replace (replicate k (Some x)) with
          (replicate (length (take k l)) (Some x)) by (f_equal; subst k; len).
        eapply (assign_range_ref (take k l) val x b []
                  (map Some (drop k l) ++ R0) 0 (0 + n));
          [|done|subst k; len|done].
        rewrite Hb, Hsplit at 1. cbn [app].
        rewrite app_assoc, <- map_app, take_drop. done. }
      destruct (truncate_internal_spec value_has_trivial_destroy sizeof_T
                  (set_block b blk1 s) b blk1 (replicate k x) (drop k l))
        as (s' & Hrun' & Hown' & Hml & _).
      { eapply (owns_intro _ _ _ _ _ R0).
        - self_simpl. exact Hself.
        - subst k; len.
        - subst blk1 k; len.
        - by lookup_simpl.
        - subst blk1. by rewrite map_app, map_replicate, <- app_assoc.
        - subst blk1 k. revert Hmax. len. }
      rewrite length_replicate in Hrun'.
      eapply wp_ok.
      { mpure. cbn zeta. mpure. mpure. mpure.
        rewrite Hself. cbn [m_data m_size ptr_add].
        rewrite ptr_leb_same.
        destruct (Z.leb_spec (0 + n) (Z.of_nat (length l))) as [_|?]; [|lia].
        mstep ltac:(exact Hrun).
        replace (0 + n) with (Z.of_nat k) by (subst k; lia).
        mstep ltac:(exact Hrun'). reflexivity. }
      cbn beta. split.
      * right. eexists b, _. split; [exact Hown'|].
        rewrite Z.max_l by lia. subst blk1 k. len.
      * intros _. eapply owns_in_place; [exact Hown|exact Hown'| |].
        -- subst blk1 k. len.
        -- rewrite Hml. heap_len.
    + (* the new size is beyond the old one *)
      set (blk1 := replicate (length l) (Some x) ++ R0).
      assert (Hrun : assign_range (Ptr b 0) (Ptr b (Z.of_nat (length l))) val s
                     = Ok (Ptr b (Z.of_nat (length l))) (set_block b blk1 s)).
      { subst blk1.
        eapply (assign_range_ref l val x b [] R0 0); [|done|lia|done].
        by rewrite Hb, Hsplit at 1. }
      set (m := (k - length l)%nat).
      set (blk2 := replicate (length l) (Some x) ++ replicate m (Some x)
                     ++ drop m R0).
      assert (Hrun2 : construct_range (Ptr b (Z.of_nat (length l)))
                        (Ptr b (0 + n)) val (set_block b blk1 s)
                      = Ok (Ptr b (0 + n)) (set_block b blk2 s)).
      { unfold construct_range.
        replace (0 + n) with (Z.of_nat (length l) + Z.of_nat m)
          by (subst m k; lia).
        mstep ltac:(apply range_length_nat).
        mnext.
        { eapply (fill_loop_ref _ _ val x _ (replicate (length l) (Some x))
                    (take m R0) (drop m R0));
            [apply Forall_writable_construct|subst m k; len| |len|].
          - lookup_simpl. subst blk1. by rewrite take_drop.
          - by apply reads_outside_set_block. }
        rewrite set_block_set_block. reflexivity. }
      eapply wp_ok.
      { mpure. cbn zeta. mpure. mpure. mpure.
        rewrite Hself. cbn [m_data m_size ptr_add].
        rewrite ptr_leb_same.
        destruct (Z.leb_spec (0 + n) (Z.of_nat (length l))) as [?|_]; [lia|].
        mstep ltac:(exact Hrun).
        mpure. cbn [self set_block]. rewrite Hself. cbn [m_size].
        mstep ltac:(exact Hrun2).
        apply set_iend_ok. }
      cbn beta.
      assert (Hown' : owns
        (set_cursors (mk_vector (Ptr b 0) (Ptr b (0 + n))
                        (Ptr b (Z.of_nat (length blk))))
           (set_block b blk2 s))
        b blk2 (replicate k x)).
      { eapply (owns_intro _ _ _ _ _ (drop m R0)).
        - reflexivity.
        - subst k; len.
        - subst blk2 m k; len.
        - by lookup_simpl.
        - subst blk2. rewrite map_replicate, app_assoc, <- replicate_add.
          do 2 f_equal. subst m k. lia.
        - subst blk2 m k. revert Hmax. len. }
      self_simpl. rewrite Hself. cbn [m_data m_capacity]. split.
      * right. eexists b, _. split; [exact Hown'|].
        rewrite Z.max_l by lia. subst blk2 m k. len.
      * intros _. eapply owns_in_place; [exact Hown|exact Hown'| |].
        -- subst blk2 m k. len.
        -- heap_len.
Qed.

End Assigning.

(** * The checked properties *)

(** A vector of integers with elements [l] alone in memory, in an array of
    [length l + room] slots. *)
Definition int_vector (l : list Z) (room : nat) : state Z :=
  mk_state
    (mk_vector (Ptr 0 0) (Ptr 0 (Z.of_nat (length l)))
       (Ptr 0 (Z.of_nat (length l + room))))
    [Some (map Some l ++ replicate room None)].

(** The default-constructed vector: three null cursors, nothing allocated. *)
Definition null_state : state Z := mk_state (mk_vector Null Null Null) [].

Section Claims.

Context {T : Type}.
Variable moved_from : T → T.
Variable value_has_trivial_destroy : bool.
Variable use_simple_insert : bool.
Variable sizeof_T : positive.

Local Abbreviation state := (state T).
Local Abbreviation max_size := (max_size sizeof_T).
Local Abbreviation represents := (@represents T sizeof_T).
Local Abbreviation push_back :=
  (@push_back T moved_from value_has_trivial_destroy use_simple_insert sizeof_T).
Local Abbreviation pop_back := (@pop_back T value_has_trivial_destroy).

(** C4: [next_capacity(c)] is 2 when [c = 0] and [2 * c] otherwise, for
    every value [c] a capacity can take; and [push_back] on a full vector
    of size 4 and capacity 4 returns normally, leaving size 5 and capacity
    exactly 8, the four previous elements in order and the pushed value
    at the end. *)
Theorem C4_push_back_full_doubles :
  (∀ c, 0 ≤ c ≤ ptrdiff_max →
        next_capacity c = if c =? 0 then 2 else 2 * c)
  ∧ ∀ (s : state) a b c d val x,
      represents s [a; b; c; d] 4 →
      ref_reads s val x →
      8 ≤ max_size →
      ∃ s', push_back val s = Ok tt s'
            ∧ elements s' = Some [a; b; c; d; x]
            ∧ size s' = Ok 5 s'
            ∧ capacity s' = Ok 8 s'.
Proof.
  split; [apply next_capacity_small|].
  intros s a b c d val x Hrep Hval Hmax.
  pose proof (push_back_spec moved_from value_has_trivial_destroy
                use_simple_insert sizeof_T False s _ _ val x Hrep Hval) as H.
  apply wp_total in H as ([] & s' & Hrun & Hrep'); [|by right].
  change (next_capacity 4) with 8 in Hrep'. cbn [length Z.of_nat Z.eqb
    Pos.of_succ_nat Pos.succ Pos.eqb app] in Hrep'.
  exists s'. split_and!; [done|..].
  - by eapply represents_elements.
  - by eapply (size_ok _ _ [a; b; c; d; x]).
  - by eapply capacity_ok.
Qed.

(** C9: [pop_back()] on a vector for which [empty()] holds returns
    normally and changes nothing: not the cursors, so neither size nor
    capacity, and not the memory, so not the element sequence. *)
Theorem C9_pop_back_empty_noop (s : state) :
  empty s = Ok true s →
  pop_back s = Ok tt s
  ∧ ∀ s', pop_back s = Ok tt s' →
          size s' = size s ∧ capacity s' = capacity s
          ∧ elements s' = elements s.
Proof.
  intros Hempty.
  assert (Hrun : pop_back s = Ok tt s).
  { unfold kane.pop_back. by erewrite bind_ok by exact Hempty. }
  split; [done|]. intros s' Hs'. rewrite Hrun in Hs'. by injection Hs' as <-.
Qed.

End Claims.

Lemma C4_push_back_full_doubles_witness :
  ∃ s', push_back id false true 4 (ref_value 5) (int_vector [1; 2; 3; 4] 0)
        = Ok tt s'
        ∧ elements s' = Some [1; 2; 3; 4; 5]
        ∧ size s' = Ok 5 s'
        ∧ capacity s' = Ok 8 s'.
Proof.
  apply (proj2 (C4_push_back_full_doubles id false true 4)).
  - right. exists 0%nat, [Some 1; Some 2; Some 3; Some 4].
    vm_compute. repeat split; congruence.
  - reflexivity.
  - vm_compute. congruence.
Defined.

Lemma C9_pop_back_empty_noop_witness :
  pop_back false null_state = Ok tt null_state
  ∧ ∀ s', pop_back false null_state = Ok tt s' →
          size s' = size null_state ∧ capacity s' = capacity null_state
          ∧ elements s' = elements null_state.
Proof. apply (C9_pop_back_empty_noop false null_state). reflexivity. Defined.

(** * Further properties of the container *)

Section Further.

Context {T : Type}.
Variable moved_from : T → T.
Variable value_has_trivial_destroy : bool.
Variable use_simple_insert : bool.
Variable sizeof_T : positive.
Variable value_default : T.

Local Abbreviation state := (state T).
Local Abbreviation max_size := (max_size sizeof_T).
Local Abbreviation represents := (@represents T sizeof_T).
Local Abbreviation vector_is := (@vector_is T sizeof_T).
Local Abbreviation push_back :=
  (@push_back T moved_from value_has_trivial_destroy use_simple_insert sizeof_T).
Local Abbreviation pop_back := (@pop_back T value_has_trivial_destroy).
Local Abbreviation clear := (@clear T value_has_trivial_destroy).
Local Abbreviation erase_at :=
  (@erase_at T moved_from value_has_trivial_destroy).
Local Abbreviation take_back :=
  (@take_back T moved_from value_has_trivial_destroy value_default).
Local Abbreviation take_at :=
  (@take_at T moved_from value_has_trivial_destroy).
Local Abbreviation reserve :=
  (@reserve T moved_from value_has_trivial_destroy sizeof_T).
Local Abbreviation shrink_to_fit :=
  (@shrink_to_fit T moved_from value_has_trivial_destroy sizeof_T).
Local Abbreviation destructor := (@destructor T value_has_trivial_destroy).
Local Abbreviation vector_base_capacity := (@vector_base_capacity T sizeof_T).
Local Abbreviation vector_fill := (@vector_fill T sizeof_T).
Local Abbreviation vector_copy := (@vector_copy T moved_from sizeof_T).
Local Abbreviation xpush_back :=
  (@xpush_back T moved_from value_has_trivial_destroy sizeof_T).
Local Abbreviation insert_iter :=
  (@insert_iter T moved_from value_has_trivial_destroy sizeof_T).
Local Abbreviation move_construct_from_range :=
  (@move_construct_from_range T moved_from).
Local Abbreviation resize_fill :=
  (@resize_fill T moved_from value_has_trivial_destroy use_simple_insert
     sizeof_T).
Local Abbreviation insert_n :=
  (@insert_n T moved_from value_has_trivial_destroy use_simple_insert
     sizeof_T).
Local Abbreviation assign_fill :=
  (@assign_fill T moved_from value_has_trivial_destroy sizeof_T).

Lemma represents_vector_is (s : state) l cap :
  represents s l cap → vector_is s l cap.
Proof.
  intros H. split_and!; [done|..].
  - by eapply represents_elements.
  - by eapply size_ok.
  - by eapply capacity_ok.
Qed.

(** X1: [push_back(val)] on any vector appends the value [val] refers to
    when called, also when [val] is an element of the vector itself and
    the array is reallocated; the capacity stays when there was room and
    becomes [next_capacity(capacity())] when the vector was full. *)
Theorem X1_push_back_appends (s : state) l cap val x :
  represents s l cap →
  ref_reads s val x →
  (Z.of_nat (length l) = cap → next_capacity cap ≤ max_size) →
  ∃ s', push_back val s = Ok tt s'
        ∧ vector_is s' (l ++ [x])
            (if Z.of_nat (length l) =? cap then next_capacity cap else cap).
Proof.
  intros Hrep Hval Hmax.
  pose proof (push_back_spec moved_from value_has_trivial_destroy
                use_simple_insert sizeof_T False s l cap val x Hrep Hval) as H.
  apply wp_total in H as ([] & s' & Hrun & Hrep'); [|by right].
  exists s'. split; [done|]. by apply represents_vector_is.
Qed.

(** X2: [pop_back()] on a vector that is not empty removes the last
    element and nothing else, in place: the array and the capacity are
    the ones before. *)
Theorem X2_pop_back_removes_last (s : state) l x cap :
  represents s (l ++ [x]) cap →
  ∃ s', pop_back s = Ok tt s'
        ∧ vector_is s' l cap
        ∧ in_place s s'.
Proof.
  intros [(_ & ? & _) | (b & blk & Hown & ->)]; [by destruct l|].
  destruct (pop_back_owns value_has_trivial_destroy sizeof_T _ _ _ _ _ Hown)
    as (s' & blk' & Hrun & Hown' & Hlen & Hml & _).
  exists s'. split_and!; [done| |by eapply owns_in_place].
  apply represents_vector_is. right. exists b, blk'. by rewrite Hlen.
Qed.

(** X3: [push_back(val)] followed by [pop_back()] gives back the elements
    and the size the vector had; only the capacity may have grown. *)
Theorem X3_push_back_pop_back (s : state) l cap val x :
  represents s l cap →
  ref_reads s val x →
  (Z.of_nat (length l) = cap → next_capacity cap ≤ max_size) →
  ∃ s1 s2, push_back val s = Ok tt s1
           ∧ pop_back s1 = Ok tt s2
           ∧ vector_is s2 l
               (if Z.of_nat (length l) =? cap then next_capacity cap else cap).
Proof.
  intros Hrep Hval Hmax.
  pose proof (push_back_spec moved_from value_has_trivial_destroy
                use_simple_insert sizeof_T False s l cap val x Hrep Hval) as H.
  apply wp_total in H as ([] & s1 & Hpush & Hrep1); [|by right].
  pose proof (pop_back_spec value_has_trivial_destroy sizeof_T s1 _ _ Hrep1)
    as H.
  apply wp_total in H as ([] & s2 & Hpop & Hrep2 & _).
  rewrite removelast_last in Hrep2.
  exists s1, s2. split_and!; [done|done|by apply represents_vector_is].
Qed.

(** X4: [clear()] leaves the vector empty and keeps its array and its
    capacity: nothing is deallocated. *)
Theorem X4_clear_keeps_capacity (s : state) l cap :
  represents s l cap →
  ∃ s', clear s = Ok tt s' ∧ vector_is s' [] cap ∧ in_place s s'.
Proof.
  intros [(Hself & -> & ->) | (b & blk & Hown & ->)].
  - exists s. split_and!; [by apply clear_null| |done].
    apply represents_vector_is. by left.
  - destruct (clear_owns value_has_trivial_destroy sizeof_T _ _ _ _ Hown)
      as (s' & Hrun & Hown' & Hml & _).
    pose proof (owns_length _ _ _ _ _ Hown) as Hlen.
    assert (Hl : length (destroyed value_has_trivial_destroy l
                           ++ drop (length l) blk) = length blk) by len.
    exists s'. split_and!; [done| |by eapply owns_in_place].
    apply represents_vector_is. right. eexists b, _. split; [done|].
    by rewrite Hl.
Qed.

(** X5: [erase(pos)] removes the element at [pos] and moves the ones
    after it down by one, in place; the iterator returned is [pos]. *)
Theorem X5_erase_at_removes (s : state) P x S cap :
  represents s (P ++ x :: S) cap →
  ∃ s', erase_at (at_index s (length P)) s = Ok (at_index s' (length P)) s'
        ∧ vector_is s' (P ++ S) cap
        ∧ in_place s s'.
Proof.
  intros [(_ & ? & _) | (b & blk & Hown & ->)]; [by destruct P|].
  destruct (erase_at_owns moved_from value_has_trivial_destroy sizeof_T
              _ _ _ _ _ _ Hown)
    as (s' & blk' & Hrun & Hown' & Hlen & Hml & _).
  exists s'.
  rewrite (ptr_add_at_index _ _ _ _ _ _ Hown),
    (ptr_add_at_index _ _ _ _ _ _ Hown').
  split_and!; [done| |by eapply owns_in_place].
  apply represents_vector_is. right. exists b, blk'. by rewrite Hlen.
Qed.

(** X6: [take_back()] on an empty vector returns a value-initialised
    element and changes nothing; otherwise it returns the last element
    and removes it, in place. *)
Theorem X6_take_back (s : state) l cap :
  represents s l cap →
  (l = [] → take_back s = Ok value_default s)
  ∧ ∀ l' x, l = l' ++ [x] →
      ∃ s', take_back s = Ok x s' ∧ vector_is s' l' cap ∧ in_place s s'.
Proof.
  intros Hrep. split.
  - intros ->. by eapply take_back_empty.
  - intros l' x ->.
    destruct Hrep as [(_ & ? & _) | (b & blk & Hown & ->)]; [by destruct l'|].
    destruct (take_back_owns moved_from value_has_trivial_destroy sizeof_T
                value_default _ _ _ _ _ Hown)
      as (s' & blk' & Hrun & Hown' & Hlen & Hml & _).
    exists s'. split_and!; [done| |by eapply owns_in_place].
    apply represents_vector_is. right. exists b, blk'. by rewrite Hlen.
Qed.

(** X7: [take(pos)] returns the element at [pos] and leaves the vector
    as [erase(pos)] does: without that element, in place. *)
Theorem X7_take_at (s : state) P x S cap :
  represents s (P ++ x :: S) cap →
  ∃ s', take_at (at_index s (length P)) s = Ok x s'
        ∧ vector_is s' (P ++ S) cap
        ∧ in_place s s'.
Proof.
  intros [(_ & ? & _) | (b & blk & Hown & ->)]; [by destruct P|].
  destruct (take_at_owns moved_from value_has_trivial_destroy sizeof_T
              _ _ _ _ _ _ Hown)
    as (s' & blk' & Hrun & Hown' & Hlen & Hml & _).
  exists s'. rewrite (ptr_add_at_index _ _ _ _ _ _ Hown).
  split_and!; [done| |by eapply owns_in_place].
  apply represents_vector_is. right. exists b, blk'. by rewrite Hlen.
Qed.

(** X8: [reserve(n)] keeps the elements; it does nothing when
    [n <= capacity()], and otherwise moves them to a new array of exactly
    [n] slots and releases the old one. *)
Theorem X8_reserve (s : state) l cap n :
  represents s l cap →
  0 ≤ n ≤ max_size →
  ∃ s', reserve n s = Ok tt s'
        ∧ vector_is s' l (Z.max cap n)
        ∧ (n ≤ cap → s' = s)
        ∧ (cap < n → released s s').
Proof.
  intros Hrep Hn.
  pose proof (reserve_spec moved_from value_has_trivial_destroy sizeof_T
                False s l cap n Hrep) as H.
  apply wp_total in H as ([] & s' & Hrun & Hrep' & Hsame & Hrel & _);
    [|lia|right; lia].
  exists s'. split_and!; [done|by apply represents_vector_is|done|done].
Qed.


(** X10: the destructor leaves three null cursors and releases the
    vector's array; no other array is touched. *)
Theorem X10_destructor_releases (s : state) l cap :
  represents s l cap →
  ∃ s', destructor s = Ok tt s'
        ∧ self s' = mk_vector Null Null Null
        ∧ released s s'
        ∧ others_kept s s'.
Proof.
  intros Hrep.
  destruct (destructor_spec value_has_trivial_destroy sizeof_T s l cap Hrep)
    as (s' & Hrun & Hself & Hrel & Hkept & _).
  by exists s'.
Qed.


(** X12: on a vector that is not empty, [front()] refers to the first
    element and [back()] to the last. *)
Theorem X12_front_back (s : state) x l y cap :
  represents s (x :: l) cap →
  list.last (x :: l) = Some y →
  front s = Ok (ref_elem (at_index s 0)) s
  ∧ ref_reads s (ref_elem (at_index s 0)) x
  ∧ back s = Ok (ref_elem (at_index s (length l))) s
  ∧ ref_reads s (ref_elem (at_index s (length l))) y.
Proof.
  intros Hrep Hlast.
  destruct (front_ok sizeof_T s x l cap Hrep) as (Hf & Hfx).
  apply last_Some in Hlast as (l' & Hl').
  rewrite Hl' in Hrep.
  destruct (back_ok sizeof_T s l' y cap Hrep) as (Hb & Hby).
  assert (length l' = length l) as <-.
  { apply (f_equal length) in Hl'. rewrite length_app in Hl'.
    cbn [length] in Hl'. lia. }
  done.
Qed.

(** X13: [vector(n, val)] constructs [n] copies of the value in an array
    of exactly [n] slots, and allocates nothing when [n = 0]. *)
Theorem X13_vector_fill (s : state) n val x :
  0 ≤ n ≤ max_size →
  ref_reads s val x →
  ∃ s', vector_fill n val s = Ok tt s'
        ∧ vector_is s' (replicate (Z.to_nat n) x) n
        ∧ (n = 0 → mem s' = mem s)
        ∧ ∀ b', (b' < length (mem s))%nat → mem s' !! b' = mem s !! b'.
Proof.
  intros Hn Hval.
  pose proof (vector_fill_spec sizeof_T False s n val x) as H.
  apply wp_total in H as ([] & s' & Hrun & Hrep' & Hfr);
    [|lia|right; lia|done].
  exists s'. split_and!; [done|by apply represents_vector_is| |done].
  intros ->. revert Hrun. unfold kane.vector_fill, kane.vector_base_capacity.
  cbn. by intros [= <-].
Qed.

(** X14: [vector(capacity_tag)] makes an empty vector of the capacity
    asked for. *)
Theorem X14_vector_with_capacity (s : state) n :
  0 ≤ n ≤ max_size →
  ∃ s', vector_base_capacity n s = Ok tt s'
        ∧ vector_is s' [] n
        ∧ ∀ b', (b' < length (mem s))%nat → mem s' !! b' = mem s !! b'.
Proof.
  intros Hn.
  pose proof (vector_base_capacity_spec sizeof_T False s n) as H.
  apply wp_total in H as ([] & s' & Hrun & Hrep' & _ & _ & Hfr);
    [|lia|right; lia].
  exists s'. split_and!; [done|by apply represents_vector_is|done].
Qed.

(** X15: the copy constructor never fails for want of capacity; the new
    vector has the elements of the other one in an array of its own, with
    capacity equal to its size, and the other vector and its array are
    untouched. *)
Theorem X15_copy_construct (s : state) other l cap :
  represents (mk_state other (mem s)) l cap →
  ∃ s', vector_copy other s = Ok tt s'
        ∧ vector_is s' l (Z.of_nat (length l))
        ∧ represents (mk_state other (mem s')) l cap
        ∧ (l ≠ [] → m_data (self s') ≠ m_data other).
Proof.
  intros Hrep.
  pose proof (vector_copy_spec moved_from sizeof_T s other l cap Hrep) as H.
  apply wp_total in H as ([] & s' & Hrun & Hrep' & Hfr & Hnew).
  exists s'. split_and!; [done|by apply represents_vector_is| |].
  - destruct Hrep as [?|(b & blk & (Hself & Hb & Hrest) & Hc)]; [by left|].
    right. exists b, blk. split; [|done]. split_and!; [done| |apply Hrest..].
    cbn [mem self] in *. rewrite Hfr; [done|]. by eapply lookup_lt_Some.
  - intros Hl. rewrite (Hnew Hl).
    destruct Hrep as [(_ & ? & _)|(b & blk & (Hself & Hb & _) & _)]; [done|].
    cbn [self mem] in *. rewrite Hself. cbn [m_data].
    apply lookup_lt_Some in Hb. intros [= ?]. lia.
Qed.

(** X16: [xpush_back(val)] appends [val] as [push_back] does when [val]
    is not an element of the vector, and for any [val] when there is
    room. *)
Theorem X16_xpush_back (s : state) l cap val x :
  represents s l cap →
  val = ref_value x ∨ (Z.of_nat (length l) < cap ∧ ref_reads s val x) →
  (Z.of_nat (length l) = cap → next_capacity cap ≤ max_size) →
  ∃ s', xpush_back val s = Ok tt s'
        ∧ vector_is s' (l ++ [x])
            (if Z.of_nat (length l) =? cap then next_capacity cap else cap).
Proof.
  intros Hrep Hval Hmax.
  pose proof (xpush_back_spec moved_from value_has_trivial_destroy sizeof_T
                False s l cap val x Hrep Hval) as H.
  apply wp_total in H as ([] & s' & Hrun & Hrep'); [|by right].
  exists s'. split; [done|]. by apply represents_vector_is.
Qed.

(** X17: [insert(end(), first, last)] with forward iterators over a
    sequence [X] outside the vector appends [X]; the array grows to
    exactly [size() + |X|] slots when it is too small, and the iterator
    returned is that of the first element appended. *)
Theorem X17_insert_at_end_forward (s : state) l cap X :
  represents s l cap →
  Z.of_nat (length l + length X) ≤ max_size →
  ∃ s', insert_iter forward_iterator_tag (at_index s (length l))
          (iter_ext X) (iter_ext []) s
        = Ok (at_index s' (length l)) s'
        ∧ vector_is s' (l ++ X)
            (Z.max cap (Z.of_nat (length l + length X))).
Proof.
  intros Hrep Hmax.
  pose proof (append_range_forward_spec moved_from value_has_trivial_destroy
                sizeof_T s l cap X Hrep Hmax) as H.
  apply wp_total in H as (r & s' & Hrun & Hrep' & ->).
  exists s'. split; [|by apply represents_vector_is].
  by erewrite insert_iter_end_forward.
Qed.

(** X18: after [reserve(n)] with [n > size()], a [push_back] does not
    reallocate: the element is appended in the array [reserve] left. *)
Theorem X18_reserve_then_push_back (s : state) l cap n :
  represents s l cap →
  Z.of_nat (length l) < n ≤ max_size →
  ∃ s1, reserve n s = Ok tt s1
        ∧ ∀ val x, ref_reads s1 val x →
            ∃ s2, push_back val s1 = Ok tt s2
                  ∧ vector_is s2 (l ++ [x]) (Z.max cap n)
                  ∧ in_place s1 s2.
Proof.
  intros Hrep Hn.
  pose proof (reserve_spec moved_from value_has_trivial_destroy sizeof_T
                False s l cap n Hrep) as H.
  apply wp_total in H as ([] & s1 & Hrun & Hrep1 & _); [|lia|right; lia].
  exists s1. split; [done|]. intros val x Hval.
  destruct Hrep1 as [(_ & _ & ?) | (b & blk & Hown & Hc)]; [lia|].
  destruct (push_back_room_owns moved_from value_has_trivial_destroy
              use_simple_insert sizeof_T s1 b blk l val x Hown)
    as (s2 & Hrun2 & Hown2 & Hml); [lia|done|].
  exists s2. split_and!; [done| |].
  - apply represents_vector_is. right. eexists b, _. split; [done|].
    by rewrite length_insert.
  - eapply owns_in_place; [done|done|by rewrite length_insert|done].
Qed.

(** X19: [move_construct_from_range(dest, first, last)] into raw slots of
    another array constructs the elements there in order, returns the end
    of what it constructed and leaves every source element constructed,
    in its moved-from state. *)
Theorem X19_move_construct_from_range (s : state) vs bd L G R bs L' R' :
  bd ≠ bs →
  length G = length vs →
  mem s !! bd = Some (Some (L ++ G ++ R)) →
  mem s !! bs = Some (Some (L' ++ map Some vs ++ R')) →
  ∃ s', move_construct_from_range (Ptr bd (Z.of_nat (length L)))
          (iter_ptr (Ptr bs (Z.of_nat (length L'))))
          (iter_ptr (Ptr bs (Z.of_nat (length L' + length vs)))) s
        = Ok (Ptr bd (Z.of_nat (length L + length vs))) s'
        ∧ mem s' !! bd = Some (Some (L ++ map Some vs ++ R))
        ∧ mem s' !! bs = Some (Some (L' ++ map Some (map moved_from vs) ++ R'))
        ∧ self s' = self s
        ∧ ∀ b', b' ≠ bd → b' ≠ bs → mem s' !! b' = mem s !! b'.
Proof.
  intros Hne Hlen Hd Hs.
  assert (Hdl : (bd < length (mem s))%nat) by (by eapply lookup_lt_Some).
  assert (Hsl : (bs < length (mem s))%nat) by (by eapply lookup_lt_Some).
  eexists. split_and!.
  - erewrite (move_construct_from_range_ok moved_from vs bd L G R _ bs L' R');
      [|done|done|done|done|done|done|lia].
    do 2 f_equal. lia.
  - by lookup_simpl.
  - by lookup_simpl.
  - done.
  - intros b' H1 H2. by lookup_simpl.
Qed.

(** X20: [resize(n, val)] keeps the first [n] elements when [n] is less
    than the size, and otherwise appends [n - size()] copies of the value
    [val] refers to when called, also when [val] is an element of the
    vector and the array is reallocated.  The capacity stays when [n]
    fits in it and becomes the larger of [n] and
    [next_capacity(capacity())] when it does not. *)
Theorem X20_resize (s : state) l cap val x n :
  represents s l cap →
  ref_reads s val x →
  0 ≤ n ≤ max_size →
  (cap < n → next_capacity cap ≤ max_size) →
  ∃ s', resize_fill n val s = Ok tt s'
        ∧ vector_is s'
            (take (Z.to_nat n) l ++ replicate (Z.to_nat n - length l) x)
            (grown_capacity cap n).
Proof.
  intros Hrep Hval Hn Hmax.
  pose proof (resize_fill_spec moved_from value_has_trivial_destroy
                use_simple_insert sizeof_T False s l cap val x n
                Hrep Hval Hn) as H.
  apply wp_total in H as ([] & s' & Hrun & Hrep'); [|by right].
  exists s'. split; [done|]. by apply represents_vector_is.
Qed.


(** X22: [assign(n, val)] with [val] not an element of the vector's own
    array replaces the elements by [n] copies of the value [val] refers
    to, whether destruction is trivial or not.  The capacity becomes [n]
    only when [n] exceeds it; otherwise the vector stays in its array and
    nothing is allocated. *)
Theorem X22_assign_fill (s : state) l cap n val x :
  represents s l cap →
  ref_reads s val x →
  (∀ b o, m_data (self s) = Ptr b o → reads_outside b s val x) →
  0 ≤ n ≤ max_size →
  ∃ s', assign_fill n val s = Ok tt s'
        ∧ vector_is s' (replicate (Z.to_nat n) x) (Z.max cap n)
        ∧ (n ≤ cap → in_place s s').
Proof.
  intros Hrep Hval Hout Hn.
  pose proof (assign_fill_spec moved_from value_has_trivial_destroy sizeof_T
                False s l cap n val x Hrep Hval Hout) as H.
  apply wp_total in H as ([] & s' & Hrun & Hrep' & Hplace); [|lia|right; lia].
  exists s'. split_and!; [done| |done]. by apply represents_vector_is.
Qed.

End Further.

(** ** The properties at work on vectors of integers *)

(** Two arrays in memory: the first holds [[1; 2]] and a spare slot, the
    second is raw. *)
Definition two_arrays : state Z :=
  mk_state (mk_vector Null Null Null)
    [Some [Some 1; Some 2; None]; Some [None; None]].

(** A full vector [[1; 2; 3]] and an array of the caller that holds [7]. *)
Definition second_array : state Z :=
  mk_state (mk_vector (Ptr 0 0) (Ptr 0 3) (Ptr 0 3))
    [Some [Some 1; Some 2; Some 3]; Some [Some 7]].

Lemma X1_push_back_appends_witness :
  ∃ s', push_back id false true 4 (ref_elem (Ptr 0 0)) (int_vector [1; 2; 3] 0)
        = Ok tt s'
        ∧ vector_is 4 s' [1; 2; 3; 1] 6.
Proof.
  apply (X1_push_back_appends id false true 4 (int_vector [1; 2; 3] 0)
           [1; 2; 3] 3 (ref_elem (Ptr 0 0)) 1).
  - right. exists 0%nat, [Some 1; Some 2; Some 3].
    vm_compute. repeat split; congruence.
  - reflexivity.
  - intros _. vm_compute. congruence.
Defined.

Lemma X2_pop_back_removes_last_witness :
  ∃ s', pop_back false (int_vector [1; 2; 3] 1) = Ok tt s'
        ∧ vector_is 4 s' [1; 2] 4
        ∧ in_place (int_vector [1; 2; 3] 1) s'.
Proof.
  apply (X2_pop_back_removes_last false 4 (int_vector [1; 2; 3] 1) [1; 2] 3 4).
  right. exists 0%nat, [Some 1; Some 2; Some 3; None].
  vm_compute. repeat split; congruence.
Defined.

Lemma X3_push_back_pop_back_witness :
  ∃ s1 s2, push_back id false true 4 (ref_value 9) (int_vector [1; 2] 0)
           = Ok tt s1
           ∧ pop_back false s1 = Ok tt s2
           ∧ vector_is 4 s2 [1; 2] 4.
Proof.
  apply (X3_push_back_pop_back id false true 4 (int_vector [1; 2] 0)
           [1; 2] 2 (ref_value 9) 9).
  - right. exists 0%nat, [Some 1; Some 2].
    vm_compute. repeat split; congruence.
  - reflexivity.
  - intros _. vm_compute. congruence.
Defined.

Lemma X4_clear_keeps_capacity_witness :
  ∃ s', clear false (int_vector [1; 2; 3] 1) = Ok tt s'
        ∧ vector_is 4 s' [] 4
        ∧ in_place (int_vector [1; 2; 3] 1) s'.
Proof.
  apply (X4_clear_keeps_capacity false 4 (int_vector [1; 2; 3] 1) [1; 2; 3] 4).
  right. exists 0%nat, [Some 1; Some 2; Some 3; None].
  vm_compute. repeat split; congruence.
Defined.

Lemma X5_erase_at_removes_witness :
  ∃ s', erase_at id false (Ptr 0 1) (int_vector [1; 2; 3] 0)
        = Ok (at_index s' 1) s'
        ∧ vector_is 4 s' [1; 3] 3
        ∧ in_place (int_vector [1; 2; 3] 0) s'.
Proof.
  apply (X5_erase_at_removes id false 4 (int_vector [1; 2; 3] 0) [1] 2 [3] 3).
  right. exists 0%nat, [Some 1; Some 2; Some 3].
  vm_compute. repeat split; congruence.
Defined.

Lemma X6_take_back_witness :
  ([1; 2; 3] = [] →
   take_back id false 0 (int_vector [1; 2; 3] 0)
   = Ok 0 (int_vector [1; 2; 3] 0))
  ∧ ∀ l' x, [1; 2; 3] = l' ++ [x] →
      ∃ s', take_back id false 0 (int_vector [1; 2; 3] 0) = Ok x s'
            ∧ vector_is 4 s' l' 3
            ∧ in_place (int_vector [1; 2; 3] 0) s'.
Proof.
  apply (X6_take_back id false 4 0 (int_vector [1; 2; 3] 0) [1; 2; 3] 3).
  right. exists 0%nat, [Some 1; Some 2; Some 3].
  vm_compute. repeat split; congruence.
Defined.

Lemma X7_take_at_witness :
  ∃ s', take_at id false (Ptr 0 0) (int_vector [1; 2; 3] 0) = Ok 1 s'
        ∧ vector_is 4 s' [2; 3] 3
        ∧ in_place (int_vector [1; 2; 3] 0) s'.
Proof.
  apply (X7_take_at id false 4 (int_vector [1; 2; 3] 0) [] 1 [2; 3] 3).
  right. exists 0%nat, [Some 1; Some 2; Some 3].
  vm_compute. repeat split; congruence.
Defined.

Lemma X8_reserve_witness :
  ∃ s', reserve id false 4 10 (int_vector [1; 2; 3] 0) = Ok tt s'
        ∧ vector_is 4 s' [1; 2; 3] 10
        ∧ (10 ≤ 3 → s' = int_vector [1; 2; 3] 0)
        ∧ (3 < 10 → released (int_vector [1; 2; 3] 0) s').
Proof.
  apply (X8_reserve id false 4 (int_vector [1; 2; 3] 0) [1; 2; 3] 3 10).
  - right. exists 0%nat, [Some 1; Some 2; Some 3].
    vm_compute. repeat split; congruence.
  - vm_compute. split; congruence.
Defined.


Lemma X10_destructor_releases_witness :
  ∃ s', destructor false (int_vector [1; 2] 1) = Ok tt s'
        ∧ self s' = mk_vector Null Null Null
        ∧ released (int_vector [1; 2] 1) s'
        ∧ others_kept (int_vector [1; 2] 1) s'.
Proof.
  apply (X10_destructor_releases false 4 (int_vector [1; 2] 1) [1; 2] 3).
  right. exists 0%nat, [Some 1; Some 2; None].
  vm_compute. repeat split; congruence.
Defined.


Lemma X12_front_back_witness :
  let s := int_vector [1; 2; 3] 0 in
  front s = Ok (ref_elem (at_index s 0)) s
  ∧ ref_reads s (ref_elem (at_index s 0)) 1
  ∧ back s = Ok (ref_elem (at_index s 2)) s
  ∧ ref_reads s (ref_elem (at_index s 2)) 3.
Proof.
  apply (X12_front_back 4 (int_vector [1; 2; 3] 0) 1 [2; 3] 3 3).
  - right. exists 0%nat, [Some 1; Some 2; Some 3].
    vm_compute. repeat split; congruence.
  - reflexivity.
Defined.

Lemma X13_vector_fill_witness :
  ∃ s', vector_fill 4 3 (ref_value 7) null_state = Ok tt s'
        ∧ vector_is 4 s' [7; 7; 7] 3
        ∧ (3 = 0 → mem s' = mem null_state)
        ∧ ∀ b', (b' < length (mem null_state))%nat →
                mem s' !! b' = mem null_state !! b'.
Proof.
  apply (X13_vector_fill 4 null_state 3 (ref_value 7) 7).
  - vm_compute. split; congruence.
  - reflexivity.
Defined.

Lemma X14_vector_with_capacity_witness :
  ∃ s', vector_base_capacity 4 8 null_state = Ok tt s'
        ∧ vector_is 4 s' [] 8
        ∧ ∀ b', (b' < length (mem null_state))%nat →
                mem s' !! b' = mem null_state !! b'.
Proof.
  apply (X14_vector_with_capacity 4 null_state 8).
  vm_compute. split; congruence.
Defined.

Lemma X15_copy_construct_witness :
  let other := mk_vector (Ptr 0 0) (Ptr 0 2) (Ptr 0 3) in
  ∃ s', vector_copy id 4 other two_arrays = Ok tt s'
        ∧ vector_is 4 s' [1; 2] 2
        ∧ represents 4 (mk_state other (mem s')) [1; 2] 3
        ∧ ([1; 2] ≠ [] → m_data (self s') ≠ m_data other).
Proof.
  apply (X15_copy_construct id 4 two_arrays
           (mk_vector (Ptr 0 0) (Ptr 0 2) (Ptr 0 3)) [1; 2] 3).
  right. exists 0%nat, [Some 1; Some 2; None].
  vm_compute. repeat split; congruence.
Defined.

Lemma X16_xpush_back_witness :
  ∃ s', xpush_back id false 4 (ref_value 9) (int_vector [1; 2] 0) = Ok tt s'
        ∧ vector_is 4 s' [1; 2; 9] 4.
Proof.
  apply (X16_xpush_back id false 4 (int_vector [1; 2] 0) [1; 2] 2
           (ref_value 9) 9).
  - right. exists 0%nat, [Some 1; Some 2].
    vm_compute. repeat split; congruence.
  - left. reflexivity.
  - intros _. vm_compute. congruence.
Defined.

Lemma X17_insert_at_end_forward_witness :
  ∃ s', insert_iter id false 4 forward_iterator_tag (Ptr 0 2)
          (iter_ext [7; 8; 9]) (iter_ext []) (int_vector [1; 2] 1)
        = Ok (at_index s' 2) s'
        ∧ vector_is 4 s' [1; 2; 7; 8; 9] 5.
Proof.
  apply (X17_insert_at_end_forward id false 4 (int_vector [1; 2] 1)
           [1; 2] 3 [7; 8; 9]).
  - right. exists 0%nat, [Some 1; Some 2; None].
    vm_compute. repeat split; congruence.
  - vm_compute. congruence.
Defined.

Lemma X18_reserve_then_push_back_witness :
  ∃ s1, reserve id false 4 4 (int_vector [1; 2] 0) = Ok tt s1
        ∧ ∀ val x, ref_reads s1 val x →
            ∃ s2, push_back id false true 4 val s1 = Ok tt s2
                  ∧ vector_is 4 s2 [1; 2; x] 4
                  ∧ in_place s1 s2.
Proof.
  apply (X18_reserve_then_push_back id false true 4 (int_vector [1; 2] 0)
           [1; 2] 2 4).
  - right. exists 0%nat, [Some 1; Some 2].
    vm_compute. repeat split; congruence.
  - vm_compute. split; congruence.
Defined.

Lemma X19_move_construct_from_range_witness :
  ∃ s', move_construct_from_range (λ x, - x) (Ptr 1 0)
          (iter_ptr (Ptr 0 0)) (iter_ptr (Ptr 0 2)) two_arrays
        = Ok (Ptr 1 2) s'
        ∧ mem s' !! 1%nat = Some (Some [Some 1; Some 2])
        ∧ mem s' !! 0%nat = Some (Some [Some (-1); Some (-2); None])
        ∧ self s' = self two_arrays
        ∧ ∀ b', b' ≠ 1%nat → b' ≠ 0%nat → mem s' !! b' = mem two_arrays !! b'.
Proof.
  apply (X19_move_construct_from_range (λ x, - x) two_arrays [1; 2]
           1%nat [] [None; None] [] 0%nat [] [None]).
  - lia.
  - reflexivity.
  - reflexivity.
  - reflexivity.
Defined.

Lemma X20_resize_witness :
  ∃ s', resize_fill id false true 4 5 (ref_elem (Ptr 0 1))
          (int_vector [1; 2; 3] 0)
        = Ok tt s'
        ∧ vector_is 4 s' [1; 2; 3; 2; 2] 6.
Proof.
  apply (X20_resize id false true 4 (int_vector [1; 2; 3] 0)
           [1; 2; 3] 3 (ref_elem (Ptr 0 1)) 2 5).
  - right. exists 0%nat, [Some 1; Some 2; Some 3].
    vm_compute. repeat split; congruence.
  - reflexivity.
  - vm_compute. split; congruence.
  - intros _. vm_compute. congruence.
Defined.


Lemma X22_assign_fill_witness :
  ∃ s', assign_fill id false 4 2 (ref_elem (Ptr 1 0)) second_array = Ok tt s'
        ∧ vector_is 4 s' [7; 7] 3
        ∧ (2 ≤ 3 → in_place second_array s').
Proof.
  apply (X22_assign_fill id false 4 second_array [1; 2; 3] 3 2
           (ref_elem (Ptr 1 0)) 7).
  - right. exists 0%nat, [Some 1; Some 2; Some 3].
    vm_compute. repeat split; congruence.
  - reflexivity.
  - intros b o Hd blk. injection Hd as <- _. reflexivity.
  - vm_compute. split; congruence.
Defined.

